(** * The connection core of the Unreal MCP bridge
      (src/Python/unreal_mcp_server.py)

    A shallow embedding of [UnrealConnection]: the newline-framed JSON codec
    ([json.dumps] on the way out, [receive_full_response] on the way in), the
    session state with its lock, [connect], [disconnect], [send_command] and
    the heartbeat loop, followed by the properties of the specification.
    Then [status] and the global connection of the module
    ([get_unreal_connection], [shutdown_server], [server_lifespan]), and
    further properties of the session and of the receive loop.

    Conventions of the embedding.
    - A Python [str] is a list of code points ([text]); [bytes] is a list of
      [Byte.byte].
    - A Python value that travels as JSON is a [json]; Python's [None] is
      [JNull], as it is in Python itself.
    - The interpreter's library functions the source calls ([json.dumps],
      [json.loads], [str.strip], [str.split], [bytes.decode], [str.encode])
      are written out as CPython implements them.  Resource limits of the
      interpreter (recursion depth, the digit limit of [int]) are not
      modelled.
    - What the operating system and the peer do is an input: a socket carries
      the script of what its [sendall] and [recv] calls will do, a connect
      attempt says how far it gets, and the clock readings of [time.time()]
      are passed in.
    - [threading.Lock] is not re-entrant.  A call that acquires a lock its own
      thread already holds never returns; this is the outcome [Blocked]. *)

From Stdlib Require Import List Bool Arith NArith ZArith Lia Zify.
From Stdlib.Strings Require Import Ascii String Byte.
From Stdlib Require Decimal DecimalN DecimalFacts DecimalPos.
Import ListNotations.

Local Open Scope N_scope.
Local Open Scope list_scope.

(** ** Text and bytes *)

Abbreviation codepoint := N (only parsing).
Abbreviation text := (list N) (only parsing).
Abbreviation bytes := (list byte) (only parsing).

(** A Python string literal of the source, as text. *)
Definition txt (s : string) : text :=
  List.map N_of_ascii (list_ascii_of_string s).

Definition NEWLINE : codepoint := 10.

Definition is_high_surrogate (c : codepoint) : bool :=
  (0xD800 <=? c) && (c <=? 0xDBFF).
Definition is_low_surrogate (c : codepoint) : bool :=
  (0xDC00 <=? c) && (c <=? 0xDFFF).
Definition is_surrogate (c : codepoint) : bool :=
  (0xD800 <=? c) && (c <=? 0xDFFF).

(** A Unicode scalar value: what a [str] holds when it is proper text. *)
Definition is_scalar (c : codepoint) : bool :=
  (c <? 0x110000) && negb (is_surrogate c).

Definition byte_of_N (n : N) : byte :=
  match Byte.of_N n with Some b => b | None => x00 end.

Definition option_cons {A : Type} (a : A) (o : option (list A)) : option (list A) :=
  match o with Some l => Some (a :: l) | None => None end.

Definition option_app {A : Type} (l : list A) (o : option (list A)) : option (list A) :=
  match o with Some l' => Some (l ++ l') | None => None end.

(** [str.encode('utf-8')] for one code point; [None] is [UnicodeEncodeError]
    (a surrogate). *)
Definition utf8_encode_char (c : codepoint) : option bytes :=
  if c <? 0x80 then Some [byte_of_N c]
  else if c <? 0x800 then
    Some [byte_of_N (0xC0 + c / 64); byte_of_N (0x80 + c mod 64)]
  else if is_surrogate c then None
  else if c <? 0x10000 then
    Some [byte_of_N (0xE0 + c / 4096); byte_of_N (0x80 + (c / 64) mod 64);
          byte_of_N (0x80 + c mod 64)]
  else if c <? 0x110000 then
    Some [byte_of_N (0xF0 + c / 262144); byte_of_N (0x80 + (c / 4096) mod 64);
          byte_of_N (0x80 + (c / 64) mod 64); byte_of_N (0x80 + c mod 64)]
  else None.

Fixpoint utf8_encode (t : text) : option bytes :=
  match t with
  | [] => Some []
  | c :: r =>
      match utf8_encode_char c with
      | Some bs => option_app bs (utf8_encode r)
      | None => None
      end
  end.

Definition in_range (lo hi n : N) : bool := (lo <=? n) && (n <=? hi).

(** [bytes.decode('utf-8')], strict: [None] is [UnicodeDecodeError].  The
    accepted sequences are those of the Unicode standard (no overlong forms,
    no surrogates, nothing above U+10FFFF); a sequence cut short by the end
    of the bytes is an error too. *)
Fixpoint utf8_decode (bs : bytes) : option text :=
  match bs with
  | [] => Some []
  | b0 :: r0 =>
      let n0 := Byte.to_N b0 in
      if n0 <? 0x80 then option_cons n0 (utf8_decode r0)
      else if in_range 0xC2 0xDF n0 then
        match r0 with
        | b1 :: r1 =>
            let n1 := Byte.to_N b1 in
            if in_range 0x80 0xBF n1
            then option_cons ((n0 - 0xC0) * 64 + (n1 - 0x80)) (utf8_decode r1)
            else None
        | _ => None
        end
      else if in_range 0xE0 0xEF n0 then
        match r0 with
        | b1 :: b2 :: r2 =>
            let n1 := Byte.to_N b1 in
            let n2 := Byte.to_N b2 in
            let lo := if n0 =? 0xE0 then 0xA0 else 0x80 in
            let hi := if n0 =? 0xED then 0x9F else 0xBF in
            if in_range lo hi n1 && in_range 0x80 0xBF n2
            then option_cons ((n0 - 0xE0) * 4096 + (n1 - 0x80) * 64 + (n2 - 0x80))
                             (utf8_decode r2)
            else None
        | _ => None
        end
      else if in_range 0xF0 0xF4 n0 then
        match r0 with
        | b1 :: b2 :: b3 :: r3 =>
            let n1 := Byte.to_N b1 in
            let n2 := Byte.to_N b2 in
            let n3 := Byte.to_N b3 in
            let lo := if n0 =? 0xF0 then 0x90 else 0x80 in
            let hi := if n0 =? 0xF4 then 0x8F else 0xBF in
            if in_range lo hi n1 && in_range 0x80 0xBF n2 && in_range 0x80 0xBF n3
            then option_cons ((n0 - 0xF0) * 262144 + (n1 - 0x80) * 4096
                              + (n2 - 0x80) * 64 + (n3 - 0x80))
                             (utf8_decode r3)
            else None
        | _ => None
        end
      else None
  end.

(** [str.isspace] on one character, the set [str.strip()] removes. *)
Definition py_isspace (c : codepoint) : bool :=
  in_range 9 13 c || in_range 28 32 c || (c =? 0x85) || (c =? 0xA0)
  || (c =? 0x1680) || in_range 0x2000 0x200A c || (c =? 0x2028)
  || (c =? 0x2029) || (c =? 0x202F) || (c =? 0x205F) || (c =? 0x3000).

Fixpoint lstrip (t : text) : text :=
  match t with
  | [] => []
  | c :: r => if py_isspace c then lstrip r else t
  end.

Definition rstrip (t : text) : text := List.rev (lstrip (List.rev t)).

(** [str.strip()] *)
Definition strip (t : text) : text := rstrip (lstrip t).

(** ['\n' in buffer] and [buffer.split('\n', 1)] in one: [None] when the
    buffer holds no newline, otherwise the text before the first newline and
    the text after it. *)
Fixpoint split_newline (t : text) : option (text * text) :=
  match t with
  | [] => None
  | c :: r =>
      if c =? NEWLINE then Some ([], r)
      else match split_newline r with
           | Some (a, b) => Some (c :: a, b)
           | None => None
           end
  end.

(** Truth value of a [str]. *)
Definition text_truthy (t : text) : bool :=
  match t with [] => false | _ => true end.

Definition text_eqb (a b : text) : bool :=
  if list_eq_dec N.eq_dec a b then true else false.

(** ** JSON values as Python holds them *)

(** A Python [float].  Binary floating point is not modelled: a float is
    represented by the decimal literal that denotes it (the text matched by
    the number pattern of [json.loads]; for a float built by Python code, its
    [repr]), or is one of the three special values. *)
Inductive pyfloat : Type :=
| FLit (lexeme : text)
| FNaN
| FInfinity
| FNegInfinity.

(** [None], [bool], [int], [float], [str], [list] and [dict].  A [dict] keeps
    its keys in insertion order; its keys are distinct (see [dict_set]). *)
Unset Elimination Schemes.
Inductive json : Type :=
| JNull
| JBool (b : bool)
| JInt (z : Z)
| JFloat (f : pyfloat)
| JStr (s : text)
| JArr (items : list json)
| JObj (members : list (text * json)).
Set Elimination Schemes.

Abbreviation dict := (list (text * json)) (only parsing).

(** [key in d] *)
Fixpoint dict_contains (k : text) (d : dict) : bool :=
  match d with
  | [] => false
  | (k', _) :: r => text_eqb k k' || dict_contains k r
  end.

(** [d.get(key, default)] *)
Fixpoint dict_get_default (k : text) (default : json) (d : dict) : json :=
  match d with
  | [] => default
  | (k', v) :: r => if text_eqb k k' then v else dict_get_default k default r
  end.

(** [d.get(key)]: [None] when the key is absent. *)
Definition dict_get (k : text) (d : dict) : json := dict_get_default k JNull d.

(** [d[key] = value]: an existing key keeps its place, a new one goes last. *)
Fixpoint dict_set (k : text) (v : json) (d : dict) : dict :=
  match d with
  | [] => [(k, v)]
  | (k', v') :: r =>
      if text_eqb k k' then (k', v) :: r else (k', v') :: dict_set k v r
  end.

(** [dict(pairs)] *)
Definition dict_of_pairs (pairs : list (text * json)) : dict :=
  fold_left (fun d kv => dict_set (fst kv) (snd kv) d) pairs [].

Definition is_digit (c : codepoint) : bool := in_range 48 57 c.

(** Value of a run of decimal digits. *)
Definition digits_value (ds : text) : N :=
  fold_left (fun acc c => 10 * acc + (c - 48)) ds 0.

(** [break_at p t]: the text before the first character that satisfies [p],
    and the text from that character on. *)
Fixpoint break_at (p : codepoint -> bool) (t : text) : text * text :=
  match t with
  | [] => ([], [])
  | c :: r =>
      if p c then ([], t)
      else let (a, b) := break_at p r in (c :: a, b)
  end.

(** Whether the decimal literal [lexeme] denotes a float that is zero: its
    digits are all zero, or its value [m * 10^k] is at most [2^-1075], half
    the least positive binary64 number, and so rounds to zero. *)
Definition float_lit_is_zero (lexeme : text) : bool :=
  let (mant, ex) := break_at (fun c => (c =? 101) || (c =? 69)) lexeme in
  let (ip, fp) := break_at (fun c => c =? 46) mant in
  let m := digits_value (List.filter is_digit (ip ++ fp)) in
  let fraclen := Z.of_nat (List.length (List.filter is_digit fp)) in
  let e := match ex with
           | _ :: s :: r =>
               if s =? 45 then (- Z.of_N (digits_value r))%Z
               else if s =? 43 then Z.of_N (digits_value r)
               else Z.of_N (digits_value (s :: r))
           | _ => 0%Z
           end in
  let k := (e - fraclen)%Z in
  (m =? 0) || ((k <? 0)%Z && (Z.of_N m * 2 ^ 1075 <=? 10 ^ (- k))%Z).

(** Truth value of a Python object ([x or y], [if x]). *)
Definition float_truthy (f : pyfloat) : bool :=
  match f with
  | FLit lexeme => negb (float_lit_is_zero lexeme)
  | _ => true
  end.

Definition truthy (v : json) : bool :=
  match v with
  | JNull => false
  | JBool b => b
  | JInt z => negb (z =? 0)%Z
  | JFloat f => float_truthy f
  | JStr s => text_truthy s
  | JArr items => match items with [] => false | _ => true end
  | JObj members => match members with [] => false | _ => true end
  end.

(** [x or y] *)
Definition py_or (x y : json) : json := if truthy x then x else y.

(** [v == s] for a [str] literal [s]: only an equal [str] compares equal. *)
Definition eq_str (v : json) (s : text) : bool :=
  match v with
  | JStr s' => text_eqb s' s
  | _ => false
  end.

(** [v is False] *)
Definition is_False (v : json) : bool :=
  match v with
  | JBool false => true
  | _ => false
  end.

(** [isinstance(v, dict)] *)
Definition is_dict (v : json) : bool :=
  match v with
  | JObj _ => true
  | _ => false
  end.

(** [type(v).__name__] *)
Definition type_name (v : json) : text :=
  match v with
  | JNull => txt "NoneType"
  | JBool _ => txt "bool"
  | JInt _ => txt "int"
  | JFloat _ => txt "float"
  | JStr _ => txt "str"
  | JArr _ => txt "list"
  | JObj _ => txt "dict"
  end.

(** ** Exceptions *)

Inductive exn_class : Type :=
| CException          (* raise Exception("...") *)
| CAttributeError
| CUnicodeDecodeError
| CUnicodeEncodeError
| COSError            (* raised by the socket layer *)
| CSocketTimeout      (* socket.timeout *)
| CRuntimeError.

(** An exception object: its class and [str(e)]. *)
Record exn : Type := Raise { exn_class_of : exn_class; exn_str : text }.

(** What calling [.get] (or any method named [attr]) on a value that has no
    such attribute raises. *)
Definition no_attribute (v : json) (attr : text) : exn :=
  Raise CAttributeError
        ([39] ++ type_name v ++ txt "' object has no attribute '" ++ attr ++ [39]).

(** The interpreter's wording of a codec error names the offending byte and
    its position; it is abbreviated here. *)
Definition unicode_decode_error : exn :=
  Raise CUnicodeDecodeError (txt "'utf-8' codec can't decode bytes").
Definition unicode_encode_error : exn :=
  Raise CUnicodeEncodeError (txt "'utf-8' codec can't encode characters").

(** ** [json.dumps]

    The encoder with its defaults: [ensure_ascii=True], separators [", "] and
    [": "], keys in the order of the [dict]. *)

Definition hex_digit (d : N) : codepoint :=
  if d <? 10 then 48 + d else 87 + d.

(** The four lower-case hexadecimal digits of a 16-bit number. *)
Definition hex4 (n : N) : text :=
  [hex_digit ((n / 4096) mod 16); hex_digit ((n / 256) mod 16);
   hex_digit ((n / 16) mod 16); hex_digit (n mod 16)].

Definition BACKSLASH : codepoint := 92.
Definition QUOTE : codepoint := 34.

Definition u_escape (n : N) : text := BACKSLASH :: 117 :: hex4 n.

(** One character of a string inside the quotes. *)
Definition escape_char (c : codepoint) : text :=
  if c =? QUOTE then [BACKSLASH; QUOTE]
  else if c =? BACKSLASH then [BACKSLASH; BACKSLASH]
  else if c =? 10 then [BACKSLASH; 110]
  else if c =? 13 then [BACKSLASH; 114]
  else if c =? 9 then [BACKSLASH; 116]
  else if c =? 8 then [BACKSLASH; 98]
  else if c =? 12 then [BACKSLASH; 102]
  else if in_range 32 126 c then [c]
  else if c <? 0x10000 then u_escape c
  else u_escape (0xD800 + ((c - 0x10000) / 1024) mod 1024)
       ++ u_escape (0xDC00 + (c - 0x10000) mod 1024).

Definition encode_basestring_ascii (s : text) : text :=
  QUOTE :: List.flat_map escape_char s ++ [QUOTE].

Fixpoint uint_digits (u : Decimal.uint) : text :=
  match u with
  | Decimal.Nil => []
  | Decimal.D0 u => 48 :: uint_digits u
  | Decimal.D1 u => 49 :: uint_digits u
  | Decimal.D2 u => 50 :: uint_digits u
  | Decimal.D3 u => 51 :: uint_digits u
  | Decimal.D4 u => 52 :: uint_digits u
  | Decimal.D5 u => 53 :: uint_digits u
  | Decimal.D6 u => 54 :: uint_digits u
  | Decimal.D7 u => 55 :: uint_digits u
  | Decimal.D8 u => 56 :: uint_digits u
  | Decimal.D9 u => 57 :: uint_digits u
  end.

(** [repr] of an [int] *)
Definition int_repr (z : Z) : text :=
  match z with
  | Z0 => [48]
  | Zpos p => uint_digits (Pos.to_uint p)
  | Zneg p => 45 :: uint_digits (Pos.to_uint p)
  end.

Definition float_repr (f : pyfloat) : text :=
  match f with
  | FLit lexeme => lexeme
  | FNaN => txt "NaN"
  | FInfinity => txt "Infinity"
  | FNegInfinity => txt "-Infinity"
  end.

(** [sep.join(parts)] *)
Fixpoint join (sep : text) (parts : list text) : text :=
  match parts with
  | [] => []
  | p :: r =>
      match r with
      | [] => p
      | _ => p ++ sep ++ join sep r
      end
  end.

Definition ITEM_SEPARATOR : text := txt ", ".
Definition KEY_SEPARATOR : text := txt ": ".

Fixpoint json_dumps (v : json) : text :=
  match v with
  | JNull => txt "null"
  | JBool true => txt "true"
  | JBool false => txt "false"
  | JInt z => int_repr z
  | JFloat f => float_repr f
  | JStr s => encode_basestring_ascii s
  | JArr items =>
      91 :: join ITEM_SEPARATOR (List.map json_dumps items) ++ [93]
  | JObj members =>
      123 :: join ITEM_SEPARATOR
               (List.map (fun kv => encode_basestring_ascii (fst kv)
                                    ++ KEY_SEPARATOR ++ json_dumps (snd kv))
                         members)
          ++ [125]
  end.

(** ** [json.loads]

    The decoder with its defaults ([strict=True]), as the C scanner of
    CPython implements it. *)

Inductive parsed (A : Type) : Type :=
| Parsed (a : A) (rest : text)
| ParseError                       (* JSONDecodeError *)
| OutOfFuel.
Arguments Parsed {A} a rest.
Arguments ParseError {A}.
Arguments OutOfFuel {A}.

Definition is_json_ws (c : codepoint) : bool :=
  (c =? 32) || (c =? 9) || (c =? 10) || (c =? 13).

Fixpoint skip_ws (s : text) : text :=
  match s with
  | [] => []
  | c :: r => if is_json_ws c then skip_ws r else s
  end.

Definition hex_value (c : codepoint) : option N :=
  if in_range 48 57 c then Some (c - 48)
  else if in_range 97 102 c then Some (c - 87)
  else if in_range 65 70 c then Some (c - 55)
  else None.

Definition decode_hex4 (h1 h2 h3 h4 : codepoint) : option N :=
  match hex_value h1, hex_value h2, hex_value h3, hex_value h4 with
  | Some a, Some b, Some c, Some d => Some (((a * 16 + b) * 16 + c) * 16 + d)
  | _, _, _, _ => None
  end.

Definition join_surrogates (hi lo : N) : codepoint :=
  0x10000 + (hi - 0xD800) * 1024 + (lo - 0xDC00).

(** The character a one-letter escape stands for. *)
Definition simple_escape (e : codepoint) : option codepoint :=
  if e =? QUOTE then Some QUOTE
  else if e =? BACKSLASH then Some BACKSLASH
  else if e =? 47 then Some 47
  else if e =? 98 then Some 8
  else if e =? 102 then Some 12
  else if e =? 110 then Some 10
  else if e =? 114 then Some 13
  else if e =? 116 then Some 9
  else None.

Definition option_cons_fst {A : Type} (c : codepoint) (o : option (text * A))
  : option (text * A) :=
  match o with
  | Some (t, r) => Some (c :: t, r)
  | None => None
  end.

(** [scanstring]: the text after an opening quote, up to and including the
    closing quote.  A high surrogate escape directly followed by a low
    surrogate escape is one character. *)
Fixpoint scanstring (s : text) : option (text * text) :=
  match s with
  | [] => None
  | c :: r =>
      if c =? QUOTE then Some ([], r)
      else if c =? BACKSLASH then
        match r with
        | [] => None
        | e :: r1 =>
            if e =? 117 then
              match r1 with
              | h1 :: h2 :: h3 :: h4 :: r2 =>
                  match decode_hex4 h1 h2 h3 h4 with
                  | None => None
                  | Some u =>
                      if is_high_surrogate u then
                        match r2 with
                        | b :: u' :: g1 :: g2 :: g3 :: g4 :: r3 =>
                            if (b =? BACKSLASH) && (u' =? 117) then
                              match decode_hex4 g1 g2 g3 g4 with
                              | None => None
                              | Some u2 =>
                                  if is_low_surrogate u2
                                  then option_cons_fst (join_surrogates u u2)
                                                       (scanstring r3)
                                  else option_cons_fst u (scanstring r2)
                              end
                            else option_cons_fst u (scanstring r2)
                        | _ => option_cons_fst u (scanstring r2)
                        end
                      else option_cons_fst u (scanstring r2)
                  end
              | _ => None
              end
            else
              match simple_escape e with
              | Some c' => option_cons_fst c' (scanstring r1)
              | None => None
              end
        end
      else if c <=? 0x1F then None
      else option_cons_fst c (scanstring r)
  end.

(** The longest run of ASCII digits at the head of [s], and what follows. *)
Fixpoint take_digits (s : text) : text * text :=
  match s with
  | [] => ([], [])
  | c :: r =>
      if is_digit c then let (ds, r') := take_digits r in (c :: ds, r')
      else ([], s)
  end.

Fixpoint uint_of_digits (ds : text) : Decimal.uint :=
  match ds with
  | [] => Decimal.Nil
  | c :: r =>
      let u := uint_of_digits r in
      if c =? 48 then Decimal.D0 u
      else if c =? 49 then Decimal.D1 u
      else if c =? 50 then Decimal.D2 u
      else if c =? 51 then Decimal.D3 u
      else if c =? 52 then Decimal.D4 u
      else if c =? 53 then Decimal.D5 u
      else if c =? 54 then Decimal.D6 u
      else if c =? 55 then Decimal.D7 u
      else if c =? 56 then Decimal.D8 u
      else Decimal.D9 u
  end.

(** [int(digits)] for a run of decimal digits *)
Definition int_of_digits (ds : text) : Z := Z.of_N (N.of_uint (uint_of_digits ds)).

(** The parts of a number, each read at the head of [s]: the text of the
    part and what follows it.  An optional minus sign; a zero, or a non-zero
    digit and any digits; optionally a dot and at least one digit;
    optionally [e] or [E], an optional sign and at least one digit. *)
Definition lex_sign (s : text) : text * text :=
  match s with
  | c :: r => if c =? 45 then ([c], r) else ([], s)
  | [] => ([], s)
  end.

Definition lex_integer (s : text) : option (text * text) :=
  match s with
  | c :: r =>
      if in_range 49 57 c then
        let (ds, r') := take_digits r in Some (c :: ds, r')
      else if c =? 48 then Some ([c], r)
      else None
  | [] => None
  end.

Definition lex_fraction (s : text) : text * text :=
  match s with
  | dot :: r =>
      if dot =? 46 then
        match take_digits r with
        | ([], _) => ([], s)
        | (fd, r') => (dot :: fd, r')
        end
      else ([], s)
  | [] => ([], s)
  end.

Definition lex_exponent (s : text) : text * text :=
  match s with
  | e :: r =>
      if (e =? 101) || (e =? 69) then
        let (esign, r1) :=
          match r with
          | sg :: r1 => if (sg =? 43) || (sg =? 45) then ([sg], r1) else ([], r)
          | [] => ([], r)
          end in
        match take_digits r1 with
        | ([], _) => ([], s)
        | (ed, r2) => (e :: esign ++ ed, r2)
        end
      else ([], s)
  | [] => ([], s)
  end.

(** The number at the head of [s], the longest there is.  With a fraction
    or an exponent it is a [float], otherwise an [int]. *)
Definition match_number (s : text) : option (json * text) :=
  let (sign, s1) := lex_sign s in
  match lex_integer s1 with
  | None => None
  | Some (integer, s2) =>
      let (frac, s3) := lex_fraction s2 in
      let (exp, s4) := lex_exponent s3 in
      match frac, exp with
      | [], [] =>
          let n := int_of_digits integer in
          Some (JInt (match sign with [] => n | _ => (- n)%Z end), s4)
      | _, _ => Some (JFloat (FLit (sign ++ integer ++ frac ++ exp)), s4)
      end
  end.

(** [s] without the prefix [p], when it starts with [p]. *)
Fixpoint strip_prefix (p s : text) : option text :=
  match p with
  | [] => Some s
  | c :: p' =>
      match s with
      | c' :: s' => if c =? c' then strip_prefix p' s' else None
      | [] => None
      end
  end.

(** A value that is not a string, an object or an array: a named constant or
    a number. *)
Definition parse_atom (s : text) : option (json * text) :=
  match strip_prefix (txt "null") s with
  | Some r => Some (JNull, r)
  | None =>
  match strip_prefix (txt "true") s with
  | Some r => Some (JBool true, r)
  | None =>
  match strip_prefix (txt "false") s with
  | Some r => Some (JBool false, r)
  | None =>
  match strip_prefix (txt "NaN") s with
  | Some r => Some (JFloat FNaN, r)
  | None =>
  match strip_prefix (txt "Infinity") s with
  | Some r => Some (JFloat FInfinity, r)
  | None =>
  match strip_prefix (txt "-Infinity") s with
  | Some r => Some (JFloat FNegInfinity, r)
  | None => match_number s
  end end end end end end.

(** [scan_once], the array loop and the object loop.  [parse_elements] starts
    at an element; [parse_members] starts just after the opening quote of a
    key.  Each call spends one unit of [fuel]. *)
Fixpoint parse_value (fuel : nat) (s : text) {struct fuel} : parsed json :=
  match fuel with
  | O => OutOfFuel
  | S fuel' =>
      match s with
      | [] => ParseError
      | c :: r =>
          if c =? QUOTE then
            match scanstring r with
            | Some (t, r') => Parsed (JStr t) r'
            | None => ParseError
            end
          else if c =? 123 then
            match skip_ws r with
            | [] => ParseError
            | c1 :: r1 =>
                if c1 =? 125 then Parsed (JObj []) r1
                else if c1 =? QUOTE then
                  match parse_members fuel' r1 with
                  | Parsed pairs r2 => Parsed (JObj (dict_of_pairs pairs)) r2
                  | ParseError => ParseError
                  | OutOfFuel => OutOfFuel
                  end
                else ParseError
            end
          else if c =? 91 then
            match skip_ws r with
            | [] => ParseError
            | c1 :: r1 =>
                if c1 =? 93 then Parsed (JArr []) r1
                else
                  match parse_elements fuel' (c1 :: r1) with
                  | Parsed items r2 => Parsed (JArr items) r2
                  | ParseError => ParseError
                  | OutOfFuel => OutOfFuel
                  end
            end
          else
            match parse_atom s with
            | Some (v, r') => Parsed v r'
            | None => ParseError
            end
      end
  end

with parse_elements (fuel : nat) (s : text) {struct fuel} : parsed (list json) :=
  match fuel with
  | O => OutOfFuel
  | S fuel' =>
      match parse_value fuel' s with
      | Parsed v r =>
          match skip_ws r with
          | [] => ParseError
          | c :: r1 =>
              if c =? 93 then Parsed [v] r1
              else if c =? 44 then
                match parse_elements fuel' (skip_ws r1) with
                | Parsed vs r2 => Parsed (v :: vs) r2
                | ParseError => ParseError
                | OutOfFuel => OutOfFuel
                end
              else ParseError
          end
      | ParseError => ParseError
      | OutOfFuel => OutOfFuel
      end
  end

with parse_members (fuel : nat) (s : text) {struct fuel}
  : parsed (list (text * json)) :=
  match fuel with
  | O => OutOfFuel
  | S fuel' =>
      match scanstring s with
      | None => ParseError
      | Some (key, r) =>
          match skip_ws r with
          | [] => ParseError
          | colon :: r1 =>
              if colon =? 58 then
                match parse_value fuel' (skip_ws r1) with
                | Parsed v r2 =>
                    match skip_ws r2 with
                    | [] => ParseError
                    | c :: r3 =>
                        if c =? 125 then Parsed [(key, v)] r3
                        else if c =? 44 then
                          match skip_ws r3 with
                          | [] => ParseError
                          | q :: r4 =>
                              if q =? QUOTE then
                                match parse_members fuel' r4 with
                                | Parsed kvs r5 => Parsed ((key, v) :: kvs) r5
                                | ParseError => ParseError
                                | OutOfFuel => OutOfFuel
                                end
                              else ParseError
                          end
                        else ParseError
                    end
                | ParseError => ParseError
                | OutOfFuel => OutOfFuel
                end
              else ParseError
          end
      end
  end.

(** [json.loads(s)]: one value between optional white space, and nothing
    else; [None] is [JSONDecodeError].  The fuel is more than any input of
    this length needs ([parse_value_fuel]). *)
Definition json_loads (s : text) : option json :=
  match strip_prefix [0xFEFF] s with
  | Some _ => None
  | None =>
      let s' := skip_ws s in
      match parse_value (2 * List.length s' + 1) s' with
      | Parsed v r =>
          match skip_ws r with
          | [] => Some v
          | _ => None
          end
      | _ => None
      end
  end.

(** ** Sockets

    A socket object with what the operating system and the peer will do with
    it: [sock_send] is the outcome of each coming [sendall] call ([None]: the
    bytes are written; an exhausted script writes), [sock_recv] the outcome
    of each coming [recv] call (an exhausted script is a closed connection:
    [recv] returns no bytes).  [sock_sent] collects what has been written.
    The time-outs set with [settimeout] only decide when a [recv] gives up,
    which the script says. *)

Inductive recv_event : Type :=
| Data (chunk : bytes)      (* recv returns these bytes; none: the peer closed *)
| Timeout                   (* recv raises socket.timeout *)
| Failure (msg : text).     (* recv raises another OSError *)

Record sock : Type := {
  sock_send : list (option exn);
  sock_recv : list recv_event;
  sock_sent : bytes
}.

Definition set_sock_recv (evs : list recv_event) (sk : sock) : sock :=
  {| sock_send := sock_send sk; sock_recv := evs; sock_sent := sock_sent sk |}.

(** [sock.sendall(data)] *)
Definition sendall (data : bytes) (sk : sock) : option exn * sock :=
  match sock_send sk with
  | Some e :: rest =>
      (Some e, {| sock_send := rest; sock_recv := sock_recv sk;
                  sock_sent := sock_sent sk |})
  | None :: rest =>
      (None, {| sock_send := rest; sock_recv := sock_recv sk;
                sock_sent := sock_sent sk ++ data |})
  | [] =>
      (None, {| sock_send := []; sock_recv := sock_recv sk;
                sock_sent := sock_sent sk ++ data |})
  end.

(** ** [receive_full_response] (lines 102-159) *)

(** [isinstance(message, dict) and message.get("type") == "heartbeat"] *)
Definition is_heartbeat (message : json) : bool :=
  match message with
  | JObj d => eq_str (dict_get (txt "type") d) (txt "heartbeat")
  | _ => false
  end.

Inductive scan_result : Type :=
| Message (message : json)        (* return message *)
| NeedMore (buffer : text).       (* the inner loop ended: back to recv *)

(** The inner loop [while '\n' in buffer] (lines 115-135).  Every turn
    shortens the buffer, so [length buffer] turns are enough
    ([process_buffer_fuel]). *)
Fixpoint process_buffer (fuel : nat) (buffer : text) : scan_result :=
  match fuel with
  | O => NeedMore buffer
  | S fuel' =>
      match split_newline buffer with
      | None => NeedMore buffer
      | Some (raw_message, buffer') =>
          let raw_message := strip raw_message in
          if negb (text_truthy raw_message) then process_buffer fuel' buffer'
          else
            match json_loads raw_message with
            | None =>
                (* Put the data back and wait for more bytes *)
                NeedMore (raw_message
                          ++ (if text_truthy buffer' then NEWLINE :: buffer' else []))
            | Some message =>
                if is_heartbeat message then process_buffer fuel' buffer'
                else Message message
            end
      end
  end.

Definition connection_closed : exn :=
  Raise CException (txt "Connection closed before receiving a valid response").
Definition receive_timeout : exn :=
  Raise CException (txt "Timeout receiving Unreal response").

(** The last parse attempt on what is left in the buffer, after the
    connection closed (lines 138-146) or timed out (lines 149-156). *)
Definition last_attempt (buffer : text) (otherwise : exn) : json + exn :=
  if text_truthy (strip buffer) then
    match json_loads buffer with
    | Some message => inl message
    | None => inr otherwise
    end
  else inr otherwise.

(** The outer loop [while True] (lines 107-135) with what follows it, run on
    the coming [recv] outcomes: the result, and the outcomes not consumed. *)
Fixpoint recv_loop (buffer : text) (events : list recv_event)
  : (json + exn) * list recv_event :=
  match events with
  | [] => (last_attempt buffer connection_closed, [])
  | Data [] :: rest => (last_attempt buffer connection_closed, rest)
  | Data chunk :: rest =>
      match utf8_decode chunk with
      | None => (inr unicode_decode_error, rest)
      | Some t =>
          let buffer := buffer ++ t in
          match process_buffer (List.length buffer) buffer with
          | Message message => (inl message, rest)
          | NeedMore buffer' => recv_loop buffer' rest
          end
      end
  | Timeout :: rest => (last_attempt buffer receive_timeout, rest)
  | Failure msg :: rest => (inr (Raise COSError msg), rest)
  end.

Definition receive_full_response (sk : sock) : (json + exn) * sock :=
  let (r, rest) := recv_loop [] (sock_recv sk) in (r, set_sock_recv rest sk).

(** ** The session (lines 37-52) *)

(** A reading of [time.time()]. *)
Definition timestamp := Z.

Record thread : Type := { is_alive : bool }.

Record session : Type := {
  socket : option sock;
  connected : bool;
  lock : bool;                              (* whether the lock is held *)
  heartbeat_thread : option thread;
  heartbeat_stop : bool;                    (* the Event's flag *)
  heartbeat_interval : Z;                   (* seconds *)
  last_heartbeat : option timestamp;
  last_command : option text;
  last_command_time : option timestamp;
  last_command_result : json;
  last_command_error : json
}.

(** [UnrealConnection.__init__]; [interval] is what the environment
    configures. *)
Definition init (interval : Z) : session :=
  {| socket := None; connected := false; lock := false;
     heartbeat_thread := None; heartbeat_stop := false;
     heartbeat_interval := interval; last_heartbeat := None;
     last_command := None; last_command_time := None;
     last_command_result := JNull; last_command_error := JNull |}.

Definition set_socket (v : option sock) (s : session) : session :=
  {| socket := v; connected := connected s; lock := lock s;
     heartbeat_thread := heartbeat_thread s; heartbeat_stop := heartbeat_stop s;
     heartbeat_interval := heartbeat_interval s; last_heartbeat := last_heartbeat s;
     last_command := last_command s; last_command_time := last_command_time s;
     last_command_result := last_command_result s;
     last_command_error := last_command_error s |}.

Definition set_connected (v : bool) (s : session) : session :=
  {| socket := socket s; connected := v; lock := lock s;
     heartbeat_thread := heartbeat_thread s; heartbeat_stop := heartbeat_stop s;
     heartbeat_interval := heartbeat_interval s; last_heartbeat := last_heartbeat s;
     last_command := last_command s; last_command_time := last_command_time s;
     last_command_result := last_command_result s;
     last_command_error := last_command_error s |}.

Definition set_lock (v : bool) (s : session) : session :=
  {| socket := socket s; connected := connected s; lock := v;
     heartbeat_thread := heartbeat_thread s; heartbeat_stop := heartbeat_stop s;
     heartbeat_interval := heartbeat_interval s; last_heartbeat := last_heartbeat s;
     last_command := last_command s; last_command_time := last_command_time s;
     last_command_result := last_command_result s;
     last_command_error := last_command_error s |}.

Definition set_heartbeat (th : option thread) (stop : bool) (s : session) : session :=
  {| socket := socket s; connected := connected s; lock := lock s;
     heartbeat_thread := th; heartbeat_stop := stop;
     heartbeat_interval := heartbeat_interval s; last_heartbeat := last_heartbeat s;
     last_command := last_command s; last_command_time := last_command_time s;
     last_command_result := last_command_result s;
     last_command_error := last_command_error s |}.

Definition set_last_heartbeat (v : option timestamp) (s : session) : session :=
  {| socket := socket s; connected := connected s; lock := lock s;
     heartbeat_thread := heartbeat_thread s; heartbeat_stop := heartbeat_stop s;
     heartbeat_interval := heartbeat_interval s; last_heartbeat := v;
     last_command := last_command s; last_command_time := last_command_time s;
     last_command_result := last_command_result s;
     last_command_error := last_command_error s |}.

(** The four assignments that track a command (lines 186-189, 220-223). *)
Definition set_last_command (command : text) (time : timestamp)
           (result error : json) (s : session) : session :=
  {| socket := socket s; connected := connected s; lock := lock s;
     heartbeat_thread := heartbeat_thread s; heartbeat_stop := heartbeat_stop s;
     heartbeat_interval := heartbeat_interval s; last_heartbeat := last_heartbeat s;
     last_command := Some command; last_command_time := Some time;
     last_command_result := result; last_command_error := error |}.

Definition set_last_command_result (v : json) (s : session) : session :=
  {| socket := socket s; connected := connected s; lock := lock s;
     heartbeat_thread := heartbeat_thread s; heartbeat_stop := heartbeat_stop s;
     heartbeat_interval := heartbeat_interval s; last_heartbeat := last_heartbeat s;
     last_command := last_command s; last_command_time := last_command_time s;
     last_command_result := v; last_command_error := last_command_error s |}.

Definition set_last_command_error (v : json) (s : session) : session :=
  {| socket := socket s; connected := connected s; lock := lock s;
     heartbeat_thread := heartbeat_thread s; heartbeat_stop := heartbeat_stop s;
     heartbeat_interval := heartbeat_interval s; last_heartbeat := last_heartbeat s;
     last_command := last_command s; last_command_time := last_command_time s;
     last_command_result := last_command_result s; last_command_error := v |}.

(** How a method call ends: it returns a value, it raises, or it never
    returns because it waits for a lock its own thread holds. *)
Inductive outcome (A : Type) : Type :=
| Returns (a : A) (s : session)
| Raises (e : exn) (s : session)
| Blocked.
Arguments Returns {A} a s.
Arguments Raises {A} e s.
Arguments Blocked {A}.

(** [with self.lock: body] for the non-re-entrant [threading.Lock] of line
    44: the lock is released when the body returns or raises. *)
Definition with_lock {A : Type} (body : session -> outcome A) (s : session)
  : outcome A :=
  if lock s then Blocked
  else
    match body (set_lock true s) with
    | Returns a s' => Returns a (set_lock false s')
    | Raises e s' => Raises e (set_lock false s')
    | Blocked => Blocked
    end.

(** ** The heartbeat thread (lines 236-262) *)

(** [_start_heartbeat]; [thread_start] is what [Thread.start()] does ([None]:
    the thread runs). *)
Definition _start_heartbeat (thread_start : option exn) (s : session)
  : outcome unit :=
  if (heartbeat_interval s <=? 0)%Z then Returns tt s
  else
    match heartbeat_thread s with
    | Some {| is_alive := true |} => Returns tt s
    | _ =>
        match thread_start with
        | None => Returns tt (set_heartbeat (Some {| is_alive := true |}) false s)
        | Some e => Raises e (set_heartbeat (Some {| is_alive := false |}) false s)
        end
    end.

(** [_stop_heartbeat]; the [join] waits for at most two seconds. *)
Definition _stop_heartbeat (s : session) : session :=
  match heartbeat_thread s with
  | Some {| is_alive := true |} => set_heartbeat None true s
  | _ => set_heartbeat None (heartbeat_stop s) s
  end.

(** ** [connect] (lines 54-88) and [disconnect] (lines 90-100) *)

(** What a connect attempt meets. *)
Inductive connect_attempt : Type :=
| SocketFails (e : exn)
    (* socket.socket(...) raises: self.socket is not assigned *)
| SetupFails (sk : sock) (e : exn)
    (* the socket is created; settimeout, setsockopt or connect raises *)
| Connects (sk : sock) (thread_start : option exn).
    (* the connection is made; what starting the heartbeat thread does *)

Definition is_some {A : Type} (o : option A) : bool :=
  match o with Some _ => true | None => false end.

(** The body of [connect], inside [with self.lock]. *)
Definition connect_body (a : connect_attempt) (s : session) : outcome bool :=
  if connected s && is_some (socket s) then Returns true s
  else
    let attempt : outcome unit :=
      match a with
      | SocketFails e => Raises e s
      | SetupFails sk e => Raises e (set_socket (Some sk) s)
      | Connects sk thread_start =>
          _start_heartbeat thread_start
            (set_connected true (set_socket (Some sk) s))
      end in
    match attempt with
    | Returns _ s' => Returns true s'
    | Raises _ s' =>
        (* except Exception: the socket, if any, is closed and dropped *)
        Returns false (set_socket None (set_connected false s'))
    | Blocked => Blocked
    end.

Definition connect (a : connect_attempt) : session -> outcome bool :=
  with_lock (connect_body a).

Definition disconnect : session -> outcome unit :=
  with_lock (fun s =>
    Returns tt (set_connected false (set_socket None (_stop_heartbeat s)))).

(** ** [send_command] (lines 161-234) *)

Definition STATUS := txt "status".
Definition ERROR := txt "error".

(** The canonical error response [{"status": "error", "error": e}]. *)
Definition error_response (e : json) : json :=
  JObj [(STATUS, JStr ERROR); (ERROR, e)].

(** [response.get("error") or response.get("message", "Unknown Unreal error")] *)
Definition error_message_of (response : dict) : json :=
  py_or (dict_get ERROR response)
        (dict_get_default (txt "message") (JStr (txt "Unknown Unreal error")) response).

(** [encode]: the bytes written for a command (lines 171-179). *)
Definition command_json (command : text) (params : json) : text :=
  json_dumps (JObj [(txt "command", JStr command);
                    (txt "params", py_or params (JObj []))])
  ++ [NEWLINE].

(** The [try] block (lines 170-215).  [now] is the clock reading of line
    187.  When the response is tracked, [last_command_result] is the very
    [dict] that line 200 then updates. *)
Definition send_and_receive (command : text) (params : json) (track : bool)
           (now : timestamp) (s : session) : outcome json :=
  match socket s with
  | None => Raises (no_attribute JNull (txt "sendall")) s
  | Some sk =>
      match utf8_encode (command_json command params) with
      | None => Raises unicode_encode_error s
      | Some data =>
          match sendall data sk with
          | (Some e, sk1) => Raises e (set_socket (Some sk1) s)
          | (None, sk1) =>
              match receive_full_response sk1 with
              | (inr e, sk2) => Raises e (set_socket (Some sk2) s)
              | (inl response, sk2) =>
                  let s1 := set_socket (Some sk2) s in
                  let s2 := if track
                            then set_last_command command now response JNull s1
                            else s1 in
                  match response with
                  | JObj d =>
                      if eq_str (dict_get STATUS d) ERROR then
                        let error_message := error_message_of d in
                        let d' := if dict_contains ERROR d then d
                                  else dict_set ERROR error_message d in
                        Returns (JObj d')
                          (if track
                           then set_last_command_error error_message
                                  (set_last_command_result (JObj d') s2)
                           else s2)
                      else if is_False (dict_get (txt "success") d) then
                        let error_message := error_message_of d in
                        Returns (error_response error_message)
                          (if track
                           then set_last_command_error error_message s2
                           else s2)
                      else Returns response s2
                  | _ => Raises (no_attribute response (txt "get")) s2
                  end
              end
          end
      end
  end.

(** The handler [except Exception as e] (lines 217-234); [now] is the clock
    reading of line 221. *)
Definition on_exception (command : text) (track : bool) (now : timestamp)
           (e : exn) (s : session) : outcome json :=
  let s1 := if track
            then set_last_command command now JNull (JStr (exn_str e)) s
            else s in
  Returns (error_response (JStr (exn_str e)))
          (set_socket None (set_connected false s1)).

(** What one call meets: the connect attempt it may make, and its two clock
    readings. *)
Record env : Type := {
  env_connect : connect_attempt;
  env_time : timestamp;
  env_time_exc : timestamp
}.

(** [send_command], with the method it calls as [self.connect()] as an
    argument, so that what it does with that call's result can be stated
    apart from the call. *)
Definition send_command_with (connect_m : session -> outcome bool)
           (command : text) (params : json) (track : bool) (w : env)
  : session -> outcome json :=
  with_lock (fun s =>
    match (if negb (connected s) then connect_m s else Returns true s) with
    | Returns true s1 =>
        match send_and_receive command params track (env_time w) s1 with
        | Raises e s2 => on_exception command track (env_time_exc w) e s2
        | ended => ended
        end
    | Returns false s1 => Returns JNull s1
    | Raises e s1 => Raises e s1
    | Blocked => Blocked
    end).

Definition send_command (command : text) (params : json) (track : bool) (w : env)
  : session -> outcome json :=
  send_command_with (connect (env_connect w)) command params track w.

(** One turn of the heartbeat loop [_loop] (lines 246-253), after the wait
    ended without the stop signal; [now] is the clock reading of line 249. *)
Definition heartbeat_iteration (w : env) (now : timestamp) (s : session)
  : outcome unit :=
  match send_command (txt "ping") (JObj []) false w s with
  | Returns _ s' => Returns tt (set_last_heartbeat (Some now) s')
  | Raises _ s' => Returns tt (set_last_heartbeat None s')
  | Blocked => Blocked
  end.

(** The loop, run on the wake-ups of the thread. *)
Fixpoint _loop (wakeups : list (env * timestamp)) (s : session) : outcome unit :=
  match wakeups with
  | [] => Returns tt s
  | (w, now) :: rest =>
      if heartbeat_stop s then Returns tt s
      else
        match heartbeat_iteration w now s with
        | Returns _ s' => _loop rest s'
        | Raises e s' => Raises e s'
        | Blocked => Blocked
        end
  end.

(** * Properties *)

(** ** The session: lock, connect, disconnect *)

Definition diagnostics (s : session)
  : option text * option timestamp * json * json :=
  (last_command s, last_command_time s, last_command_result s,
   last_command_error s).

(** The invariant of the data model: the socket is there exactly when the
    session is connected. *)
Definition session_invariant (s : session) : Prop :=
  is_some (socket s) = connected s.

Lemma connect_body_never_blocks (a : connect_attempt) (s : session) :
  exists b s', connect_body a s = Returns b s'.
Proof.
  unfold connect_body.
  destruct (connected s && is_some (socket s)); [eauto|].
  destruct a as [e|sk e|sk [e|]]; simpl; eauto.
  - unfold _start_heartbeat; simpl.
    destruct (heartbeat_interval s <=? 0)%Z; [eauto|].
    destruct (heartbeat_thread s) as [[[|]]|]; eauto.
  - unfold _start_heartbeat; simpl.
    destruct (heartbeat_interval s <=? 0)%Z; [eauto|].
    destruct (heartbeat_thread s) as [[[|]]|]; eauto.
Qed.

Lemma connect_body_invariant (a : connect_attempt) (s : session) b s' :
  connect_body a s = Returns b s' ->
  is_some (socket s') = b /\ connected s' = b
  /\ lock s' = lock s /\ diagnostics s' = diagnostics s
  /\ last_heartbeat s' = last_heartbeat s.
Proof.
  unfold connect_body.
  destruct (connected s && is_some (socket s)) eqn:E.
  - intros [= <- <-]. apply andb_true_iff in E. tauto.
  - destruct a as [e|sk e|sk ts]; simpl.
    + intros [= <- <-]; simpl; auto.
    + intros [= <- <-]; simpl; auto.
    + unfold _start_heartbeat; simpl.
      destruct (heartbeat_interval s <=? 0)%Z.
      { intros [= <- <-]; simpl; auto. }
      destruct (heartbeat_thread s) as [[[|]]|], ts as [e|];
        intros [= <- <-]; simpl; auto.
Qed.

(** A session whose lock is free returns from [connect], with [True] exactly
    when it ends connected. *)
Lemma connect_returns (a : connect_attempt) (s : session) :
  lock s = false ->
  exists b s', connect a s = Returns b s'
               /\ is_some (socket s') = b /\ connected s' = b /\ lock s' = false.
Proof.
  intros L. unfold connect, with_lock. rewrite L.
  destruct (connect_body_never_blocks a (set_lock true s)) as (b & s' & E).
  rewrite E. exists b, (set_lock false s').
  apply connect_body_invariant in E. simpl. intuition.
Qed.

(** A thread that holds the lock never returns from [connect]: line 56
    acquires the lock again. *)
Lemma connect_blocks_when_locked (a : connect_attempt) (s : session) :
  lock s = true -> connect a s = Blocked.
Proof. intros L. unfold connect, with_lock. now rewrite L. Qed.

Lemma disconnect_returns (s : session) :
  lock s = false ->
  exists s', disconnect s = Returns tt s'
             /\ socket s' = None /\ connected s' = false /\ lock s' = false.
Proof.
  intros L. unfold disconnect, with_lock. rewrite L. simpl.
  eexists; split; [reflexivity|]. simpl. auto.
Qed.

(** ** [send_command] *)

(** What the body of [send_command] does on a connected session. *)
Definition exchange (command : text) (params : json) (track : bool) (w : env)
           (s : session) : outcome json :=
  match send_and_receive command params track (env_time w) s with
  | Raises e s2 => on_exception command track (env_time_exc w) e s2
  | ended => ended
  end.

Lemma send_command_with_connected connect_m command params track w s :
  lock s = false -> connected s = true ->
  send_command_with connect_m command params track w s =
  match exchange command params track w (set_lock true s) with
  | Returns r s' => Returns r (set_lock false s')
  | Raises e s' => Raises e (set_lock false s')
  | Blocked => Blocked
  end.
Proof.
  intros L C. unfold send_command_with, with_lock, exchange. rewrite L.
  simpl. rewrite C. simpl.
  destruct (send_and_receive command params track (env_time w) (set_lock true s));
    reflexivity.
Qed.

Lemma send_command_with_disconnected connect_m command params track w s :
  lock s = false -> connected s = false ->
  send_command_with connect_m command params track w s =
  match connect_m (set_lock true s) with
  | Returns true s1 =>
      match exchange command params track w s1 with
      | Returns r s' => Returns r (set_lock false s')
      | Raises e s' => Raises e (set_lock false s')
      | Blocked => Blocked
      end
  | Returns false s1 => Returns JNull (set_lock false s1)
  | Raises e s1 => Raises e (set_lock false s1)
  | Blocked => Blocked
  end.
Proof.
  intros L C. unfold send_command_with, with_lock, exchange. rewrite L.
  simpl. rewrite C. simpl.
  destruct (connect_m (set_lock true s)) as [[|] s1|e s1|]; reflexivity.
Qed.

(** On a disconnected session [send_command] calls [connect] while it holds
    the lock, and so never returns. *)
Lemma send_command_disconnected_blocks command params track w s :
  connected s = false -> send_command command params track w s = Blocked.
Proof.
  intros C. unfold send_command.
  destruct (lock s) eqn:L.
  - unfold send_command_with, with_lock. now rewrite L.
  - rewrite send_command_with_disconnected by assumption.
    now rewrite connect_blocks_when_locked.
Qed.

Lemma on_exception_spec command track now e s :
  exists s', on_exception command track now e s
             = Returns (error_response (JStr (exn_str e))) s'
             /\ connected s' = false /\ socket s' = None /\ lock s' = lock s
             /\ last_heartbeat s' = last_heartbeat s
             /\ diagnostics s' =
                if track
                then (Some command, Some now, JNull, JStr (exn_str e))
                else diagnostics s.
Proof.
  unfold on_exception. eexists; split; [reflexivity|].
  destruct track; simpl; auto.
Qed.

(** The [try] block changes the session in its socket and, when the command
    is tracked, in the diagnostic fields; nothing else. *)
Lemma send_and_receive_frame command params track now s :
  match send_and_receive command params track now s with
  | Returns r s' =>
      connected s' = connected s /\ lock s' = lock s
      /\ last_heartbeat s' = last_heartbeat s /\ is_some (socket s') = true
      /\ is_dict r = true
      /\ (track = false -> diagnostics s' = diagnostics s)
      /\ (track = true -> last_command s' = Some command
                          /\ last_command_time s' = Some now)
  | Raises e s' =>
      connected s' = connected s /\ lock s' = lock s
      /\ last_heartbeat s' = last_heartbeat s
      /\ (track = false -> diagnostics s' = diagnostics s)
  | Blocked => False
  end.
Proof.
  unfold send_and_receive.
  destruct (socket s) as [sk|]; [|simpl; auto].
  destruct (utf8_encode (command_json command params)) as [data|]; [|simpl; auto].
  destruct (sendall data sk) as [[e|] sk1]; [simpl; auto|].
  destruct (receive_full_response sk1) as [[response|e] sk2]; [|simpl; auto].
  destruct response as [ |b|z|f|t|items|d];
    try (destruct track; simpl; repeat split; auto; discriminate).
  destruct (eq_str (dict_get STATUS d) ERROR);
    [|destruct (is_False (dict_get (txt "success") d))];
    destruct track; simpl; repeat split; auto; discriminate.
Qed.

(** A connected session whose lock is free returns from [send_command]. *)
Lemma send_command_connected_returns command params track w s :
  lock s = false -> connected s = true ->
  exists r s', send_command command params track w s = Returns r s'
               /\ is_dict r = true /\ lock s' = false
               /\ is_some (socket s') = connected s'
               /\ last_heartbeat s' = last_heartbeat s.
Proof.
  intros L C. unfold send_command.
  rewrite send_command_with_connected by assumption. unfold exchange.
  pose proof (send_and_receive_frame command params track (env_time w)
                                     (set_lock true s)) as F.
  destruct (send_and_receive command params track (env_time w) (set_lock true s))
    as [r s1|e s1|]; [| |contradiction].
  - exists r, (set_lock false s1). simpl in F. simpl.
    destruct F as (F1 & F2 & F3 & F4 & F5 & _). rewrite F1, F4, C. auto.
  - destruct (on_exception_spec command track (env_time_exc w) e s1)
      as (s2 & E & E1 & E2 & E3 & E4 & _).
    rewrite E. exists (error_response (JStr (exn_str e))), (set_lock false s2).
    simpl. rewrite E1, E2. simpl in F. destruct F as (_ & _ & F3 & _).
    rewrite E4, F3. auto.
Qed.

(** [send_command] ends by returning or by blocking; it raises nothing. *)
Lemma send_command_never_raises command params track w s e s' :
  send_command command params track w s <> Raises e s'.
Proof.
  destruct (connected s) eqn:C.
  - destruct (lock s) eqn:L.
    + unfold send_command, send_command_with, with_lock. rewrite L. discriminate.
    + destruct (send_command_connected_returns command params track w s L C)
        as (r & s1 & E & _). rewrite E. discriminate.
  - rewrite send_command_disconnected_blocks by assumption. discriminate.
Qed.

(** The command is written and an answer is read: [reply] is what
    [receive_full_response] returns. *)
Definition answered (command : text) (params : json) (s : session)
           (reply : json) : Prop :=
  exists sk data sk1 sk2,
    socket s = Some sk
    /\ utf8_encode (command_json command params) = Some data
    /\ sendall data sk = (None, sk1)
    /\ receive_full_response sk1 = (inl reply, sk2).

(** An exception of the write ([sendall] raises) or of the read
    ([receive_full_response] raises). *)
Inductive transport_fault (command : text) (params : json) (sk : sock)
  : exn -> Prop :=
| write_fault (data : bytes) (e : exn) (sk1 : sock) :
    utf8_encode (command_json command params) = Some data ->
    sendall data sk = (Some e, sk1) ->
    transport_fault command params sk e
| read_fault (data : bytes) (e : exn) (sk1 sk2 : sock) :
    utf8_encode (command_json command params) = Some data ->
    sendall data sk = (None, sk1) ->
    receive_full_response sk1 = (inr e, sk2) ->
    transport_fault command params sk e.

Lemma transport_fault_raises command params track now s sk e :
  socket s = Some sk -> transport_fault command params sk e ->
  exists s', send_and_receive command params track now s = Raises e s'.
Proof.
  intros S F. unfold send_and_receive. rewrite S.
  destruct F as [data e sk1 E1 E2|data e sk1 sk2 E1 E2 E3];
    rewrite E1, E2; [|rewrite E3]; eauto.
Qed.

Lemma answered_response command params track now s reply :
  answered command params s reply ->
  exists sk2,
    send_and_receive command params track now s =
    let s1 := set_socket (Some sk2) s in
    let s2 := if track then set_last_command command now reply JNull s1 else s1 in
    match reply with
    | JObj d =>
        if eq_str (dict_get STATUS d) ERROR then
          let error_message := error_message_of d in
          let d' := if dict_contains ERROR d then d
                    else dict_set ERROR error_message d in
          Returns (JObj d')
                  (if track
                   then set_last_command_error error_message
                          (set_last_command_result (JObj d') s2)
                   else s2)
        else if is_False (dict_get (txt "success") d) then
          let error_message := error_message_of d in
          Returns (error_response error_message)
                  (if track then set_last_command_error error_message s2 else s2)
        else Returns reply s2
    | _ => Raises (no_attribute reply (txt "get")) s2
    end.
Proof.
  intros (sk & data & sk1 & sk2 & S & E1 & E2 & E3). exists sk2.
  unfold send_and_receive. rewrite S, E1, E2, E3. reflexivity.
Qed.

(** Example inputs: a refused connection, a session on a socket whose write
    fails, and one whose peer answers with the given chunks. *)
Definition refused : connect_attempt :=
  SocketFails (Raise COSError (txt "[Errno 111] Connection refused")).

Definition env0 : env :=
  {| env_connect := refused; env_time := 100%Z; env_time_exc := 101%Z |}.

Definition session_on (sk : sock) : session :=
  set_connected true (set_socket (Some sk) (init 25)).

Definition broken_pipe : sock :=
  {| sock_send := [Some (Raise COSError (txt "[Errno 32] Broken pipe"))];
     sock_recv := []; sock_sent := [] |}.

Definition bytes_of (t : text) : bytes := List.map byte_of_N t.

Definition peer_sends (chunks : list text) : sock :=
  {| sock_send := [];
     sock_recv := List.map (fun t => Data (bytes_of t)) chunks;
     sock_sent := [] |}.

(** *** C1 *)




(** *** C2 *)

(** C2: on a connected session, an exception of the write or of the read
    makes [send_command] return [{"status": "error", "error": str(e)}]; it
    raises nothing, and on return the session is disconnected and has no
    socket, so that the next call takes the branch that calls [connect]. *)
Theorem send_command_transport_fault :
  forall command params track w s sk e,
    lock s = false ->
    connected s = true ->
    socket s = Some sk ->
    transport_fault command params sk e ->
    exists s',
      send_command command params track w s
      = Returns (error_response (JStr (exn_str e))) s'
      /\ connected s' = false /\ socket s' = None /\ lock s' = false
      /\ forall connect_m command' params' track' w',
           send_command_with connect_m command' params' track' w' s'
           = match connect_m (set_lock true s') with
             | Returns true s1 =>
                 match exchange command' params' track' w' s1 with
                 | Returns r s2 => Returns r (set_lock false s2)
                 | Raises e' s2 => Raises e' (set_lock false s2)
                 | Blocked => Blocked
                 end
             | Returns false s1 => Returns JNull (set_lock false s1)
             | Raises e' s1 => Raises e' (set_lock false s1)
             | Blocked => Blocked
             end.
Proof.
  intros command params track w s sk e L C S F.
  unfold send_command. rewrite send_command_with_connected by assumption.
  unfold exchange.
  destruct (transport_fault_raises command params track (env_time w)
              (set_lock true s) sk e S F) as (s1 & E).
  rewrite E.
  destruct (on_exception_spec command track (env_time_exc w) e s1)
    as (s2 & E2 & C2 & S2 & L2 & _).
  rewrite E2. exists (set_lock false s2). simpl. repeat split; auto.
  intros. apply send_command_with_disconnected; auto.
Qed.

Lemma send_command_transport_fault_witness :
  exists s',
    send_command (txt "spawn_actor") (JObj []) true env0 (session_on broken_pipe)
    = Returns (error_response (JStr (txt "[Errno 32] Broken pipe"))) s'
    /\ connected s' = false /\ socket s' = None /\ lock s' = false
    /\ forall connect_m command' params' track' w',
         send_command_with connect_m command' params' track' w' s'
         = match connect_m (set_lock true s') with
           | Returns true s1 =>
               match exchange command' params' track' w' s1 with
               | Returns r s2 => Returns r (set_lock false s2)
               | Raises e' s2 => Raises e' (set_lock false s2)
               | Blocked => Blocked
               end
           | Returns false s1 => Returns JNull (set_lock false s1)
           | Raises e' s1 => Raises e' (set_lock false s1)
           | Blocked => Blocked
           end.
Proof.
  apply (send_command_transport_fault (txt "spawn_actor") (JObj []) true env0
           (session_on broken_pipe) broken_pipe
           (Raise COSError (txt "[Errno 32] Broken pipe")));
    try reflexivity.
  eapply write_fault; reflexivity.
Defined.

(** *** Error replies, as decoded *)

Definition error_reply_a (x : text) : json :=
  JObj [(STATUS, JStr ERROR); (ERROR, JStr x)].

Definition error_reply_b (x : text) : json :=
  JObj [(txt "success", JBool false); (txt "message", JStr x)].

(** The two error shapes, as the value [receive_full_response] returns. *)
Lemma error_shapes_converge_answered :
  forall x command params track w s reply,
    lock s = false ->
    connected s = true ->
    answered command params s reply ->
    reply = error_reply_a x \/ reply = error_reply_b x ->
    exists s',
      send_command command params track w s
      = Returns (error_response (JStr x)) s'
      /\ connected s' = true.
Proof.
  intros x command params track w s reply L C A H.
  unfold send_command. rewrite send_command_with_connected by assumption.
  unfold exchange.
  assert (A' : answered command params (set_lock true s) reply) by exact A.
  destruct (answered_response command params track (env_time w) _ reply A')
    as (sk2 & E).
  rewrite E. clear E.
  destruct H as [-> | ->].
  - eexists. split; [reflexivity|]. destruct track; simpl; assumption.
  - assert (M : error_message_of [(txt "success", JBool false);
                                  (txt "message", JStr x)] = JStr x)
      by reflexivity.
    cbv zeta. unfold error_reply_b.
    change (eq_str (dict_get STATUS [(txt "success", JBool false);
                                     (txt "message", JStr x)]) ERROR)
      with false.
    change (is_False (dict_get (txt "success")
                               [(txt "success", JBool false);
                                (txt "message", JStr x)]))
      with true.
    cbv iota. rewrite M.
    eexists. split; [reflexivity|]. destruct track; simpl; assumption.
Qed.

(** *** C7 *)

(** The operations on a session: the three methods, and one turn of the
    heartbeat loop. *)
Inductive operation : Type :=
| Connect (a : connect_attempt)
| Disconnect
| SendCommand (command : text) (params : json) (track : bool) (w : env)
| HeartbeatTurn (w : env) (now : timestamp).

Definition forget {A : Type} (o : outcome A) : outcome unit :=
  match o with
  | Returns _ s => Returns tt s
  | Raises e s => Raises e s
  | Blocked => Blocked
  end.

Definition run (op : operation) (s : session) : outcome unit :=
  match op with
  | Connect a => forget (connect a s)
  | Disconnect => disconnect s
  | SendCommand command params track w =>
      forget (send_command command params track w s)
  | HeartbeatTurn w now => heartbeat_iteration w now s
  end.

(** Whether an operation goes through [send_command]. *)
Definition sends (op : operation) : bool :=
  match op with
  | SendCommand _ _ _ _ | HeartbeatTurn _ _ => true
  | _ => false
  end.

(** C7: the invariant "the socket is non-null if and only if connected is
    true" holds in the initial state, and every operation started with the
    lock free on a session that satisfies it returns (without raising) in a
    state that satisfies it: [connect] whether it succeeds or fails,
    [disconnect], and [send_command] on its success and error paths.  The
    one call that does not return is a [send_command] on a disconnected
    session. *)
Theorem session_invariant_preserved :
  forall interval op s,
    session_invariant (init interval)
    /\ (session_invariant s ->
        lock s = false ->
        match run op s with
        | Returns _ s' => session_invariant s' /\ lock s' = false
        | Raises _ _ => False
        | Blocked => sends op = true /\ connected s = false
        end).
Proof.
  intros interval op s. split; [reflexivity|]. intros I L.
  destruct op as [a| |command params track w|w now]; simpl.
  - destruct (connect_returns a s L) as (b & s' & E & E1 & E2 & E3).
    rewrite E. simpl. unfold session_invariant. now rewrite E1, E2.
  - destruct (disconnect_returns s L) as (s' & E & E1 & E2 & E3).
    rewrite E. unfold session_invariant. now rewrite E1, E2.
  - destruct (connected s) eqn:C.
    + destruct (send_command_connected_returns command params track w s L C)
        as (r & s' & E & _ & E1 & E2 & _).
      rewrite E. simpl. auto.
    + rewrite send_command_disconnected_blocks by assumption. simpl. auto.
  - unfold heartbeat_iteration. destruct (connected s) eqn:C.
    + destruct (send_command_connected_returns (txt "ping") (JObj []) false w s L C)
        as (r & s' & E & _ & E1 & E2 & _).
      rewrite E. simpl. auto.
    + rewrite send_command_disconnected_blocks by assumption. auto.
Qed.

Lemma session_invariant_preserved_witness :
  session_invariant (init 25)
  /\ match run (SendCommand (txt "spawn_actor") (JObj []) true env0)
               (session_on broken_pipe) with
     | Returns _ s' => session_invariant s' /\ lock s' = false
     | Raises _ _ => False
     | Blocked => sends (SendCommand (txt "spawn_actor") (JObj []) true env0) = true
                  /\ connected (session_on broken_pipe) = false
     end.
Proof.
  destruct (session_invariant_preserved 25
              (SendCommand (txt "spawn_actor") (JObj []) true env0)
              (session_on broken_pipe)) as [H1 H2].
  split; [exact H1 | apply H2; reflexivity].
Defined.

(** *** C8 *)

(** One turn of the heartbeat loop on a connected session records the clock
    reading in [last_heartbeat], whatever became of the ping:
    [send_command] returns the error response of a failed ping instead of
    raising, so the handler of line 251 that clears the field never runs. *)
Lemma heartbeat_turn_records_timestamp w now s :
  lock s = false -> connected s = true ->
  exists s', heartbeat_iteration w now s = Returns tt s'
             /\ last_heartbeat s' = Some now.
Proof.
  intros L C. unfold heartbeat_iteration.
  destruct (send_command_connected_returns (txt "ping") (JObj []) false w s L C)
    as (r & s' & E & _).
  rewrite E. eexists. split; reflexivity.
Qed.

(** C8, at a concrete input.  The session is connected and the write of the
    ping fails: [send_command] returns the error response and leaves the
    session disconnected, and the turn of the heartbeat loop records the
    time stamp 7 in [last_heartbeat] instead of clearing it. *)
Theorem heartbeat_failed_ping_keeps_timestamp :
  send_command (txt "ping") (JObj []) false env0 (session_on broken_pipe)
  = Returns (error_response (JStr (txt "[Errno 32] Broken pipe")))
            (init 25)
  /\ heartbeat_iteration env0 7%Z (session_on broken_pipe)
     = Returns tt (set_last_heartbeat (Some 7%Z) (init 25)).
Proof. split; reflexivity. Qed.

(** *** C9 *)

Lemma text_eqb_eq (a b : text) : text_eqb a b = true <-> a = b.
Proof.
  unfold text_eqb. destruct (list_eq_dec N.eq_dec a b); split; congruence.
Qed.

Lemma text_eqb_refl (a : text) : text_eqb a a = true.
Proof. now apply text_eqb_eq. Qed.

Lemma text_eqb_neq (a b : text) : a <> b -> text_eqb a b = false.
Proof.
  intros H. destruct (text_eqb a b) eqn:E; [|reflexivity].
  apply text_eqb_eq in E. contradiction.
Qed.

Lemma dict_get_default_absent k dflt d :
  dict_contains k d = false -> dict_get_default k dflt d = dflt.
Proof.
  induction d as [|[k' v] d IH]; simpl; [reflexivity|].
  intros H. apply orb_false_iff in H. destruct H as [H1 H2].
  rewrite H1. auto.
Qed.

Lemma dict_get_default_set k k' v dflt d :
  dict_get_default k dflt (dict_set k' v d)
  = if text_eqb k k' then v else dict_get_default k dflt d.
Proof.
  induction d as [|[k0 v0] d IH]; simpl.
  - destruct (text_eqb k k'); reflexivity.
  - destruct (text_eqb k' k0) eqn:E0; simpl.
    + apply text_eqb_eq in E0. subst k0.
      destruct (text_eqb k k'); reflexivity.
    + destruct (text_eqb k k0) eqn:E1; [|exact IH].
      apply text_eqb_eq in E1. subst k0.
      destruct (text_eqb k k') eqn:E2; [|reflexivity].
      apply text_eqb_eq in E2. subst k'. rewrite text_eqb_refl in E0.
      discriminate.
Qed.

(** Line 200 adds to the response the error message that line 196 read
    from it: read again from the updated response, it is the same. *)
Lemma error_message_of_annotated d :
  dict_contains ERROR d = false ->
  let d' := dict_set ERROR (error_message_of d) d in
  error_message_of d' = error_message_of d
  /\ dict_get STATUS d' = dict_get STATUS d.
Proof.
  intros H d'. subst d'. unfold error_message_of, dict_get.
  rewrite !dict_get_default_set.
  rewrite (dict_get_default_absent ERROR JNull d H).
  change (text_eqb ERROR ERROR) with true.
  change (text_eqb (txt "message") ERROR) with false.
  change (text_eqb STATUS ERROR) with false.
  unfold py_or at 2 3. simpl truthy. cbv iota.
  split; [|reflexivity].
  unfold py_or.
  destruct (truthy (dict_get_default (txt "message")
                      (JStr (txt "Unknown Unreal error")) d)); reflexivity.
Qed.

(** What a tracked call leaves in [last_command_result] and
    [last_command_error], given the response [r] it returns. *)
Definition tracked (r : json) (s' : session) : Prop :=
  (* an answer that reports no error *)
  (last_command_result s' = r /\ last_command_error s' = JNull)
  (* an answer with status "error": the returned dict itself *)
  \/ (last_command_result s' = r
      /\ exists d, r = JObj d /\ eq_str (dict_get STATUS d) ERROR = true
                   /\ last_command_error s' = error_message_of d)
  (* an answer with success false: the answer as received *)
  \/ (exists d, last_command_result s' = JObj d
                /\ is_False (dict_get (txt "success") d) = true
                /\ r = error_response (error_message_of d)
                /\ last_command_error s' = error_message_of d)
  (* an exception *)
  \/ (last_command_result s' = JNull
      /\ exists msg, r = error_response (JStr msg)
                     /\ last_command_error s' = JStr msg).

Lemma exchange_tracking command params track w s :
  match exchange command params track w s with
  | Returns r s' =>
      if track
      then last_command s' = Some command
           /\ (last_command_time s' = Some (env_time w)
               \/ last_command_time s' = Some (env_time_exc w))
           /\ tracked r s'
      else diagnostics s' = diagnostics s
  | Raises _ _ => False
  | Blocked => False
  end.
Proof.
  unfold exchange, send_and_receive.
  destruct (socket s) as [sk|];
    [|destruct track; simpl; unfold tracked; intuition eauto 6].
  destruct (utf8_encode (command_json command params)) as [data|];
    [|destruct track; simpl; unfold tracked; intuition eauto 6].
  destruct (sendall data sk) as [[e|] sk1];
    [destruct track; simpl; unfold tracked; intuition eauto 6|].
  destruct (receive_full_response sk1) as [[response|e] sk2];
    [|destruct track; simpl; unfold tracked; intuition eauto 6].
  destruct response as [ |b|z|f|t|items|d];
    try solve [destruct track; simpl; unfold tracked; intuition eauto 6].
  destruct (eq_str (dict_get STATUS d) ERROR) eqn:E1;
    [|destruct (is_False (dict_get (txt "success") d)) eqn:E2].
  - destruct track; [|reflexivity]. simpl.
    split; [reflexivity|]. split; [auto|].
    right; left. split; [reflexivity|].
    destruct (dict_contains ERROR d) eqn:E3;
      [exists d; split; [reflexivity|]; split; [assumption|reflexivity]|].
    destruct (error_message_of_annotated d E3) as [A1 A2].
    eexists. split; [reflexivity|]. rewrite A1, A2. split; [assumption|reflexivity].
  - destruct track; [|reflexivity]. simpl.
    split; [reflexivity|]. split; [auto|].
    right; right; left. exists d. repeat split; assumption.
  - destruct track; [|reflexivity]. simpl.
    split; [reflexivity|]. split; [auto|]. left. auto.
Qed.

(** C9: a [send_command] call with [track=False] leaves the four
    diagnostic fields (last command, its time, its result, its error) as
    they were, on every path on which it returns; a call with [track=True]
    sets them: the command name, a clock reading of this call, and the
    result and error of this exchange.  A connected session whose lock is
    free returns from the call. *)
Theorem send_command_tracking :
  forall command params track w s,
    (lock s = false -> connected s = true ->
     exists r s', send_command command params track w s = Returns r s')
    /\ (forall r s',
          send_command command params track w s = Returns r s' ->
          if track
          then last_command s' = Some command
               /\ (last_command_time s' = Some (env_time w)
                   \/ last_command_time s' = Some (env_time_exc w))
               /\ tracked r s'
          else diagnostics s' = diagnostics s).
Proof.
  intros command params track w s. split.
  - intros L C.
    destruct (send_command_connected_returns command params track w s L C)
      as (r & s' & E & _). eauto.
  - intros r s' E.
    destruct (connected s) eqn:C;
      [|rewrite send_command_disconnected_blocks in E by assumption;
        discriminate].
    destruct (lock s) eqn:L.
    { unfold send_command, send_command_with, with_lock in E.
      rewrite L in E. discriminate. }
    unfold send_command in E.
    rewrite send_command_with_connected in E by assumption.
    pose proof (exchange_tracking command params track w (set_lock true s)) as T.
    destruct (exchange command params track w (set_lock true s))
      as [r1 s1|e s1|]; [|contradiction|contradiction].
    injection E as <- <-.
    destruct track; exact T.
Qed.

Lemma send_command_tracking_witness :
  (exists r s',
      send_command (txt "spawn_actor") (JObj []) false env0
                   (session_on broken_pipe) = Returns r s')
  /\ diagnostics (init 25) = diagnostics (session_on broken_pipe).
Proof.
  destruct (send_command_tracking (txt "spawn_actor") (JObj []) false env0
              (session_on broken_pipe)) as [H1 H2].
  split.
  - apply H1; reflexivity.
  - apply (H2 (error_response (JStr (txt "[Errno 32] Broken pipe"))) (init 25)).
    reflexivity.
Defined.

(** *** Replies that are no mapping, as decoded *)

(** A reply that is no mapping, as the value [receive_full_response]
    returns. *)
Lemma non_mapping_reply_answered :
  forall command params track w s reply,
    lock s = false ->
    connected s = true ->
    answered command params s reply ->
    is_dict reply = false ->
    exists s',
      send_command command params track w s
      = Returns (error_response
                   (JStr ([39] ++ type_name reply
                          ++ txt "' object has no attribute 'get'"))) s'
      /\ connected s' = false /\ socket s' = None.
Proof.
  intros command params track w s reply L C A D.
  unfold send_command. rewrite send_command_with_connected by assumption.
  unfold exchange.
  assert (A' : answered command params (set_lock true s) reply) by exact A.
  destruct (answered_response command params track (env_time w) _ reply A')
    as (sk2 & E).
  rewrite E. clear E.
  destruct reply as [ |b|z|f|t|items|d]; try discriminate;
    cbv beta iota zeta;
    match goal with
    | |- context [on_exception ?c ?t ?n ?e ?s0] =>
        destruct (on_exception_spec c t n e s0) as (s2 & E2 & C2 & S2 & _)
    end;
    rewrite E2; exists (set_lock false s2); simpl; auto.
Qed.

(** ** The receive loop on framed replies *)

Lemma split_newline_some t a b :
  split_newline t = Some (a, b) -> t = a ++ NEWLINE :: b /\ ~ In NEWLINE a.
Proof.
  revert a b. induction t as [|c t IH]; simpl; [discriminate|].
  intros a b. destruct (N.eqb_spec c NEWLINE) as [->|N].
  - intros [= <- <-]. simpl. auto.
  - destruct (split_newline t) as [[a' b']|]; [|discriminate].
    intros [= <- <-]. destruct (IH a' b' eq_refl) as [-> H].
    simpl. split; [reflexivity|]. intros [E|E]; [congruence|contradiction].
Qed.

Lemma split_newline_none t : split_newline t = None -> ~ In NEWLINE t.
Proof.
  induction t as [|c t IH]; simpl; [tauto|].
  destruct (N.eqb_spec c NEWLINE) as [->|N]; [discriminate|].
  destruct (split_newline t) as [[a b]|]; [discriminate|].
  intros _ [E|E]; [congruence|]. now apply IH.
Qed.

Lemma split_newline_app a b :
  ~ In NEWLINE a -> split_newline (a ++ NEWLINE :: b) = Some (a, b).
Proof.
  induction a as [|c a IH]; simpl; [reflexivity|].
  intros H. destruct (N.eqb_spec c NEWLINE) as [->|N]; [tauto|].
  rewrite IH by tauto. reflexivity.
Qed.

Lemma json_loads_nil : json_loads [] = None.
Proof. reflexivity. Qed.

(** A line the receive loop discards: a heartbeat message. *)
Definition heartbeat_line (h : text) : Prop :=
  ~ In NEWLINE h
  /\ exists v, json_loads (strip h) = Some v /\ is_heartbeat v = true.

(** A line the receive loop returns as [message]. *)
Definition reply_line (l : text) (message : json) : Prop :=
  ~ In NEWLINE l
  /\ json_loads (strip l) = Some message /\ is_heartbeat message = false.

(** The heartbeat lines [hs] and then the line [l], each ended by a
    newline. *)
Definition framed (hs : list text) (l : text) : text :=
  List.flat_map (fun h => h ++ [NEWLINE]) hs ++ l ++ [NEWLINE].

(** The coming [recv] calls return non-empty chunks of well-formed UTF-8
    that together spell [t]; what comes after them is free. *)
Inductive arrives : list recv_event -> text -> Prop :=
| arrives_end (events : list recv_event) : arrives events []
| arrives_chunk (chunk : bytes) (t rest_text : text)
                (events : list recv_event) :
    chunk <> [] ->
    utf8_decode chunk = Some t ->
    arrives events rest_text ->
    arrives (Data chunk :: events) (t ++ rest_text).

Lemma text_truthy_false t : text_truthy t = false -> t = [].
Proof. destruct t; [reflexivity|discriminate]. Qed.

Section Framed.

Variables (l : text) (message : json) (extra : text).
Hypothesis reply : reply_line l message.

Lemma framed_has_newline hs : In NEWLINE (framed hs l ++ extra).
Proof.
  unfold framed. rewrite !in_app_iff. left. right. simpl. auto.
Qed.

(** The inner loop on a buffer that is a prefix of the framed text:
    either the reply line is complete and is returned, or the loop asks
    for more with the buffer cut down to the line in progress. *)
Lemma process_buffer_framed hs :
  Forall heartbeat_line hs ->
  forall fuel buffer coming,
    buffer ++ coming = framed hs l ++ extra ->
    (List.length buffer <= fuel)%nat ->
    process_buffer fuel buffer = Message message
    \/ exists buffer' hs',
        process_buffer fuel buffer = NeedMore buffer'
        /\ ~ In NEWLINE buffer'
        /\ Forall heartbeat_line hs'
        /\ buffer' ++ coming = framed hs' l ++ extra.
Proof.
  destruct reply as (Rn & Rl & Rh).
  induction 1 as [|h hs (Hn & v & Hl & Hh) HF IH]; intros fuel buffer coming E F.
  - destruct (split_newline buffer) as [[a b]|] eqn:S.
    + apply split_newline_some in S. destruct S as [-> Na].
      destruct fuel as [|fuel];
        [rewrite length_app in F; simpl in F; lia|].
      left. simpl. rewrite (split_newline_app a b Na).
      unfold framed in E. simpl in E. rewrite <- !app_assoc in E. simpl in E.
      assert (a = l).
      { clear - E Na Rn. revert l E Rn.
        induction a as [|c a IH]; intros [|c' l']; simpl; intros E Rn.
        - reflexivity.
        - injection E as E1 E2. subst c'. tauto.
        - injection E as E1 E2. subst c. simpl in Na. tauto.
        - injection E as E1 E2. subst c'. f_equal.
          apply IH; [simpl in Na; tauto|assumption|tauto]. }
      subst a. rewrite Rl.
      destruct (text_truthy (strip l)) eqn:T.
      * simpl. now rewrite Rh.
      * apply text_truthy_false in T. rewrite T, json_loads_nil in Rl.
        discriminate.
    + right. exists buffer, []. repeat split.
      * destruct fuel; simpl; [reflexivity|now rewrite S].
      * now apply split_newline_none.
      * constructor.
      * assumption.
  - destruct (split_newline buffer) as [[a b]|] eqn:S.
    + apply split_newline_some in S. destruct S as [-> Na].
      destruct fuel as [|fuel];
        [rewrite length_app in F; simpl in F; lia|].
      simpl. rewrite (split_newline_app a b Na).
      unfold framed in E. simpl in E. rewrite <- !app_assoc in E. simpl in E.
      assert (a = h /\ b ++ coming = framed hs l ++ extra) as [-> E'].
      { unfold framed. rewrite <- !app_assoc. simpl.
        clear - E Na Hn. revert h E Hn.
        induction a as [|c a IH]; intros [|c' h']; simpl; intros E Hn.
        - injection E as E. auto.
        - injection E as E1 E2. subst c'. tauto.
        - injection E as E1 E2. subst c. simpl in Na. tauto.
        - injection E as E1 E2. subst c'.
          destruct (IH (fun H => Na (or_intror H)) h' E2
                       (fun H => Hn (or_intror H))) as [-> E3].
          auto. }
      assert (F' : (List.length b <= fuel)%nat)
        by (rewrite length_app in F; simpl in F; lia).
      rewrite Hl, Hh.
      destruct (negb (text_truthy (strip h))); apply IH; assumption.
    + right. exists buffer, (h :: hs). repeat split.
      * destruct fuel; simpl; [reflexivity|now rewrite S].
      * now apply split_newline_none.
      * constructor; [split; eauto|assumption].
      * assumption.
Qed.

(** Heartbeat lines and then the reply line, arriving in chunks cut
    anywhere: the receive loop returns the reply. *)
Lemma recv_loop_framed events t :
  arrives events t ->
  forall buffer hs,
    ~ In NEWLINE buffer ->
    Forall heartbeat_line hs ->
    buffer ++ t = framed hs l ++ extra ->
    exists rest, recv_loop buffer events = (inl message, rest).
Proof.
  induction 1 as [events|chunk t rest_text events Hc Hd Ha IH];
    intros buffer hs Nb Hh E.
  - rewrite app_nil_r in E. subst buffer.
    destruct (Nb (framed_has_newline hs)).
  - destruct chunk as [|b0 chunk]; [congruence|].
    cbn [recv_loop]. rewrite Hd.
    rewrite app_assoc in E.
    destruct (process_buffer_framed hs Hh (List.length (buffer ++ t))
                (buffer ++ t) rest_text E (le_n _))
      as [P|(buffer' & hs' & P & Nb' & Hh' & E')]; rewrite P.
    + eauto.
    + eapply IH; eassumption.
Qed.

End Framed.

(** ** [json.loads] reads back what [json.dumps] writes *)

Ltac Zify.zify_post_hook ::= Z.to_euclidean_division_equations.

#[local] Arguments N.add : simpl never.
#[local] Arguments N.sub : simpl never.
#[local] Arguments N.mul : simpl never.
#[local] Arguments N.div : simpl never.
#[local] Arguments N.modulo : simpl never.
#[local] Arguments N.eqb : simpl never.
#[local] Arguments N.leb : simpl never.
#[local] Arguments N.ltb : simpl never.

(** Case analysis on the comparisons of code points in the goal. *)
Ltac tests :=
  repeat match goal with
         | |- context [N.eqb ?a ?b] => destruct (N.eqb_spec a b); try lia
         | |- context [N.leb ?a ?b] => destruct (N.leb_spec a b); try lia
         | |- context [N.ltb ?a ?b] => destruct (N.ltb_spec a b); try lia
         end;
  cbv beta iota delta [andb orb negb].

Lemma hex_value_digit d : d < 16 -> hex_value (hex_digit d) = Some d.
Proof.
  intros H. unfold hex_digit, hex_value, in_range.
  destruct (N.ltb_spec d 10); tests; simpl; f_equal; lia.
Qed.

Lemma decode_hex4_hex4 n :
  n < 65536 ->
  decode_hex4 (hex_digit ((n / 4096) mod 16)) (hex_digit ((n / 256) mod 16))
              (hex_digit ((n / 16) mod 16)) (hex_digit (n mod 16))
  = Some n.
Proof.
  intros H. unfold decode_hex4.
  rewrite !hex_value_digit by (apply N.mod_lt; lia).
  f_equal. lia.
Qed.

Ltac chars := unfold QUOTE, BACKSLASH, NEWLINE in *.

Lemma is_scalar_spec c :
  is_scalar c = true -> c < 0x110000 /\ (c < 0xD800 \/ 0xDFFF < c).
Proof.
  unfold is_scalar, is_surrogate. tests; intros; try discriminate; lia.
Qed.

Lemma scanstring_u_escape n X :
  n < 65536 -> is_high_surrogate n = false ->
  scanstring (u_escape n ++ X) = option_cons_fst n (scanstring X).
Proof.
  intros H S. unfold u_escape, hex4. cbn [app scanstring]. chars. tests.
  rewrite decode_hex4_hex4 by assumption. rewrite S. reflexivity.
Qed.

Lemma scanstring_u_escape_pair hi lo X :
  is_high_surrogate hi = true -> is_low_surrogate lo = true ->
  scanstring (u_escape hi ++ u_escape lo ++ X)
  = option_cons_fst (join_surrogates hi lo) (scanstring X).
Proof.
  intros H L. unfold u_escape, hex4. cbn [app scanstring]. chars. tests.
  assert (hi < 65536 /\ lo < 65536) as [Hh Hl].
  { revert H L. unfold is_high_surrogate, is_low_surrogate. tests;
      intros; try discriminate; lia. }
  rewrite !decode_hex4_hex4 by assumption. rewrite H, L. reflexivity.
Qed.

(** What [json.dumps] writes for one character, [scanstring] reads as that
    character. *)
Lemma scanstring_escape_char c X :
  is_scalar c = true ->
  scanstring (escape_char c ++ X) = option_cons_fst c (scanstring X).
Proof.
  intros S. apply is_scalar_spec in S. destruct S as [S1 S2].
  unfold escape_char, in_range. chars.
  destruct (N.eqb_spec c 34); [subst; reflexivity|].
  destruct (N.eqb_spec c 92); [subst; reflexivity|].
  destruct (N.eqb_spec c 10); [subst; reflexivity|].
  destruct (N.eqb_spec c 13); [subst; reflexivity|].
  destruct (N.eqb_spec c 9); [subst; reflexivity|].
  destruct (N.eqb_spec c 8); [subst; reflexivity|].
  destruct (N.eqb_spec c 12); [subst; reflexivity|].
  destruct (N.leb_spec 32 c); [destruct (N.leb_spec c 126)|];
    cbv beta iota delta [andb].
  - cbn [app scanstring]. chars. tests. reflexivity.
  - destruct (N.ltb_spec c 65536).
    + apply scanstring_u_escape; [assumption|].
      unfold is_high_surrogate. tests; reflexivity.
    + rewrite <- app_assoc. rewrite scanstring_u_escape_pair.
      * f_equal. unfold join_surrogates. lia.
      * unfold is_high_surrogate. tests; reflexivity.
      * unfold is_low_surrogate. tests; reflexivity.
  - destruct (N.ltb_spec c 65536); [|lia].
    apply scanstring_u_escape; [assumption|].
    unfold is_high_surrogate. tests; reflexivity.
Qed.

Lemma scanstring_escape t X :
  forallb is_scalar t = true ->
  scanstring (List.flat_map escape_char t ++ QUOTE :: X) = Some (t, X).
Proof.
  induction t as [|c t IH]; intros S.
  - reflexivity.
  - simpl in S. apply andb_true_iff in S. destruct S as [Sc St].
    cbn [flat_map]. rewrite <- app_assoc.
    rewrite scanstring_escape_char by assumption.
    rewrite IH by assumption. reflexivity.
Qed.

(** Numbers. *)

Definition number_char (c : codepoint) : bool :=
  is_digit c || (c =? 43) || (c =? 45) || (c =? 46) || (c =? 69) || (c =? 101).

(** What may follow a number: nothing, or a character no number holds. *)
Definition delimited (rest : text) : bool :=
  match rest with
  | [] => true
  | c :: _ => negb (number_char c)
  end.

Lemma delimited_head c rest :
  delimited (c :: rest) = true ->
  is_digit c = false /\ c <> 43 /\ c <> 45 /\ c <> 46 /\ c <> 69 /\ c <> 101.
Proof.
  unfold delimited, number_char.
  destruct (is_digit c); [discriminate|].
  tests; intros; try discriminate; repeat split; assumption.
Qed.

Lemma take_digits_app s rest :
  delimited rest = true ->
  take_digits (s ++ rest)
  = (fst (take_digits s), snd (take_digits s) ++ rest).
Proof.
  intros D. induction s as [|c s IH].
  - destruct rest as [|c rest]; [reflexivity|].
    apply delimited_head in D. destruct D as [D _].
    cbn [app take_digits]. now rewrite D.
  - cbn [app take_digits]. destruct (is_digit c); [|reflexivity].
    rewrite IH. destruct (take_digits s). reflexivity.
Qed.

Lemma lex_sign_app s rest :
  delimited rest = true ->
  lex_sign (s ++ rest) = (fst (lex_sign s), snd (lex_sign s) ++ rest).
Proof.
  intros D. destruct s as [|c s]; cbn [app lex_sign].
  - destruct rest as [|c rest]; [reflexivity|].
    apply delimited_head in D. cbn [lex_sign]. tests. reflexivity.
  - destruct (c =? 45); reflexivity.
Qed.

Lemma lex_integer_app s rest i r :
  lex_integer s = Some (i, r) ->
  delimited rest = true ->
  lex_integer (s ++ rest) = Some (i, r ++ rest).
Proof.
  intros E D. destruct s as [|c s]; [discriminate|].
  cbn [app lex_integer] in *.
  destruct (in_range 49 57 c).
  - rewrite (take_digits_app s rest D). destruct (take_digits s).
    injection E as <- <-. reflexivity.
  - destruct (c =? 48); [|discriminate]. injection E as <- <-. reflexivity.
Qed.

Lemma lex_fraction_app s rest :
  delimited rest = true ->
  lex_fraction (s ++ rest) = (fst (lex_fraction s), snd (lex_fraction s) ++ rest).
Proof.
  intros D. destruct s as [|c s]; cbn [app lex_fraction].
  - destruct rest as [|c rest]; [reflexivity|].
    apply delimited_head in D. cbn [lex_fraction]. tests. reflexivity.
  - destruct (c =? 46); [|reflexivity].
    rewrite (take_digits_app s rest D).
    destruct (take_digits s) as [[|d fd] r']; reflexivity.
Qed.

Lemma lex_exponent_app s rest :
  delimited rest = true ->
  lex_exponent (s ++ rest)
  = (fst (lex_exponent s), snd (lex_exponent s) ++ rest).
Proof.
  intros D. destruct s as [|c s]; cbn [app lex_exponent].
  - destruct rest as [|c rest]; [reflexivity|].
    apply delimited_head in D. cbn [lex_exponent]. tests. reflexivity.
  - destruct ((c =? 101) || (c =? 69)); [|reflexivity].
    destruct s as [|sg s]; cbn [app].
    + destruct rest as [|c' rest]; [reflexivity|].
      pose proof (delimited_head c' rest D) as (D1 & D2 & D3 & _).
      tests. cbn [take_digits]. rewrite D1. reflexivity.
    + destruct ((sg =? 43) || (sg =? 45)).
      * rewrite (take_digits_app s rest D).
        destruct (take_digits s) as [[|d ed] r']; reflexivity.
      * change (sg :: s ++ rest) with ((sg :: s) ++ rest).
        rewrite (take_digits_app (sg :: s) rest D).
        destruct (take_digits (sg :: s)) as [[|d ed] r']; reflexivity.
Qed.

Lemma match_number_app s rest v r :
  match_number s = Some (v, r) ->
  delimited rest = true ->
  match_number (s ++ rest) = Some (v, r ++ rest).
Proof.
  unfold match_number. intros E D.
  rewrite (lex_sign_app s rest D). destruct (lex_sign s) as [sign s1].
  cbn [fst snd].
  destruct (lex_integer s1) as [[integer s2]|] eqn:I; [|discriminate].
  rewrite (lex_integer_app s1 rest integer s2 I D).
  rewrite (lex_fraction_app s2 rest D). destruct (lex_fraction s2) as [frac s3].
  cbn [fst snd].
  rewrite (lex_exponent_app s3 rest D). destruct (lex_exponent s3) as [exp s4].
  cbn [fst snd].
  destruct frac, exp; injection E as <- <-; reflexivity.
Qed.

Lemma uint_digits_all u : forallb is_digit (uint_digits u) = true.
Proof. induction u; cbn [uint_digits forallb]; try rewrite IHu; reflexivity. Qed.

Lemma uint_of_digits_digits u : uint_of_digits (uint_digits u) = u.
Proof.
  induction u; cbn [uint_digits uint_of_digits]; try rewrite IHu; reflexivity.
Qed.

Lemma take_digits_all ds :
  forallb is_digit ds = true -> take_digits ds = (ds, []).
Proof.
  induction ds as [|c ds IH]; cbn [forallb take_digits]; [reflexivity|].
  intros H. apply andb_true_iff in H. destruct H as [H1 H2].
  rewrite H1, (IH H2). reflexivity.
Qed.

(** The decimal digits of a positive number start with a non-zero digit. *)
Lemma pos_to_uint_head p :
  exists c ds, uint_digits (Pos.to_uint p) = c :: ds
               /\ in_range 49 57 c = true /\ forallb is_digit ds = true.
Proof.
  pose proof (DecimalPos.Unsigned.to_of (Pos.to_uint p)) as N.
  rewrite DecimalPos.Unsigned.of_to in N. cbn [N.to_uint] in N.
  pose proof (DecimalPos.Unsigned.to_uint_nonzero p) as Z.
  pose proof (DecimalFacts.nzhead_nonzero (Pos.to_uint p)) as H.
  unfold Decimal.unorm in N.
  destruct (Decimal.nzhead (Pos.to_uint p)) eqn:E;
    try (rewrite N; cbn [uint_digits]; do 2 eexists;
         split; [reflexivity|]; split; [reflexivity|apply uint_digits_all]).
  - congruence.
  - destruct (H u). reflexivity.
Qed.

Lemma match_number_int_repr z : match_number (int_repr z) = Some (JInt z, []).
Proof.
  destruct z as [|p|p]; [reflexivity| |].
  - cbn [int_repr].
    destruct (pos_to_uint_head p) as (c & ds & E & C & D).
    pose proof (uint_of_digits_digits (Pos.to_uint p)) as U.
    rewrite E in *. unfold match_number, lex_sign.
    assert (c <> 45) by (revert C; unfold in_range; tests; intros; discriminate).
    tests. unfold lex_integer. rewrite C, (take_digits_all ds D).
    cbn [lex_fraction lex_exponent]. unfold int_of_digits. rewrite U.
    unfold N.of_uint. rewrite DecimalPos.Unsigned.of_to. reflexivity.
  - cbn [int_repr].
    destruct (pos_to_uint_head p) as (c & ds & E & C & D).
    pose proof (uint_of_digits_digits (Pos.to_uint p)) as U.
    rewrite E in *. unfold match_number, lex_sign. tests.
    unfold lex_integer. rewrite C, (take_digits_all ds D).
    cbn [lex_fraction lex_exponent]. unfold int_of_digits. rewrite U.
    unfold N.of_uint. rewrite DecimalPos.Unsigned.of_to. reflexivity.
Qed.

Lemma match_number_first s v r :
  match_number s = Some (v, r) ->
  exists c s', s = c :: s'
    /\ (is_digit c = true
        \/ (c = 45 /\ exists c' s'', s' = c' :: s'' /\ is_digit c' = true)).
Proof.
  unfold match_number, lex_sign. intros E.
  assert (I : forall t x, lex_integer t = Some x ->
                          exists c t', t = c :: t' /\ is_digit c = true).
  { intros [|c t] x; cbn [lex_integer]; [discriminate|].
    intros H. exists c, t. split; [reflexivity|]. revert H.
    unfold is_digit, in_range. tests; intros; try reflexivity; discriminate. }
  destruct s as [|c s]; [discriminate|]. exists c, s. split; [reflexivity|].
  destruct (N.eqb_spec c 45) as [->|N].
  - right. split; [reflexivity|].
    destruct (lex_integer s) as [x|] eqn:L; [|discriminate].
    destruct (I s x L) as (c' & s'' & -> & D). eauto.
  - left. destruct (lex_integer (c :: s)) as [x|] eqn:L; [|discriminate].
    destruct (I _ x L) as (c' & s'' & [= <- <-] & D). assumption.
Qed.

Lemma strip_prefix_head p0 p c s :
  p0 <> c -> strip_prefix (p0 :: p) (c :: s) = None.
Proof. intros H. cbn [strip_prefix]. tests. reflexivity. Qed.

Lemma is_digit_spec c : is_digit c = true -> 48 <= c <= 57.
Proof. unfold is_digit, in_range. tests; intros; try discriminate; lia. Qed.

(** A number is no named constant. *)
Lemma parse_atom_number s x : match_number s = Some x -> parse_atom s = Some x.
Proof.
  intros E. destruct x as [v r].
  destruct (match_number_first s v r E) as (c & s' & -> & H).
  unfold parse_atom.
  change (txt "null") with (110 :: txt "ull").
  change (txt "true") with (116 :: txt "rue").
  change (txt "false") with (102 :: txt "alse").
  change (txt "NaN") with (78 :: txt "aN").
  change (txt "Infinity") with (73 :: txt "nfinity").
  change (txt "-Infinity") with (45 :: 73 :: txt "nfinity").
  destruct H as [D|(-> & c' & s'' & -> & D)]; apply is_digit_spec in D.
  - rewrite !strip_prefix_head by lia. assumption.
  - rewrite !strip_prefix_head by lia.
    cbn [strip_prefix]. tests. assumption.
Qed.

Lemma parse_value_atom fuel c s :
  c <> 34 -> c <> 123 -> c <> 91 ->
  parse_value (S fuel) (c :: s)
  = match parse_atom (c :: s) with
    | Some (v, r') => Parsed v r'
    | None => ParseError
    end.
Proof. intros. cbn [parse_value]. chars. tests. reflexivity. Qed.

Lemma parse_value_number fuel s rest v :
  match_number s = Some (v, []) ->
  delimited rest = true ->
  parse_value (S fuel) (s ++ rest) = Parsed v rest.
Proof.
  intros E D.
  pose proof (match_number_app s rest v [] E D) as A.
  destruct (match_number_first s v [] E) as (c & s' & -> & H).
  cbn [app] in *. rewrite parse_value_atom.
  - pose proof (parse_atom_number _ _ A) as B.
    now rewrite B.
  - destruct H as [H|[-> _]]; [apply is_digit_spec in H|]; lia.
  - destruct H as [H|[-> _]]; [apply is_digit_spec in H|]; lia.
  - destruct H as [H|[-> _]]; [apply is_digit_spec in H|]; lia.
Qed.

(** *** Values that travel unchanged *)

(** No key occurs twice. *)
Fixpoint distinct_keys (d : dict) : bool :=
  match d with
  | [] => true
  | (k, _) :: r => negb (dict_contains k r) && distinct_keys r
  end.

(** A literal the scanner reads, whole, as a [float]. *)
Definition float_literal (lexeme : text) : bool :=
  match match_number lexeme with
  | Some (JFloat (FLit lexeme'), []) => text_eqb lexeme' lexeme
  | _ => false
  end.

(** A JSON-serializable value as a caller passes it: its text is made of
    Unicode scalar values, the keys of a [dict] are distinct, and a [float]
    is a number, finite (held as the literal that denotes it) or infinite;
    NaN, which is no number and equals nothing, is left out. *)
Fixpoint json_serializable (v : json) : bool :=
  match v with
  | JNull | JBool _ | JInt _ => true
  | JFloat (FLit lexeme) => float_literal lexeme
  | JFloat FNaN => false
  | JFloat _ => true
  | JStr s => forallb is_scalar s
  | JArr items => forallb json_serializable items
  | JObj members =>
      distinct_keys members
      && forallb (fun kv => forallb is_scalar (fst kv)
                            && json_serializable (snd kv)) members
  end.

Lemma json_induction (P : json -> Prop) :
  P JNull ->
  (forall b, P (JBool b)) ->
  (forall z, P (JInt z)) ->
  (forall f, P (JFloat f)) ->
  (forall s, P (JStr s)) ->
  (forall items, Forall P items -> P (JArr items)) ->
  (forall members, Forall (fun kv => P (snd kv)) members -> P (JObj members)) ->
  forall v, P v.
Proof.
  intros HN HB HI HF HS HA HO.
  fix IH 1. intros [ |b|z|f|s|items|members].
  - exact HN.
  - apply HB.
  - apply HI.
  - apply HF.
  - apply HS.
  - apply HA. induction items as [|x items IHl]; constructor.
    + apply IH.
    + exact IHl.
  - apply HO. induction members as [|[k x] members IHl]; constructor.
    + apply IH.
    + exact IHl.
Qed.

Lemma skip_ws_space c r : is_json_ws c = true -> skip_ws (c :: r) = skip_ws r.
Proof. intros H. cbn [skip_ws]. now rewrite H. Qed.

Lemma skip_ws_start c r : is_json_ws c = false -> skip_ws (c :: r) = c :: r.
Proof. intros H. cbn [skip_ws]. now rewrite H. Qed.

(** What [json.dumps] writes starts with a character that is neither white
    space nor a closing bracket. *)
Lemma json_dumps_head v :
  json_serializable v = true ->
  exists c r, json_dumps v = c :: r /\ is_json_ws c = false /\ c <> 93.
Proof.
  assert (D : forall c, is_digit c = true \/ c = 45 ->
                        is_json_ws c = false /\ c <> 93).
  { intros c [H| ->]; [apply is_digit_spec in H|];
      unfold is_json_ws; tests; split; auto; lia. }
  destruct v as [ |[|]|z|f|s|items|members]; intros S;
    try (do 2 eexists; split; [cbn; reflexivity|]; split; [reflexivity|]; lia).
  - destruct z as [|p|p].
    + do 2 eexists; split; [reflexivity|]. split; [reflexivity|lia].
    + destruct (pos_to_uint_head p) as (c & ds & E & C & _).
      exists c, ds. split; [exact E|]. apply D. left.
      revert C. unfold is_digit, in_range. tests; intros; try discriminate;
        reflexivity.
    + do 2 eexists; split; [reflexivity|]. split; [reflexivity|lia].
  - destruct f as [l| | |];
      try (do 2 eexists; split; [cbn; reflexivity|]; split; [reflexivity|]; lia).
    cbn [json_serializable] in S. unfold float_literal in S.
    destruct (match_number l) as [[v r]|] eqn:E; [|discriminate].
    destruct (match_number_first l v r E) as (c & s' & -> & H).
    exists c, s'. split; [reflexivity|]. apply D. tauto.
  - exists QUOTE, (List.flat_map escape_char s ++ [QUOTE]).
    split; [reflexivity|]. split; [reflexivity|]. chars. lia.
Qed.

Lemma join_cons_cons sep (a b : text) l :
  join sep (a :: b :: l) = a ++ sep ++ join sep (b :: l).
Proof. reflexivity. Qed.

Lemma join_head y items tail :
  json_serializable y = true ->
  exists c r,
    join ITEM_SEPARATOR (List.map json_dumps (y :: items)) ++ tail = c :: r
    /\ is_json_ws c = false /\ c <> 93.
Proof.
  intros S. destruct (json_dumps_head y S) as (c & r & E & W & N).
  cbn [map]. destruct items as [|z items].
  - cbn [join]. rewrite E. exists c, (r ++ tail). auto.
  - cbn [map]. rewrite join_cons_cons, E. rewrite <- app_assoc.
    eexists c, _. split; [reflexivity|]. auto.
Qed.

(** [fuel] is enough to read back what is written for [v], whatever
    follows it. *)
Definition reads_back (v : json) : Prop :=
  exists fuel, forall fuel' rest,
    (fuel <= fuel')%nat ->
    delimited rest = true ->
    parse_value fuel' (json_dumps v ++ rest) = Parsed v rest.

Lemma elements_read_back items :
  Forall (fun x => json_serializable x = true /\ reads_back x) items ->
  items <> [] ->
  exists fuel, forall fuel' rest,
    (fuel <= fuel')%nat ->
    parse_elements fuel'
      (join ITEM_SEPARATOR (List.map json_dumps items) ++ 93 :: rest)
    = Parsed items rest.
Proof.
  induction 1 as [|x items [Sx (fx & Rx)] HF IH]; [congruence|]. intros _.
  destruct items as [|y items].
  - exists (S fx). intros fuel' rest Hf.
    destruct fuel' as [|f]; [lia|].
    cbn [map join parse_elements].
    rewrite Rx by (reflexivity || lia).
    rewrite skip_ws_start by reflexivity. tests. reflexivity.
  - destruct (IH ltac:(discriminate)) as (fr & Rr).
    exists (S (Nat.max fx fr)). intros fuel' rest Hf.
    destruct fuel' as [|f]; [lia|].
    cbn [map]. rewrite join_cons_cons. rewrite <- !app_assoc.
    cbn [parse_elements].
    rewrite Rx by (reflexivity || lia).
    change ITEM_SEPARATOR with [44; 32]. cbn [app].
    rewrite skip_ws_start by reflexivity. tests.
    rewrite skip_ws_space by reflexivity.
    inversion HF as [|? ? [Sy _] _]; subst.
    destruct (join_head y items (93 :: rest) Sy) as (c & r & E & W & _).
    cbn [map] in E. change ITEM_SEPARATOR with [44; 32] in E.
    rewrite E, (skip_ws_start c r W), <- E.
    change [44; 32] with ITEM_SEPARATOR.
    change (json_dumps y :: map json_dumps items)
      with (map json_dumps (y :: items)).
    rewrite (Rr f rest) by lia. reflexivity.
Qed.

(** A [dict] with distinct keys is the [dict] of its own pairs. *)
Lemma dict_set_fresh k v d :
  dict_contains k d = false -> dict_set k v d = d ++ [(k, v)].
Proof.
  induction d as [|[k' v'] d IH]; cbn [dict_contains dict_set app];
    [reflexivity|].
  intros H. apply orb_false_iff in H. destruct H as [H1 H2].
  rewrite H1, (IH H2). reflexivity.
Qed.

Lemma dict_contains_app k d d' :
  dict_contains k (d ++ d') = dict_contains k d || dict_contains k d'.
Proof.
  induction d as [|[k' v'] d IH]; cbn [dict_contains app]; [reflexivity|].
  rewrite IH. apply orb_assoc.
Qed.

Lemma dict_of_pairs_distinct d : distinct_keys d = true -> dict_of_pairs d = d.
Proof.
  unfold dict_of_pairs.
  assert (G : forall acc,
             distinct_keys d = true ->
             (forall k, dict_contains k d = true -> dict_contains k acc = false) ->
             fold_left (fun d kv => dict_set (fst kv) (snd kv) d) d acc
             = acc ++ d).
  { induction d as [|[k v] d IH]; intros acc D F; cbn [fold_left fst snd].
    - now rewrite app_nil_r.
    - cbn [distinct_keys] in D. apply andb_true_iff in D.
      destruct D as [D1 D2]. apply negb_true_iff in D1.
      rewrite dict_set_fresh.
      + rewrite IH; [now rewrite <- app_assoc|assumption|].
        intros k' H'. rewrite dict_contains_app. cbn [dict_contains].
        rewrite F by (cbn [dict_contains]; rewrite H'; apply orb_true_r).
        rewrite orb_false_r. cbn [orb].
        destruct (text_eqb k' k) eqn:E; [|reflexivity].
        apply text_eqb_eq in E. subst k'. congruence.
      + apply F. cbn [dict_contains]. now rewrite text_eqb_refl. }
  intros D. apply (G [] D). reflexivity.
Qed.

Definition dump_member (kv : text * json) : text :=
  encode_basestring_ascii (fst kv) ++ KEY_SEPARATOR ++ json_dumps (snd kv).

Definition member_body (kv : text * json) : text :=
  List.flat_map escape_char (fst kv) ++ QUOTE :: KEY_SEPARATOR
  ++ json_dumps (snd kv).

(** The members of an object as written, after the first quote. *)
Fixpoint members_body (members : dict) : text :=
  match members with
  | [] => []
  | kv :: r =>
      member_body kv
      ++ match r with
         | [] => []
         | _ => ITEM_SEPARATOR ++ QUOTE :: members_body r
         end
  end.

Lemma dump_member_body kv : dump_member kv = QUOTE :: member_body kv.
Proof.
  unfold dump_member, member_body, encode_basestring_ascii. cbn [app].
  rewrite <- app_assoc. reflexivity.
Qed.

Lemma join_members kv members :
  join ITEM_SEPARATOR (List.map dump_member (kv :: members))
  = QUOTE :: members_body (kv :: members).
Proof.
  revert kv. induction members as [|kv' members IH]; intros kv.
  - cbn [map join members_body]. rewrite app_nil_r. apply dump_member_body.
  - cbn [map]. rewrite join_cons_cons.
    change (dump_member kv' :: map dump_member members)
      with (map dump_member (kv' :: members)).
    rewrite IH, dump_member_body. cbn [members_body app].
    reflexivity.
Qed.

Lemma members_read_back members :
  Forall (fun kv => forallb is_scalar (fst kv) = true
                    /\ json_serializable (snd kv) = true
                    /\ reads_back (snd kv)) members ->
  members <> [] ->
  exists fuel, forall fuel' rest,
    (fuel <= fuel')%nat ->
    parse_members fuel' (members_body members ++ 125 :: rest)
    = Parsed members rest.
Proof.
  induction 1 as [|[k v] members (Sk & Sv & fv & Rv) HF IH]; [congruence|].
  intros _. cbn [fst snd] in *.
  destruct (json_dumps_head v Sv) as (c & r & E & W & _).
  assert (step : forall f tail,
             (fv <= f)%nat -> delimited tail = true ->
             parse_members (S f) (member_body (k, v) ++ tail)
             = match skip_ws tail with
               | [] => ParseError
               | c :: r3 =>
                   if c =? 125 then Parsed [(k, v)] r3
                   else if c =? 44 then
                     match skip_ws r3 with
                     | [] => ParseError
                     | q :: r4 =>
                         if q =? QUOTE then
                           match parse_members f r4 with
                           | Parsed kvs r5 => Parsed ((k, v) :: kvs) r5
                           | ParseError => ParseError
                           | OutOfFuel => OutOfFuel
                           end
                         else ParseError
                     end
                   else ParseError
               end).
  { intros f tail Hf D. unfold member_body. cbn [fst snd].
    rewrite <- app_assoc. cbn [app parse_members].
    rewrite scanstring_escape by assumption.
    change KEY_SEPARATOR with [58; 32]. cbn [app].
    rewrite skip_ws_start by reflexivity. tests.
    rewrite skip_ws_space by reflexivity.
    rewrite E. cbn [app]. rewrite (skip_ws_start c _ W).
    change (c :: r ++ tail) with ((c :: r) ++ tail). rewrite <- E.
    rewrite Rv by assumption. reflexivity. }
  destruct members as [|kv' members].
  - exists (S fv). intros fuel' rest Hf. destruct fuel' as [|f]; [lia|].
    cbn [members_body]. rewrite app_nil_r.
    rewrite step by (reflexivity || lia).
    rewrite skip_ws_start by reflexivity. tests. reflexivity.
  - destruct (IH ltac:(discriminate)) as (fr & Rr).
    exists (S (Nat.max fv fr)). intros fuel' rest Hf.
    destruct fuel' as [|f]; [lia|].
    cbn [members_body]. rewrite <- !app_assoc.
    rewrite step by (reflexivity || lia).
    change ITEM_SEPARATOR with [44; 32]. cbn [app].
    rewrite skip_ws_start by reflexivity. tests.
    rewrite skip_ws_space by reflexivity.
    rewrite skip_ws_start by reflexivity. chars. tests.
    match goal with
    | |- context [parse_members f ?t] =>
        change t with (members_body (kv' :: members) ++ 125 :: rest)
    end.
    rewrite (Rr f rest) by lia. reflexivity.
Qed.

(** [parse_value] reads back what [json_dumps] writes for a serializable
    value. *)
Lemma json_dumps_reads_back v : json_serializable v = true -> reads_back v.
Proof.
  induction v as [ |b|z|f|s|items IH|members IH] using json_induction;
    intros Ser.
  - exists 1%nat. intros [|f] rest Hf D; [lia|]. reflexivity.
  - exists 1%nat. intros [|f] rest Hf D; [lia|]. destruct b; reflexivity.
  - exists 1%nat. intros [|f] rest Hf D; [lia|].
    apply parse_value_number; [apply match_number_int_repr|assumption].
  - exists 1%nat. intros [|f'] rest Hf D; [lia|].
    destruct f as [l| | |]; try reflexivity.
    cbn [json_serializable] in Ser. unfold float_literal in Ser.
    destruct (match_number l) as [[[ | | |[l'| | |]| | |] [|]]|] eqn:E;
      try discriminate.
    apply text_eqb_eq in Ser. subst l'.
    apply parse_value_number; assumption.
  - exists 1%nat. intros [|f] rest Hf D; [lia|].
    cbn [json_dumps json_serializable] in *. unfold encode_basestring_ascii.
    cbn [app]. rewrite <- app_assoc. cbn [app parse_value]. chars. tests.
    change 34 with QUOTE. rewrite scanstring_escape by assumption.
    reflexivity.
  - cbn [json_serializable] in Ser.
    destruct items as [|x items].
    + exists 1%nat. intros [|f] rest Hf D; [lia|]. reflexivity.
    + assert (F : Forall (fun x => json_serializable x = true /\ reads_back x)
                         (x :: items)).
      { rewrite forallb_forall in Ser. rewrite Forall_forall in *.
        intros y Hy. split; [apply Ser; assumption|].
        apply IH; [assumption|apply Ser; assumption]. }
      destruct (elements_read_back (x :: items) F ltac:(discriminate))
        as (fe & Re).
      exists (S fe). intros [|f] rest Hf D; [lia|].
      cbn [json_dumps]. cbn [app]. rewrite <- app_assoc. cbn [app].
      inversion F as [|? ? [Sx _] _]; subst.
      destruct (join_head x items (93 :: rest) Sx) as (c & r & E & W & N).
      cbn [parse_value]. chars. tests.
      rewrite E, (skip_ws_start c r W). tests.
      rewrite <- E. rewrite Re by lia. reflexivity.
  - cbn [json_serializable] in Ser. apply andb_true_iff in Ser.
    destruct Ser as [SD Ser].
    destruct members as [|kv members].
    + exists 1%nat. intros [|f] rest Hf D; [lia|]. reflexivity.
    + assert (F : Forall (fun kv => forallb is_scalar (fst kv) = true
                                    /\ json_serializable (snd kv) = true
                                    /\ reads_back (snd kv)) (kv :: members)).
      { rewrite forallb_forall in Ser. rewrite Forall_forall in *.
        intros y Hy. specialize (Ser y Hy). apply andb_true_iff in Ser.
        destruct Ser as [S1 S2]. repeat split; try assumption.
        apply IH; assumption. }
      destruct (members_read_back (kv :: members) F ltac:(discriminate))
        as (fm & Rm).
      exists (S fm). intros [|f] rest Hf D; [lia|].
      cbn [json_dumps].
      change (fun kv0 : list N * json =>
                encode_basestring_ascii (fst kv0) ++ KEY_SEPARATOR
                ++ json_dumps (snd kv0)) with dump_member.
      rewrite join_members. cbn [app]. rewrite <- app_assoc. cbn [app].
      cbn [parse_value]. chars. tests.
      rewrite skip_ws_start by reflexivity. tests.
      rewrite Rm by lia. rewrite dict_of_pairs_distinct by assumption.
      reflexivity.
Qed.

(** *** The fuel of the parser is enough *)

Lemma skip_ws_length s : (List.length (skip_ws s) <= List.length s)%nat.
Proof.
  induction s as [|c s IH]; cbn [skip_ws List.length]; [lia|].
  destruct (is_json_ws c); cbn [List.length]; lia.
Qed.

Lemma take_digits_length s :
  (List.length (snd (take_digits s)) <= List.length s)%nat.
Proof.
  induction s as [|c s IH]; cbn [take_digits List.length snd]; [lia|].
  destruct (is_digit c); [|cbn [snd List.length]; lia].
  destruct (take_digits s). cbn [snd] in *. lia.
Qed.

Lemma strip_prefix_length p s r :
  strip_prefix p s = Some r ->
  List.length s = (List.length p + List.length r)%nat.
Proof.
  revert s. induction p as [|c p IH]; intros s; cbn [strip_prefix].
  - intros [= ->]. reflexivity.
  - destruct s as [|c' s]; [discriminate|].
    destruct (c =? c'); [|discriminate].
    intros H. apply IH in H. cbn [List.length]. lia.
Qed.

Lemma match_number_length s v r :
  match_number s = Some (v, r) -> (List.length r < List.length s)%nat.
Proof.
  unfold match_number.
  assert (A : (List.length (snd (lex_sign s)) <= List.length s)%nat).
  { unfold lex_sign. destruct s as [|c s]; [cbn; lia|].
    destruct (c =? 45); cbn [snd List.length]; lia. }
  destruct (lex_sign s) as [sign s1]. cbn [snd] in A.
  assert (B : forall i s2, lex_integer s1 = Some (i, s2) ->
                           (List.length s2 < List.length s1)%nat).
  { intros i s2. unfold lex_integer. destruct s1 as [|c s1]; [discriminate|].
    destruct (in_range 49 57 c).
    - pose proof (take_digits_length s1) as T. destruct (take_digits s1).
      intros [= <- <-]. cbn [snd List.length] in *. lia.
    - destruct (c =? 48); [|discriminate]. intros [= <- <-]. cbn [List.length]. lia. }
  destruct (lex_integer s1) as [[i s2]|]; [|discriminate].
  specialize (B i s2 eq_refl).
  assert (C : (List.length (snd (lex_fraction s2)) <= List.length s2)%nat).
  { unfold lex_fraction. destruct s2 as [|c s2]; [cbn; lia|].
    destruct (c =? 46); [|cbn [snd List.length]; lia].
    pose proof (take_digits_length s2) as T.
    destruct (take_digits s2) as [[|d fd] r']; cbn [snd List.length] in *; lia. }
  destruct (lex_fraction s2) as [frac s3]. cbn [snd] in C.
  assert (D : (List.length (snd (lex_exponent s3)) <= List.length s3)%nat).
  { unfold lex_exponent. destruct s3 as [|c s3]; [cbn; lia|].
    destruct ((c =? 101) || (c =? 69)); [|cbn [snd List.length]; lia].
    destruct s3 as [|sg s3].
    - cbn. lia.
    - destruct ((sg =? 43) || (sg =? 45)).
      + pose proof (take_digits_length s3) as T.
        destruct (take_digits s3) as [[|d ed] r']; cbn [snd List.length] in *; lia.
      + pose proof (take_digits_length (sg :: s3)) as T.
        destruct (take_digits (sg :: s3)) as [[|d ed] r'];
          cbn [snd List.length] in *; lia. }
  destruct (lex_exponent s3) as [exp s4]. cbn [snd] in D.
  destruct frac, exp; intros [= <- <-]; lia.
Qed.

Lemma parse_atom_length s v r :
  parse_atom s = Some (v, r) -> (List.length r < List.length s)%nat.
Proof.
  unfold parse_atom.
  repeat match goal with
         | |- context [strip_prefix ?p s] =>
             let E := fresh "E" in
             destruct (strip_prefix p s) eqn:E;
               [apply strip_prefix_length in E; intros [= <- <-];
                rewrite E; cbn; lia|]
         end.
  apply match_number_length.
Qed.

Lemma option_cons_fst_some {A : Type} c (o : option (list N * A)) t r :
  option_cons_fst c o = Some (t, r) -> exists t', o = Some (t', r).
Proof.
  destruct o as [[t' r']|]; cbn; [|discriminate]. intros [= <- <-]. eauto.
Qed.

Lemma scanstring_length s t r :
  scanstring s = Some (t, r) -> (List.length r < List.length s)%nat.
Proof.
  assert (G : forall n s t r,
             (List.length s <= n)%nat -> scanstring s = Some (t, r) ->
             (List.length r < List.length s)%nat);
    [|apply (G (List.length s)); lia].
  clear. intros n. induction n as [|n IH]; intros s t r L H.
  - destruct s; [discriminate|cbn [List.length] in L; lia].
  - destruct s as [|c s]; [discriminate|]. cbn [scanstring] in H.
    cbn [List.length] in *.
    assert (K : forall s' c' t0, (List.length s' <= n)%nat ->
                  option_cons_fst c' (scanstring s') = Some (t0, r) ->
                  (List.length r < List.length s')%nat).
    { intros s' c' t0 L' H'. apply option_cons_fst_some in H'.
      destruct H' as (t' & H'). eapply IH; eassumption. }
    destruct (c =? QUOTE); [injection H as <- <-; lia|].
    destruct (c =? BACKSLASH).
    + destruct s as [|e s1]; [discriminate|]. cbn [List.length] in *.
      destruct (e =? 117).
      * destruct s1 as [|h1 [|h2 [|h3 [|h4 s2]]]]; try discriminate.
        cbn [List.length] in *.
        destruct (decode_hex4 h1 h2 h3 h4) as [u|]; [|discriminate].
        destruct (is_high_surrogate u);
          [|apply K in H; lia].
        destruct s2 as [|b [|u' [|g1 [|g2 [|g3 [|g4 s3]]]]]];
          try (apply K in H; cbn [List.length] in *; lia).
        cbn [List.length] in *.
        destruct ((b =? BACKSLASH) && (u' =? 117));
          [|apply K in H; cbn [List.length] in *; lia].
        destruct (decode_hex4 g1 g2 g3 g4) as [u2|]; [|discriminate].
        destruct (is_low_surrogate u2);
          apply K in H; cbn [List.length] in *; lia.
      * destruct (simple_escape e); [|discriminate]. apply K in H; lia.
    + destruct (c <=? 31); [discriminate|]. apply K in H; lia.
Qed.

(** A parse consumes input. *)
Lemma parse_consumes fuel :
  (forall s v r, parse_value fuel s = Parsed v r ->
                 (List.length r < List.length s)%nat)
  /\ (forall s vs r, parse_elements fuel s = Parsed vs r ->
                     (List.length r < List.length s)%nat)
  /\ (forall s kvs r, parse_members fuel s = Parsed kvs r ->
                      (List.length r < List.length s)%nat).
Proof.
  induction fuel as [|fuel (IHv & IHe & IHm)];
    [repeat split; intros; discriminate|].
  repeat split.
  - intros s v r H. destruct s as [|c s]; [discriminate|].
    cbn [parse_value] in H. cbn [List.length].
    destruct (c =? QUOTE).
    { destruct (scanstring s) as [[t r']|] eqn:E; [|discriminate].
      injection H as <- <-. apply scanstring_length in E. lia. }
    destruct (c =? 123).
    { pose proof (skip_ws_length s) as W.
      destruct (skip_ws s) as [|c1 r1]; [discriminate|]. cbn [List.length] in W.
      destruct (c1 =? 125); [injection H as <- <-; lia|].
      destruct (c1 =? QUOTE); [|discriminate].
      destruct (parse_members fuel r1) as [pairs r2| |] eqn:E; try discriminate.
      injection H as <- <-. apply IHm in E. lia. }
    destruct (c =? 91).
    { pose proof (skip_ws_length s) as W.
      destruct (skip_ws s) as [|c1 r1]; [discriminate|]. cbn [List.length] in W.
      destruct (c1 =? 93); [injection H as <- <-; lia|].
      destruct (parse_elements fuel (c1 :: r1)) as [items r2| |] eqn:E;
        try discriminate.
      injection H as <- <-. apply IHe in E. cbn [List.length] in E. lia. }
    destruct (parse_atom (c :: s)) as [[v' r']|] eqn:E; [|discriminate].
    injection H as <- <-. apply parse_atom_length in E. cbn [List.length] in E. lia.
  - intros s vs r H. cbn [parse_elements] in H.
    destruct (parse_value fuel s) as [v r0| |] eqn:E; try discriminate.
    apply IHv in E.
    pose proof (skip_ws_length r0) as W.
    destruct (skip_ws r0) as [|c r1]; [discriminate|]. cbn [List.length] in W.
    destruct (c =? 93); [injection H as <- <-; lia|].
    destruct (c =? 44); [|discriminate].
    destruct (parse_elements fuel (skip_ws r1)) as [vs' r2| |] eqn:E2;
      try discriminate.
    injection H as <- <-. apply IHe in E2.
    pose proof (skip_ws_length r1). lia.
  - intros s kvs r H. cbn [parse_members] in H.
    destruct (scanstring s) as [[key r0]|] eqn:E; [|discriminate].
    apply scanstring_length in E.
    pose proof (skip_ws_length r0) as W.
    destruct (skip_ws r0) as [|colon r1]; [discriminate|]. cbn [List.length] in W.
    destruct (colon =? 58); [|discriminate].
    destruct (parse_value fuel (skip_ws r1)) as [v r2| |] eqn:E2;
      try discriminate.
    apply IHv in E2. pose proof (skip_ws_length r1) as W1.
    pose proof (skip_ws_length r2) as W2.
    destruct (skip_ws r2) as [|c r3]; [discriminate|]. cbn [List.length] in W2.
    destruct (c =? 125); [injection H as <- <-; lia|].
    destruct (c =? 44); [|discriminate].
    pose proof (skip_ws_length r3) as W3.
    destruct (skip_ws r3) as [|q r4]; [discriminate|]. cbn [List.length] in W3.
    destruct (q =? QUOTE); [|discriminate].
    destruct (parse_members fuel r4) as [kvs' r5| |] eqn:E3; try discriminate.
    injection H as <- <-. apply IHm in E3. lia.
Qed.

(** With fuel above twice the length of the input, the parser does not run
    out of it. *)
Lemma parse_fuel_enough fuel :
  (forall s, (2 * List.length s < fuel)%nat -> parse_value fuel s <> OutOfFuel)
  /\ (forall s, (2 * List.length s + 1 < fuel)%nat ->
                parse_elements fuel s <> OutOfFuel)
  /\ (forall s, (2 * List.length s < fuel)%nat ->
                parse_members fuel s <> OutOfFuel).
Proof.
  induction fuel as [|fuel (IHv & IHe & IHm)];
    [repeat split; intros; lia|].
  destruct (parse_consumes fuel) as (Cv & Ce & Cm).
  repeat split.
  - intros s F. destruct s as [|c s]; [discriminate|].
    cbn [parse_value]. cbn [List.length] in F.
    destruct (c =? QUOTE).
    { destruct (scanstring s) as [[t r']|]; discriminate. }
    destruct (c =? 123).
    { pose proof (skip_ws_length s) as W.
      destruct (skip_ws s) as [|c1 r1]; [discriminate|].
      cbn [List.length] in W.
      destruct (c1 =? 125); [discriminate|].
      destruct (c1 =? QUOTE); [|discriminate].
      specialize (IHm r1 ltac:(lia)).
      destruct (parse_members fuel r1); congruence. }
    destruct (c =? 91).
    { pose proof (skip_ws_length s) as W.
      destruct (skip_ws s) as [|c1 r1]; [discriminate|].
      destruct (c1 =? 93); [discriminate|].
      specialize (IHe (c1 :: r1) ltac:(lia)).
      destruct (parse_elements fuel (c1 :: r1)); congruence. }
    destruct (parse_atom (c :: s)) as [[v' r']|]; discriminate.
  - intros s F. cbn [parse_elements].
    specialize (IHv s ltac:(lia)).
    destruct (parse_value fuel s) as [v r0| |] eqn:E; try congruence.
    apply Cv in E.
    pose proof (skip_ws_length r0) as W.
    destruct (skip_ws r0) as [|c r1]; [discriminate|]. cbn [List.length] in W.
    destruct (c =? 93); [discriminate|].
    destruct (c =? 44); [|discriminate].
    pose proof (skip_ws_length r1) as W1.
    specialize (IHe (skip_ws r1) ltac:(lia)).
    destruct (parse_elements fuel (skip_ws r1)); congruence.
  - intros s F. cbn [parse_members].
    destruct (scanstring s) as [[key r0]|] eqn:E; [|discriminate].
    apply scanstring_length in E.
    pose proof (skip_ws_length r0) as W.
    destruct (skip_ws r0) as [|colon r1]; [discriminate|].
    cbn [List.length] in W.
    destruct (colon =? 58); [|discriminate].
    pose proof (skip_ws_length r1) as W1.
    specialize (IHv (skip_ws r1) ltac:(lia)).
    destruct (parse_value fuel (skip_ws r1)) as [v r2| |] eqn:E2;
      try congruence.
    apply Cv in E2. pose proof (skip_ws_length r2) as W2.
    destruct (skip_ws r2) as [|c r3]; [discriminate|]. cbn [List.length] in W2.
    destruct (c =? 125); [discriminate|].
    destruct (c =? 44); [|discriminate].
    pose proof (skip_ws_length r3) as W3.
    destruct (skip_ws r3) as [|q r4]; [discriminate|]. cbn [List.length] in W3.
    destruct (q =? QUOTE); [|discriminate].
    specialize (IHm r4 ltac:(lia)).
    destruct (parse_members fuel r4); congruence.
Qed.

(** A parse that does not run out of fuel is the same with more fuel. *)
Lemma parse_fuel_more fuel :
  (forall s, parse_value fuel s <> OutOfFuel ->
             parse_value (S fuel) s = parse_value fuel s)
  /\ (forall s, parse_elements fuel s <> OutOfFuel ->
                parse_elements (S fuel) s = parse_elements fuel s)
  /\ (forall s, parse_members fuel s <> OutOfFuel ->
                parse_members (S fuel) s = parse_members fuel s).
Proof.
  induction fuel as [|fuel (IHv & IHe & IHm)];
    [repeat split; intros s H; destruct H; reflexivity|].
  repeat split.
  - intros s H. destruct s as [|c s]; [reflexivity|].
    cbn [parse_value] in *.
    destruct (c =? QUOTE); [reflexivity|].
    destruct (c =? 123).
    { destruct (skip_ws s) as [|c1 r1]; [reflexivity|].
      destruct (c1 =? 125); [reflexivity|].
      destruct (c1 =? QUOTE); [|reflexivity].
      rewrite IHm; [reflexivity|].
      destruct (parse_members fuel r1); congruence. }
    destruct (c =? 91); [|reflexivity].
    destruct (skip_ws s) as [|c1 r1]; [reflexivity|].
    destruct (c1 =? 93); [reflexivity|].
    rewrite IHe; [reflexivity|].
    destruct (parse_elements fuel (c1 :: r1)); congruence.
  - intros s H. cbn [parse_elements] in *.
    rewrite IHv by (destruct (parse_value fuel s); congruence).
    destruct (parse_value fuel s) as [v r0| |]; try reflexivity.
    destruct (skip_ws r0) as [|c r1]; [reflexivity|].
    destruct (c =? 93); [reflexivity|].
    destruct (c =? 44); [|reflexivity].
    rewrite IHe; [reflexivity|].
    destruct (parse_elements fuel (skip_ws r1)); congruence.
  - intros s H. cbn [parse_members] in *.
    destruct (scanstring s) as [[key r0]|]; [|reflexivity].
    destruct (skip_ws r0) as [|colon r1]; [reflexivity|].
    destruct (colon =? 58); [|reflexivity].
    rewrite IHv by (destruct (parse_value fuel (skip_ws r1)); congruence).
    destruct (parse_value fuel (skip_ws r1)) as [v r2| |]; try reflexivity.
    destruct (skip_ws r2) as [|c r3]; [reflexivity|].
    destruct (c =? 125); [reflexivity|].
    destruct (c =? 44); [|reflexivity].
    destruct (skip_ws r3) as [|q r4]; [reflexivity|].
    destruct (q =? QUOTE); [|reflexivity].
    rewrite IHm; [reflexivity|].
    destruct (parse_members fuel r4); congruence.
Qed.

(** The fuel [json_loads] gives to [parse_value] is enough: more fuel
    changes nothing. *)
Lemma parse_value_fuel s fuel :
  (2 * List.length s < fuel)%nat ->
  parse_value fuel s = parse_value (2 * List.length s + 1) s
  /\ parse_value fuel s <> OutOfFuel.
Proof.
  intros F.
  replace fuel with ((fuel - (2 * List.length s + 1))
                     + (2 * List.length s + 1))%nat by lia.
  generalize (fuel - (2 * List.length s + 1))%nat as k. clear.
  induction k as [|k [IH1 IH2]].
  - split; [reflexivity|]. apply parse_fuel_enough. lia.
  - cbn [Nat.add]. destruct (parse_fuel_more (k + (2 * List.length s + 1)))
      as (M & _). rewrite (M s IH2). split; assumption.
Qed.

(** *** What [json.dumps] writes is printable ASCII *)

Definition printable (c : codepoint) : bool := in_range 32 126 c.

Lemma hex_digit_printable d : d < 16 -> printable (hex_digit d) = true.
Proof.
  intros H. unfold printable, in_range, hex_digit.
  destruct (N.ltb_spec d 10); tests; reflexivity.
Qed.

Lemma u_escape_printable n : forallb printable (u_escape n) = true.
Proof.
  unfold u_escape, hex4. cbn [forallb].
  rewrite !hex_digit_printable by (apply N.mod_lt; lia). reflexivity.
Qed.

Lemma escape_char_printable c : forallb printable (escape_char c) = true.
Proof.
  unfold escape_char. chars.
  repeat match goal with
         | |- context [if ?a =? ?b then _ else _] =>
             destruct (a =? b); [reflexivity|]
         end.
  destruct (in_range 32 126 c) eqn:E; [cbn [forallb]; unfold printable;
                                       now rewrite E|].
  destruct (c <? 65536); [apply u_escape_printable|].
  rewrite forallb_app, !u_escape_printable. reflexivity.
Qed.

Lemma flat_map_escape_printable s :
  forallb printable (List.flat_map escape_char s) = true.
Proof.
  induction s as [|c s IH]; [reflexivity|].
  cbn [flat_map]. now rewrite forallb_app, escape_char_printable, IH.
Qed.

Lemma number_char_printable c : number_char c = true -> printable c = true.
Proof.
  unfold number_char, is_digit, printable, in_range.
  tests; intros; try reflexivity; discriminate.
Qed.

Lemma forallb_impl {A : Type} (p q : A -> bool) l :
  (forall a, p a = true -> q a = true) ->
  forallb p l = true -> forallb q l = true.
Proof.
  intros H. induction l as [|a l IH]; [reflexivity|]. cbn [forallb].
  intros E. apply andb_true_iff in E. destruct E as [E1 E2].
  now rewrite (H a E1), (IH E2).
Qed.

Lemma is_digit_number_char c : is_digit c = true -> number_char c = true.
Proof. unfold number_char. now intros ->. Qed.

Lemma take_digits_split s :
  s = fst (take_digits s) ++ snd (take_digits s)
  /\ forallb is_digit (fst (take_digits s)) = true.
Proof.
  induction s as [|c s [IH1 IH2]]; cbn [take_digits]; [split; reflexivity|].
  destruct (is_digit c) eqn:E; [|split; reflexivity].
  destruct (take_digits s) as [ds r]. cbn [fst snd app forallb] in *.
  rewrite E, IH2. split; [now f_equal|reflexivity].
Qed.

(** The text [match_number] reads is made of the characters of numbers. *)
Lemma match_number_chars s v :
  match_number s = Some (v, []) -> forallb number_char s = true.
Proof.
  unfold match_number, lex_sign, lex_integer, lex_fraction, lex_exponent.
  intros H.
  assert (T : forall t, forallb number_char (fst (take_digits t)) = true
                        /\ t = fst (take_digits t) ++ snd (take_digits t)).
  { intros t. destruct (take_digits_split t) as [T1 T2]. split; [|exact T1].
    eapply forallb_impl; [apply is_digit_number_char|exact T2]. }
  assert (G : exists lex, s = lex /\ forallb number_char lex = true);
    [|destruct G as (lex & -> & G); exact G].
  assert (N1 : forall c, (c =? 45) = true -> number_char c = true).
  { intros c. unfold number_char. intros ->.
    now rewrite !orb_true_r. }
  assert (N2 : forall c, (c =? 46) = true -> number_char c = true).
  { intros c. unfold number_char. intros ->. now rewrite !orb_true_r. }
  assert (N3 : forall c, ((c =? 101) || (c =? 69)) = true -> number_char c = true).
  { intros c. unfold number_char. intros E. apply orb_true_iff in E.
    destruct E as [-> | ->]; now rewrite !orb_true_r. }
  assert (N4 : forall c, ((c =? 43) || (c =? 45)) = true -> number_char c = true).
  { intros c. unfold number_char. intros E. apply orb_true_iff in E.
    destruct E as [-> | ->]; now rewrite !orb_true_r. }
  assert (N5 : forall c, in_range 49 57 c = true -> number_char c = true).
  { intros c E. apply is_digit_number_char. revert E.
    unfold is_digit, in_range. tests; intros; try reflexivity; discriminate. }
  assert (N6 : forall c, (c =? 48) = true -> number_char c = true).
  { intros c E. apply N.eqb_eq in E. subst c. reflexivity. }
  (* the sign *)
  assert (P1 : exists sign s1, s = sign ++ s1
                 /\ forallb number_char sign = true
                 /\ match s with
                    | c :: r => if c =? 45 then ([c], r) else ([], s)
                    | [] => ([], s)
                    end = (sign, s1)).
  { destruct s as [|c r]; [exists [], []; auto|].
    destruct (c =? 45) eqn:E.
    - exists [c], r. cbn [forallb app]. rewrite (N1 c E). auto.
    - exists [], (c :: r). auto. }
  destruct P1 as (sign & s1 & -> & F1 & E1). rewrite E1 in H. cbv beta iota in H. clear E1.
  (* the integer *)
  destruct s1 as [|c r]; [discriminate|].
  assert (P2 : exists i s2, c :: r = i ++ s2
                 /\ forallb number_char i = true
                 /\ (if in_range 49 57 c
                     then let (ds, r') := take_digits r in Some (c :: ds, r')
                     else if c =? 48 then Some ([c], r) else None)
                    = Some (i, s2)).
  { destruct (in_range 49 57 c) eqn:E.
    - destruct (T r) as [T1 T2]. destruct (take_digits r) as [ds r'].
      cbn [fst snd] in *. exists (c :: ds), r'. cbn [forallb app].
      rewrite (N5 c E), T1. subst r. auto.
    - destruct (c =? 48) eqn:E'; [|discriminate].
      exists [c], r. cbn [forallb app]. rewrite (N6 c E'). auto. }
  destruct P2 as (i & s2 & -> & F2 & E2). rewrite E2 in H. cbv beta iota in H. clear E2.
  (* the fraction *)
  assert (P3 : exists frac s3, s2 = frac ++ s3
                 /\ forallb number_char frac = true
                 /\ match s2 with
                    | dot :: r =>
                        if dot =? 46 then
                          match take_digits r with
                          | ([], _) => ([], s2)
                          | (fd, r') => (dot :: fd, r')
                          end
                        else ([], s2)
                    | [] => ([], s2)
                    end = (frac, s3)).
  { destruct s2 as [|dot r2]; [exists [], []; auto|].
    destruct (dot =? 46) eqn:E; [|exists [], (dot :: r2); auto].
    destruct (T r2) as [T1 T2]. destruct (take_digits r2) as [[|d fd] r'];
      cbn [fst snd] in *.
    - exists [], (dot :: r2). auto.
    - exists (dot :: d :: fd), r'. cbn [forallb app] in *.
      rewrite (N2 dot E), T1. subst r2. auto. }
  destruct P3 as (frac & s3 & -> & F3 & E3). rewrite E3 in H. cbv beta iota in H. clear E3.
  (* the exponent *)
  assert (P4 : exists exp s4, s3 = exp ++ s4
                 /\ forallb number_char exp = true
                 /\ match s3 with
                    | e :: r =>
                        if (e =? 101) || (e =? 69) then
                          let (esign, r1) :=
                            match r with
                            | sg :: r1 =>
                                if (sg =? 43) || (sg =? 45)
                                then ([sg], r1) else ([], r)
                            | [] => ([], r)
                            end in
                          match take_digits r1 with
                          | ([], _) => ([], s3)
                          | (ed, r2) => (e :: esign ++ ed, r2)
                          end
                        else ([], s3)
                    | [] => ([], s3)
                    end = (exp, s4)).
  { destruct s3 as [|e r3]; [exists [], []; auto|].
    destruct ((e =? 101) || (e =? 69)) eqn:E; [|exists [], (e :: r3); auto].
    destruct r3 as [|sg r4].
    - exists [], [e]. auto.
    - destruct ((sg =? 43) || (sg =? 45)) eqn:E'.
      + destruct (T r4) as [T1 T2]. destruct (take_digits r4) as [[|d ed] r'];
          cbn [fst snd] in *.
        * exists [], (e :: sg :: r4). auto.
        * exists (e :: sg :: d :: ed), r'. cbn [forallb app] in *.
          rewrite (N3 e E), (N4 sg E'), T1. subst r4. auto.
      + destruct (T (sg :: r4)) as [T1 T2].
        destruct (take_digits (sg :: r4)) as [[|d ed] r']; cbn [fst snd] in *.
        * exists [], (e :: sg :: r4). auto.
        * exists (e :: d :: ed), r'. cbn [forallb app] in *.
          rewrite (N3 e E), T1. rewrite T2. auto. }
  destruct P4 as (exp & s4 & -> & F4 & E4). rewrite E4 in H. cbv beta iota in H. clear E4.
  assert (s4 = []) by (destruct frac, exp; injection H as _ H; exact H).
  subst s4. eexists. split; [reflexivity|].
  rewrite !forallb_app, F1, F2, F3, F4. reflexivity.
Qed.

Lemma join_printable parts :
  Forall (fun p => forallb printable p = true) parts ->
  forallb printable (join ITEM_SEPARATOR parts) = true.
Proof.
  induction 1 as [|p parts Hp HF IH]; [reflexivity|].
  destruct parts as [|q parts]; [exact Hp|].
  rewrite join_cons_cons, !forallb_app, Hp, IH. reflexivity.
Qed.

Lemma uint_digits_printable u : forallb printable (uint_digits u) = true.
Proof.
  eapply forallb_impl; [|apply uint_digits_all].
  intros c H. apply number_char_printable, is_digit_number_char, H.
Qed.

Lemma json_dumps_printable v :
  json_serializable v = true -> forallb printable (json_dumps v) = true.
Proof.
  induction v as [ |b|z|f|s|items IH|members IH] using json_induction;
    intros Ser.
  - reflexivity.
  - destruct b; reflexivity.
  - destruct z as [|p|p]; cbn [json_dumps int_repr forallb];
      rewrite ?uint_digits_printable; reflexivity.
  - destruct f as [l| | |]; try reflexivity.
    cbn [json_serializable] in Ser. unfold float_literal in Ser.
    destruct (match_number l) as [[[ | | |[l'| | |]| | |] [|]]|] eqn:E;
      try discriminate.
    eapply forallb_impl; [apply number_char_printable|].
    eapply match_number_chars; eassumption.
  - cbn [json_dumps]. unfold encode_basestring_ascii. cbn [forallb].
    rewrite forallb_app, flat_map_escape_printable. reflexivity.
  - cbn [json_dumps json_serializable forallb] in *.
    rewrite forallb_app. cbn [forallb]. rewrite join_printable; [reflexivity|].
    rewrite forallb_forall in Ser. rewrite Forall_forall in *.
    intros p Hp. apply in_map_iff in Hp. destruct Hp as (x & <- & Hx).
    apply IH; [assumption|apply Ser; assumption].
  - cbn [json_dumps json_serializable forallb] in *.
    apply andb_true_iff in Ser. destruct Ser as [_ Ser].
    rewrite forallb_app. cbn [forallb]. rewrite join_printable; [reflexivity|].
    rewrite forallb_forall in Ser. rewrite Forall_forall in *.
    intros p Hp. apply in_map_iff in Hp. destruct Hp as (kv & <- & Hkv).
    specialize (Ser kv Hkv). apply andb_true_iff in Ser.
    destruct Ser as [_ Ser].
    unfold encode_basestring_ascii. cbn [forallb app].
    rewrite !forallb_app, flat_map_escape_printable.
    rewrite (IH kv Hkv Ser). reflexivity.
Qed.

(** [json.loads(json.dumps(v))] is [v]. *)
Theorem json_loads_dumps v :
  json_serializable v = true -> json_loads (json_dumps v) = Some v.
Proof.
  intros Ser.
  destruct (json_dumps_head v Ser) as (c & r & E & W & _).
  pose proof (json_dumps_printable v Ser) as P.
  destruct (json_dumps_reads_back v Ser) as (fuel & R).
  unfold json_loads.
  assert (B : strip_prefix [0xFEFF] (json_dumps v) = None).
  { rewrite E in *. cbn [forallb] in P. apply andb_true_iff in P.
    destruct P as [P _]. revert P. unfold printable, in_range.
    cbn [strip_prefix]. tests; intros; try discriminate; reflexivity. }
  rewrite B.
  assert (K : skip_ws (json_dumps v) = json_dumps v)
    by (rewrite E; apply skip_ws_start, W).
  rewrite K.
  set (n := (2 * List.length (json_dumps v) + 1)%nat).
  destruct (parse_value_fuel (json_dumps v) (Nat.max fuel n) ltac:(lia))
    as [F _].
  fold n in F. rewrite <- F.
  specialize (R (Nat.max fuel n) [] ltac:(lia) eq_refl).
  rewrite app_nil_r in R. rewrite R. reflexivity.
Qed.

(** ** The framing of commands *)

(** The message of a command, and [encode]: the bytes that line 179 writes
    for it. *)
Definition command_obj (command : text) (params : json) : json :=
  JObj [(txt "command", JStr command); (txt "params", py_or params (JObj []))].

Definition encode (command : text) (params : json) : option bytes :=
  utf8_encode (command_json command params).

Definition ascii (c : codepoint) : bool := c <? 128.

Lemma printable_ascii c : printable c = true -> ascii c = true.
Proof.
  unfold printable, ascii, in_range. tests; intros; try discriminate;
    reflexivity.
Qed.

Lemma to_N_byte_of_N c : c < 256 -> Byte.to_N (byte_of_N c) = c.
Proof.
  intros H. unfold byte_of_N. destruct (Byte.of_N c) as [b|] eqn:E.
  - now apply Byte.to_of_N.
  - apply Byte.of_N_None_iff in E. lia.
Qed.

Lemma utf8_encode_ascii t :
  forallb ascii t = true -> utf8_encode t = Some (bytes_of t).
Proof.
  induction t as [|c t IH]; [reflexivity|]. cbn [forallb].
  intros H. apply andb_true_iff in H. destruct H as [H1 H2].
  cbn [utf8_encode bytes_of map]. unfold utf8_encode_char.
  unfold ascii in H1. rewrite H1, (IH H2). reflexivity.
Qed.

Lemma utf8_decode_ascii t :
  forallb ascii t = true -> utf8_decode (bytes_of t) = Some t.
Proof.
  induction t as [|c t IH]; [reflexivity|]. cbn [forallb].
  intros H. apply andb_true_iff in H. destruct H as [H1 H2].
  cbn [bytes_of map utf8_decode]. unfold ascii in H1.
  apply N.ltb_lt in H1. rewrite to_N_byte_of_N by lia.
  destruct (N.ltb_spec c 128); [|lia].
  fold (bytes_of t). rewrite (IH H2). reflexivity.
Qed.

Lemma forallb_firstn {A : Type} (p : A -> bool) k l :
  forallb p l = true -> forallb p (List.firstn k l) = true.
Proof.
  revert k. induction l as [|a l IH]; intros [|k]; try reflexivity.
  cbn [forallb firstn]. intros H. apply andb_true_iff in H.
  destruct H as [H1 H2]. now rewrite H1, IH.
Qed.

Lemma forallb_skipn {A : Type} (p : A -> bool) k l :
  forallb p l = true -> forallb p (List.skipn k l) = true.
Proof.
  revert k. induction l as [|a l IH]; intros [|k]; try reflexivity;
    [exact (fun H => H)|].
  cbn [forallb skipn]. intros H. apply andb_true_iff in H.
  destruct H as [H1 H2]. now apply IH.
Qed.

Lemma printable_no_newline t : forallb printable t = true -> ~ In NEWLINE t.
Proof.
  intros H E. rewrite forallb_forall in H. specialize (H _ E). discriminate.
Qed.

Lemma strip_bracketed c mid d :
  py_isspace c = false -> py_isspace d = false ->
  strip (c :: mid ++ [d]) = c :: mid ++ [d].
Proof.
  intros C D. unfold strip, rstrip. cbn [lstrip]. rewrite C.
  change (c :: mid ++ [d]) with ((c :: mid) ++ [d]).
  rewrite rev_app_distr. cbn [List.rev app lstrip]. rewrite D.
  change (d :: List.rev mid ++ [c]) with ([d] ++ List.rev (c :: mid)).
  rewrite rev_app_distr, rev_involutive. reflexivity.
Qed.

Section Framing.

Variables (command : text) (params : json).
Hypothesis command_text : forallb is_scalar command = true.
Hypothesis params_dict : is_dict params = true.
Hypothesis params_serializable : json_serializable params = true.

Lemma command_obj_params :
  command_obj command params
  = JObj [(txt "command", JStr command); (txt "params", params)].
Proof.
  unfold command_obj. destruct params as [ | | | | | |[|kv d]];
    try discriminate; reflexivity.
Qed.

Lemma command_obj_serializable :
  json_serializable (command_obj command params) = true.
Proof.
  rewrite command_obj_params. cbn [json_serializable forallb fst snd].
  rewrite command_text, params_serializable. reflexivity.
Qed.

Lemma command_line_reply :
  reply_line (json_dumps (command_obj command params))
             (command_obj command params).
Proof.
  pose proof command_obj_serializable as Ser.
  pose proof (json_dumps_printable _ Ser) as P.
  split; [apply printable_no_newline, P|].
  split; [|rewrite command_obj_params; reflexivity].
  replace (strip (json_dumps (command_obj command params)))
    with (json_dumps (command_obj command params));
    [apply json_loads_dumps, Ser|].
  symmetry. unfold command_obj. cbn [json_dumps].
  apply strip_bracketed; reflexivity.
Qed.

Lemma command_json_ascii :
  forallb ascii (command_json command params) = true.
Proof.
  unfold command_json. fold (command_obj command params).
  rewrite forallb_app. cbn [forallb].
  rewrite (forallb_impl printable ascii _ printable_ascii); [reflexivity|].
  apply json_dumps_printable, command_obj_serializable.
Qed.

Lemma encode_bytes :
  encode command params = Some (bytes_of (command_json command params)).
Proof. apply utf8_encode_ascii, command_json_ascii. Qed.

End Framing.

(** The peer's answer to a command, as it arrives on the socket of the
    session: the command can be written, and then the heartbeat lines [hs]
    and the line [l] arrive, in chunks cut anywhere. *)
Definition peer_answers (command : text) (params : json) (s : session)
           (hs : list text) (l : text) : Prop :=
  exists sk extra,
    socket s = Some sk
    /\ encode command params <> None
    /\ hd None (sock_send sk) = None
    /\ arrives (sock_recv sk) (framed hs l ++ extra).

Lemma sendall_writes data sk :
  hd None (sock_send sk) = None ->
  exists sk1, sendall data sk = (None, sk1) /\ sock_recv sk1 = sock_recv sk.
Proof.
  unfold sendall. destruct (sock_send sk) as [|[e|] rest]; cbn [hd];
    try discriminate; intros _; eexists; split; reflexivity.
Qed.

Lemma peer_answers_answered command params s hs l reply :
  peer_answers command params s hs l ->
  Forall heartbeat_line hs ->
  reply_line l reply ->
  answered command params s reply.
Proof.
  intros (sk & extra & S & E & W & A) H R.
  unfold encode in E.
  destruct (utf8_encode (command_json command params)) as [data|] eqn:D;
    [|congruence].
  destruct (sendall_writes data sk W) as (sk1 & W1 & W2).
  rewrite <- W2 in A.
  destruct (recv_loop_framed l reply extra R (sock_recv sk1) _ A [] hs
              (fun F => F) H eq_refl) as (rest & L).
  exists sk, data, sk1, (set_sock_recv rest sk1).
  repeat split; try assumption.
  unfold receive_full_response. rewrite L. reflexivity.
Qed.

(** *** C4 *)


Definition box_params : json :=
  JObj [(txt "name", JStr (txt "Box1")); (txt "type", JStr (txt "Cube"));
        (txt "location", JArr [JInt 0; JInt (-50); JFloat (FLit (txt "1.5"))])].


(** *** C5 *)


(** Chunks of ASCII text arrive as themselves. *)
Lemma arrives_ascii chunks events :
  forallb (fun t => text_truthy t && forallb ascii t) chunks = true ->
  arrives (List.map (fun t => Data (bytes_of t)) chunks ++ events)
          (List.concat chunks).
Proof.
  induction chunks as [|t chunks IH]; cbn [forallb map List.concat app].
  - intros _. constructor.
  - intros H. apply andb_true_iff in H. destruct H as [H1 H2].
    apply andb_true_iff in H1. destruct H1 as [H0 H1].
    constructor; [|apply utf8_decode_ascii, H1|apply IH, H2].
    destruct t; discriminate.
Qed.

Definition heartbeat_text : text :=
  json_dumps (JObj [(txt "type", JStr (txt "heartbeat"));
                    (txt "timestamp", JInt 1730000000)]).

Definition success_reply : json :=
  JObj [(txt "status", JStr (txt "success")); (txt "actor", JStr (txt "Box1"))].

Lemma heartbeat_text_line : heartbeat_line heartbeat_text.
Proof.
  split; [apply printable_no_newline; vm_compute; reflexivity|].
  eexists. split; vm_compute; reflexivity.
Defined.

Lemma success_reply_line : reply_line (json_dumps success_reply) success_reply.
Proof.
  split; [apply printable_no_newline; vm_compute; reflexivity|].
  split; vm_compute; reflexivity.
Defined.

(** Two heartbeats and the reply, the second heartbeat cut in two. *)
Definition heartbeats_then_reply : list text :=
  [heartbeat_text ++ [NEWLINE] ++ List.firstn 7 heartbeat_text;
   List.skipn 7 heartbeat_text ++ [NEWLINE] ++ json_dumps success_reply
   ++ [NEWLINE]].


(** *** C6 *)

Lemma process_buffer_no_newline fuel buffer :
  ~ In NEWLINE buffer -> process_buffer fuel buffer = NeedMore buffer.
Proof.
  intros H. destruct fuel as [|fuel]; [reflexivity|]. cbn [process_buffer].
  destruct (split_newline buffer) as [[a b]|] eqn:E; [|reflexivity].
  apply split_newline_some in E. destruct E as [-> _].
  destruct H. apply in_app_iff. right. left. reflexivity.
Qed.



(** The inner loop needs no more turns than the buffer has characters. *)
Lemma process_buffer_fuel fuel buffer :
  (List.length buffer <= fuel)%nat ->
  process_buffer fuel buffer = process_buffer (List.length buffer) buffer.
Proof.
  assert (G : forall f1 f2 b,
             (List.length b <= f1)%nat -> (List.length b <= f2)%nat ->
             process_buffer f1 b = process_buffer f2 b);
    [|intros; apply G; lia].
  clear. induction f1 as [|f1 IH]; intros f2 b L1 L2.
  - destruct b; [|cbn [List.length] in L1; lia]. destruct f2; reflexivity.
  - destruct f2 as [|f2].
    + destruct b; [reflexivity|cbn [List.length] in L2; lia].
    + cbn [process_buffer].
      destruct (split_newline b) as [[a b']|] eqn:E; [|reflexivity].
      apply split_newline_some in E. destruct E as [-> _].
      rewrite length_app in L1, L2. cbn [List.length] in L1, L2.
      rewrite (IH f2 b') by lia. reflexivity.
Qed.

(** *** C3 *)

(** C3: when the reply line of the peer is the JSON text of
    [{"status": "error", "error": X}] or of
    [{"success": false, "message": X}], for any text [X], [send_command]
    returns [{"status": "error", "error": X}]. *)
Theorem send_command_error_shapes_converge :
  forall x command params track w s hs l reply,
    lock s = false ->
    connected s = true ->
    peer_answers command params s hs l ->
    Forall heartbeat_line hs ->
    reply_line l reply ->
    reply = error_reply_a x \/ reply = error_reply_b x ->
    exists s',
      send_command command params track w s
      = Returns (error_response (JStr x)) s'
      /\ connected s' = true.
Proof.
  intros x command params track w s hs l reply L C P H R E.
  apply (error_shapes_converge_answered x command params track w s reply);
    try assumption.
  eapply peer_answers_answered; eassumption.
Qed.

Definition not_found : text := txt "Actor not found".

Definition name_params : json := JObj [(txt "name", JStr (txt "Box1"))].

(** A session whose peer sends a heartbeat and then the line of [reply]. *)
Definition answering (reply : json) : session :=
  session_on (peer_sends [heartbeat_text ++ [NEWLINE];
                          json_dumps reply ++ [NEWLINE]]).

Lemma answering_peer_answers reply :
  forallb ascii (json_dumps reply) = true ->
  peer_answers (txt "delete_actor") name_params (answering reply)
               [heartbeat_text] (json_dumps reply).
Proof.
  intros A.
  exists (peer_sends [heartbeat_text ++ [NEWLINE];
                      json_dumps reply ++ [NEWLINE]]), [].
  split; [reflexivity|]. split; [vm_compute; discriminate|].
  split; [reflexivity|].
  assert (F : forallb (fun t => text_truthy t && forallb ascii t)
                      [heartbeat_text ++ [NEWLINE];
                       json_dumps reply ++ [NEWLINE]] = true).
  { cbn [forallb]. rewrite !forallb_app, A. cbn [forallb].
    destruct (json_dumps reply); reflexivity. }
  pose proof (arrives_ascii _ [] F) as Ar.
  cbn [List.concat] in Ar. rewrite !app_nil_r in Ar.
  unfold framed. cbn [flat_map]. rewrite !app_nil_r. exact Ar.
Defined.

Lemma send_command_error_shapes_converge_witness :
  exists s',
    send_command (txt "delete_actor") name_params true env0
                 (answering (error_reply_b not_found))
    = Returns (error_response (JStr not_found)) s'
    /\ connected s' = true.
Proof.
  apply (send_command_error_shapes_converge not_found (txt "delete_actor")
           name_params true env0 (answering (error_reply_b not_found))
           [heartbeat_text] (json_dumps (error_reply_b not_found))
           (error_reply_b not_found)).
  - reflexivity.
  - reflexivity.
  - apply answering_peer_answers. vm_compute. reflexivity.
  - constructor; [apply heartbeat_text_line|constructor].
  - split; [apply printable_no_newline; vm_compute; reflexivity|].
    split; vm_compute; reflexivity.
  - right. reflexivity.
Defined.

(** *** C10 *)

(** C10: when the first reply line of the peer that is no heartbeat is
    valid JSON but not a mapping (an array, a string, a number, ...),
    [send_command] does not return that value: calling [.get] on it raises,
    the call returns the canonical error response with the description of
    that exception, and the session is left disconnected, its socket
    dropped. *)
Theorem send_command_non_mapping_reply :
  forall command params track w s hs l reply,
    lock s = false ->
    connected s = true ->
    peer_answers command params s hs l ->
    Forall heartbeat_line hs ->
    reply_line l reply ->
    is_dict reply = false ->
    exists s',
      send_command command params track w s
      = Returns (error_response
                   (JStr ([39] ++ type_name reply
                          ++ txt "' object has no attribute 'get'"))) s'
      /\ connected s' = false /\ socket s' = None.
Proof.
  intros command params track w s hs l reply L C P H R D.
  apply (non_mapping_reply_answered command params track w s reply);
    try assumption.
  eapply peer_answers_answered; eassumption.
Qed.

Definition array_reply : json := JArr [JStr (txt "Box1"); JStr (txt "Box2")].

Lemma send_command_non_mapping_reply_witness :
  exists s',
    send_command (txt "delete_actor") name_params true env0
                 (answering array_reply)
    = Returns (error_response
                 (JStr ([39] ++ type_name array_reply
                        ++ txt "' object has no attribute 'get'"))) s'
    /\ connected s' = false /\ socket s' = None.
Proof.
  apply (send_command_non_mapping_reply (txt "delete_actor") name_params true
           env0 (answering array_reply) [heartbeat_text]
           (json_dumps array_reply) array_reply).
  - reflexivity.
  - reflexivity.
  - apply answering_peer_answers. vm_compute. reflexivity.
  - constructor; [apply heartbeat_text_line|constructor].
  - split; [apply printable_no_newline; vm_compute; reflexivity|].
    split; vm_compute; reflexivity.
  - reflexivity.
Defined.

(** ** Limits of the codec

    Three inputs outside the statements above, evaluated. *)

(** The last parse attempt (lines 138-156) does not look at the type
    marker: a heartbeat message that is not ended by a newline when [recv]
    times out is returned to the caller. *)
Lemma unterminated_heartbeat_is_returned :
  exists message,
    fst (recv_loop [] [Data (bytes_of heartbeat_text); Timeout]) = inl message
    /\ is_heartbeat message = true.
Proof. eexists. split; vm_compute; reflexivity. Qed.

(** Line 112 decodes every chunk on its own: a reply whose bytes are cut
    inside a character of more than one byte raises [UnicodeDecodeError],
    though the same bytes in one chunk give the message.  The reply is the
    JSON string of the one character U+00E9. *)
Lemma split_inside_character_raises :
  utf8_encode [34; 233; 34; 10] = Some [x22; xc3; xa9; x22; x0a]
  /\ fst (recv_loop [] [Data [x22; xc3; xa9; x22; x0a]]) = inl (JStr [233])
  /\ fst (recv_loop [] [Data [x22; xc3]; Data [xa9; x22; x0a]])
     = inr unicode_decode_error.
Proof. repeat split; vm_compute; reflexivity. Qed.

(** A [str] that holds a high surrogate directly followed by a low one is
    written as two escapes and read back as one character. *)
Lemma surrogate_pair_is_joined :
  json_loads (json_dumps (JStr [0xD83D; 0xDE00])) = Some (JStr [0x1F600]).
Proof. vm_compute. reflexivity. Qed.

(** * Further properties of the session *)

(** ** [connect] and [disconnect] *)

Lemma set_lock_same (s : session) : set_lock (lock s) s = s.
Proof. destruct s; reflexivity. Qed.

Lemma set_lock_set_lock a b (s : session) :
  set_lock a (set_lock b s) = set_lock a s.
Proof. reflexivity. Qed.

(** X1: On a session that is connected, [connect] makes no attempt (line 58):
    it returns [True] and the session, its socket included, is as it was. *)
Theorem connect_when_connected_changes_nothing :
  forall a s sk,
    lock s = false ->
    connected s = true ->
    socket s = Some sk ->
    connect a s = Returns true s.
Proof.
  intros a s sk L C S. unfold connect, with_lock, connect_body. rewrite L.
  cbn [connected socket set_lock]. rewrite C, S. cbn [is_some andb].
  rewrite set_lock_set_lock, <- L. now rewrite set_lock_same.
Qed.

(** A connected session with a running heartbeat thread. *)
Definition running (sk : sock) : session :=
  set_heartbeat (Some {| is_alive := true |}) false (session_on sk).

Lemma connect_when_connected_changes_nothing_witness :
  connect refused (running broken_pipe) = Returns true (running broken_pipe).
Proof.
  apply (connect_when_connected_changes_nothing refused (running broken_pipe)
           broken_pipe); reflexivity.
Defined.

(** The ways a connect attempt on the session [s] fails: the socket cannot
    be created, its setup or the TCP connect raises, or the heartbeat
    thread that [_start_heartbeat] has to start does not start. *)
Inductive attempt_fails (s : session) : connect_attempt -> Prop :=
| fails_socket (e : exn) : attempt_fails s (SocketFails e)
| fails_setup (sk : sock) (e : exn) : attempt_fails s (SetupFails sk e)
| fails_thread (sk : sock) (e : exn) :
    (0 < heartbeat_interval s)%Z ->
    (forall th, heartbeat_thread s = Some th -> is_alive th = false) ->
    attempt_fails s (Connects sk (Some e)).

(** X2: A connect attempt that fails at any stage makes [connect] return
    [False] (it raises nothing): the socket, if one was created, is dropped,
    the session is disconnected, and the diagnostic fields and the last
    heartbeat time are as before. *)
Theorem connect_failure_leaves_no_socket :
  forall a s,
    lock s = false ->
    connected s = false ->
    attempt_fails s a ->
    exists s',
      connect a s = Returns false s'
      /\ socket s' = None /\ connected s' = false /\ lock s' = false
      /\ diagnostics s' = diagnostics s
      /\ last_heartbeat s' = last_heartbeat s.
Proof.
  intros a s L C F. unfold connect, with_lock, connect_body. rewrite L.
  cbn [connected socket set_lock]. rewrite C. cbn [andb].
  destruct F as [e|sk e|sk e I T].
  - eexists. split; [reflexivity|]. cbn. auto.
  - eexists. split; [reflexivity|]. cbn. auto.
  - unfold _start_heartbeat. cbn [heartbeat_interval heartbeat_thread
      set_connected set_socket set_lock].
    destruct (Z.leb_spec (heartbeat_interval s) 0); [lia|].
    destruct (heartbeat_thread s) as [[[|]]|] eqn:Ht.
    + specialize (T _ eq_refl). discriminate.
    + eexists. split; [reflexivity|]. cbn. auto.
    + eexists. split; [reflexivity|]. cbn. auto.
Qed.

Definition no_threads : exn := Raise CRuntimeError (txt "can't start new thread").

Lemma connect_failure_leaves_no_socket_witness :
  exists s',
    connect (Connects broken_pipe (Some no_threads)) (init 25)
    = Returns false s'
    /\ socket s' = None /\ connected s' = false /\ lock s' = false
    /\ diagnostics s' = diagnostics (init 25)
    /\ last_heartbeat s' = last_heartbeat (init 25).
Proof.
  apply (connect_failure_leaves_no_socket
           (Connects broken_pipe (Some no_threads)) (init 25));
    try reflexivity.
  apply fails_thread; [reflexivity|]. intros th H. discriminate H.
Defined.

(** X3: A connect attempt that goes through makes [connect] return [True] with
    the new socket in place.  With a heartbeat interval that is zero or
    negative no heartbeat thread is started; with a positive one a thread
    runs afterwards: the one that was alive already, which is left alone,
    or a new one, started with the stop flag cleared. *)
Theorem connect_starts_heartbeat :
  forall sk s,
    lock s = false ->
    connected s = false ->
    exists s',
      connect (Connects sk None) s = Returns true s'
      /\ socket s' = Some sk /\ connected s' = true /\ lock s' = false
      /\ diagnostics s' = diagnostics s
      /\ if (heartbeat_interval s <=? 0)%Z
         then heartbeat_thread s' = heartbeat_thread s
              /\ heartbeat_stop s' = heartbeat_stop s
         else heartbeat_thread s' = Some {| is_alive := true |}
              /\ (heartbeat_thread s = Some {| is_alive := true |}
                  /\ heartbeat_stop s' = heartbeat_stop s
                  \/ heartbeat_thread s <> Some {| is_alive := true |}
                     /\ heartbeat_stop s' = false).
Proof.
  intros sk s L C. unfold connect, with_lock, connect_body. rewrite L.
  cbn [connected socket set_lock]. rewrite C. cbn [andb].
  unfold _start_heartbeat. cbn [heartbeat_interval heartbeat_thread
    set_connected set_socket set_lock].
  destruct (heartbeat_interval s <=? 0)%Z.
  - eexists. split; [reflexivity|]. cbn. auto 10.
  - destruct (heartbeat_thread s) as [[[|]]|] eqn:H;
      (eexists; split; [reflexivity|]); cbn; rewrite ?H;
      repeat (split; [solve [auto]|]).
    + left. auto.
    + right. split; [discriminate|reflexivity].
    + right. split; [discriminate|reflexivity].
Qed.

Lemma connect_starts_heartbeat_witness :
  exists s',
    connect (Connects broken_pipe None) (init 25) = Returns true s'
    /\ socket s' = Some broken_pipe /\ connected s' = true /\ lock s' = false
    /\ diagnostics s' = diagnostics (init 25)
    /\ if (heartbeat_interval (init 25) <=? 0)%Z
       then heartbeat_thread s' = heartbeat_thread (init 25)
            /\ heartbeat_stop s' = heartbeat_stop (init 25)
       else heartbeat_thread s' = Some {| is_alive := true |}
            /\ (heartbeat_thread (init 25) = Some {| is_alive := true |}
                /\ heartbeat_stop s' = heartbeat_stop (init 25)
                \/ heartbeat_thread (init 25) <> Some {| is_alive := true |}
                   /\ heartbeat_stop s' = false).
Proof.
  apply (connect_starts_heartbeat broken_pipe (init 25)); reflexivity.
Defined.

(** X4: [disconnect] drops the socket, ends with the session disconnected and
    without a heartbeat thread (the stop flag is set when a thread was
    alive), and keeps the diagnostic fields and the last heartbeat time.
    It is idempotent: a second [disconnect] returns the same session. *)
Theorem disconnect_is_idempotent :
  forall s,
    lock s = false ->
    exists s',
      disconnect s = Returns tt s'
      /\ socket s' = None /\ connected s' = false /\ lock s' = false
      /\ heartbeat_thread s' = None
      /\ heartbeat_stop s'
         = (match heartbeat_thread s with
            | Some th => is_alive th || heartbeat_stop s
            | None => heartbeat_stop s
            end)
      /\ diagnostics s' = diagnostics s
      /\ last_heartbeat s' = last_heartbeat s
      /\ disconnect s' = Returns tt s'.
Proof.
  intros s L. unfold disconnect, with_lock. rewrite L.
  cbn [lock set_lock]. unfold _stop_heartbeat.
  cbn [heartbeat_thread set_lock].
  destruct (heartbeat_thread s) as [[[|]]|] eqn:H;
    (eexists; split; [reflexivity|]; cbn; rewrite ?H; repeat split; auto).
Qed.

Lemma disconnect_is_idempotent_witness :
  exists s',
    disconnect (running broken_pipe) = Returns tt s'
    /\ socket s' = None /\ connected s' = false /\ lock s' = false
    /\ heartbeat_thread s' = None
    /\ heartbeat_stop s'
       = (match heartbeat_thread (running broken_pipe) with
          | Some th => is_alive th || heartbeat_stop (running broken_pipe)
          | None => heartbeat_stop (running broken_pipe)
          end)
    /\ diagnostics s' = diagnostics (running broken_pipe)
    /\ last_heartbeat s' = last_heartbeat (running broken_pipe)
    /\ disconnect s' = Returns tt s'.
Proof.
  apply (disconnect_is_idempotent (running broken_pipe)). reflexivity.
Defined.

(** ** [send_command]: what comes back *)

(** The heartbeat side of the session. *)
Definition heartbeat_fields (s : session)
  : option thread * bool * Z * option timestamp :=
  (heartbeat_thread s, heartbeat_stop s, heartbeat_interval s, last_heartbeat s).

Lemma exchange_frame command params track w s :
  match exchange command params track w s with
  | Returns r s' => heartbeat_fields s' = heartbeat_fields s /\ lock s' = lock s
  | Raises _ _ => False
  | Blocked => False
  end.
Proof.
  unfold exchange, send_and_receive, on_exception.
  destruct (socket s) as [sk|]; [|destruct track; simpl; auto].
  destruct (utf8_encode (command_json command params)) as [data|];
    [|destruct track; simpl; auto].
  destruct (sendall data sk) as [[e|] sk1]; [destruct track; simpl; auto|].
  destruct (receive_full_response sk1) as [[response|e] sk2];
    [|destruct track; simpl; auto].
  destruct response as [ |b|z|f|t|items|d];
    try solve [destruct track; simpl; auto].
  destruct (eq_str (dict_get STATUS d) ERROR);
    [|destruct (is_False (dict_get (txt "success") d))];
    destruct track; simpl; auto.
Qed.

Lemma dict_contains_set k v d : dict_contains k (dict_set k v d) = true.
Proof.
  induction d as [|[k' v'] d IH]; cbn [dict_set dict_contains].
  - now rewrite text_eqb_refl.
  - destruct (text_eqb k k') eqn:E; cbn [dict_contains]; rewrite E;
      [reflexivity|exact IH].
Qed.

(** What a response that [send_command] returns looks like. *)
Definition checkable (r : json) : Prop :=
  exists d,
    r = JObj d
    /\ (is_False (dict_get (txt "success") d) = true ->
        eq_str (dict_get STATUS d) ERROR = true)
    /\ (eq_str (dict_get STATUS d) ERROR = true ->
        dict_contains ERROR d = true).

Lemma error_response_checkable e : checkable (error_response e).
Proof.
  eexists. split; [reflexivity|]. split; intros _; reflexivity.
Qed.

Lemma exchange_checkable command params track w s :
  match exchange command params track w s with
  | Returns r _ => checkable r
  | Raises _ _ => False
  | Blocked => False
  end.
Proof.
  unfold exchange, send_and_receive, on_exception.
  destruct (socket s) as [sk|]; [|apply error_response_checkable].
  destruct (utf8_encode (command_json command params)) as [data|];
    [|apply error_response_checkable].
  destruct (sendall data sk) as [[e|] sk1]; [apply error_response_checkable|].
  destruct (receive_full_response sk1) as [[response|e] sk2];
    [|apply error_response_checkable].
  destruct response as [ |b|z|f|t|items|d];
    try apply error_response_checkable.
  destruct (eq_str (dict_get STATUS d) ERROR) eqn:E1;
    [|destruct (is_False (dict_get (txt "success") d)) eqn:E2].
  - cbv zeta. destruct (dict_contains ERROR d) eqn:E3.
    + exists d. auto.
    + destruct (error_message_of_annotated d E3) as [_ A2].
      eexists. split; [reflexivity|]. rewrite A2.
      split; intros _; [assumption|apply dict_contains_set].
  - apply error_response_checkable.
  - exists d. split; [reflexivity|]. split; congruence.
Qed.

Lemma send_command_exchange command params track w s r s' :
  send_command command params track w s = Returns r s' ->
  lock s = false /\ connected s = true
  /\ exists s1, exchange command params track w (set_lock true s) = Returns r s1
                /\ s' = set_lock false s1.
Proof.
  intros E.
  destruct (connected s) eqn:C;
    [|rewrite send_command_disconnected_blocks in E by assumption;
      discriminate].
  destruct (lock s) eqn:L.
  { unfold send_command, send_command_with, with_lock in E.
    rewrite L in E. discriminate. }
  unfold send_command in E.
  rewrite send_command_with_connected in E by assumption.
  destruct (exchange command params track w (set_lock true s))
    as [r1 s1|e s1|]; try discriminate.
  injection E as <- <-. eauto.
Qed.

(** X5: Every response that [send_command] returns is a mapping that a caller
    can check by its status alone: if its [success] field is [False] its
    status is ["error"], and if its status is ["error"] it has an [error]
    field. *)
Theorem send_command_response_is_checkable :
  forall command params track w s r s',
    send_command command params track w s = Returns r s' ->
    exists d,
      r = JObj d
      /\ (is_False (dict_get (txt "success") d) = true ->
          eq_str (dict_get STATUS d) ERROR = true)
      /\ (eq_str (dict_get STATUS d) ERROR = true ->
          dict_contains ERROR d = true).
Proof.
  intros command params track w s r s' E.
  apply send_command_exchange in E. destruct E as (_ & _ & s1 & E & _).
  pose proof (exchange_checkable command params track w (set_lock true s)) as K.
  rewrite E in K. exact K.
Qed.

(** A reply with [success] false, no status and no message. *)
Definition bare_failure : json := JObj [(txt "success", JBool false)].

Lemma send_command_response_is_checkable_witness :
  exists d,
    error_response (JStr (txt "Unknown Unreal error")) = JObj d
    /\ (is_False (dict_get (txt "success") d) = true ->
        eq_str (dict_get STATUS d) ERROR = true)
    /\ (eq_str (dict_get STATUS d) ERROR = true ->
        dict_contains ERROR d = true).
Proof.
  eapply (send_command_response_is_checkable (txt "delete_actor") name_params
            true env0 (answering bare_failure)).
  vm_compute. reflexivity.
Defined.

(** X6: [send_command] leaves the heartbeat side of the session alone: the
    thread, its stop flag, the interval and the last heartbeat time are as
    before on every path on which it returns.  A failed exchange drops the
    socket and leaves the heartbeat thread running. *)
Theorem send_command_keeps_heartbeat_fields :
  forall command params track w s r s',
    send_command command params track w s = Returns r s' ->
    heartbeat_fields s' = heartbeat_fields s /\ lock s' = false.
Proof.
  intros command params track w s r s' E.
  apply send_command_exchange in E. destruct E as (_ & _ & s1 & E & ->).
  pose proof (exchange_frame command params track w (set_lock true s)) as K.
  rewrite E in K. destruct K as [K _]. split; [exact K|reflexivity].
Qed.

Lemma send_command_keeps_heartbeat_fields_witness :
  heartbeat_fields
    (set_heartbeat (Some {| is_alive := true |}) false
       (set_last_command (txt "spawn_actor") 101%Z JNull
          (JStr (txt "[Errno 32] Broken pipe")) (init 25)))
  = heartbeat_fields (running broken_pipe)
  /\ lock (set_heartbeat (Some {| is_alive := true |}) false
             (set_last_command (txt "spawn_actor") 101%Z JNull
                (JStr (txt "[Errno 32] Broken pipe")) (init 25)))
     = false.
Proof.
  apply (send_command_keeps_heartbeat_fields (txt "spawn_actor") (JObj []) true
           env0 (running broken_pipe)
           (error_response (JStr (txt "[Errno 32] Broken pipe")))).
  reflexivity.
Defined.

(** *** Replies that report no error *)

Lemma success_reply_answered command params track w s d :
  lock s = false ->
  connected s = true ->
  answered command params s (JObj d) ->
  eq_str (dict_get STATUS d) ERROR = false ->
  is_False (dict_get (txt "success") d) = false ->
  exists s',
    send_command command params track w s = Returns (JObj d) s'
    /\ connected s' = true /\ is_some (socket s') = true /\ lock s' = false
    /\ diagnostics s'
       = if track
         then (Some command, Some (env_time w), JObj d, JNull)
         else diagnostics s.
Proof.
  intros L C A E1 E2.
  unfold send_command. rewrite send_command_with_connected by assumption.
  unfold exchange.
  assert (A' : answered command params (set_lock true s) (JObj d)) by exact A.
  destruct (answered_response command params track (env_time w) _ _ A')
    as (sk2 & E).
  rewrite E. clear E. cbv zeta. rewrite E1, E2.
  eexists. split; [reflexivity|]. destruct track; simpl; auto.
Qed.



(** *** Error replies in general *)

(** [d.get(key, default)] on a mapping that has the key. *)
Lemma dict_get_default_present k dflt d :
  dict_contains k d = true -> dict_get_default k dflt d = dict_get k d.
Proof.
  unfold dict_get.
  induction d as [|[k' v] d IH]; cbn [dict_contains dict_get_default];
    [discriminate|].
  destruct (text_eqb k k'); [reflexivity|exact IH].
Qed.

(** The text of an error, as lines 196 and 205 choose it: the [error] field
    if it is there and truthy, else the [message] field if there is one,
    else a fixed text. *)
Definition error_text (d : list (text * json)) : json :=
  if truthy (dict_get ERROR d) then dict_get ERROR d
  else if dict_contains (txt "message") d then dict_get (txt "message") d
       else JStr (txt "Unknown Unreal error").

Lemma error_message_of_text d : error_message_of d = error_text d.
Proof.
  unfold error_message_of, error_text, py_or.
  destruct (truthy (dict_get ERROR d)); [reflexivity|].
  destruct (dict_contains (txt "message") d) eqn:M.
  - now apply dict_get_default_present.
  - now apply dict_get_default_absent.
Qed.

Lemma error_replies_answered command params track w s d :
  lock s = false ->
  connected s = true ->
  answered command params s (JObj d) ->
  (eq_str (dict_get STATUS d) ERROR = true ->
   exists s',
     send_command command params track w s
     = Returns (JObj (if dict_contains ERROR d then d
                      else d ++ [(ERROR, error_text d)])) s'
     /\ connected s' = true)
  /\ (eq_str (dict_get STATUS d) ERROR = false ->
      is_False (dict_get (txt "success") d) = true ->
      exists s',
        send_command command params track w s
        = Returns (error_response (error_text d)) s'
        /\ connected s' = true).
Proof.
  intros L C A.
  unfold send_command. rewrite send_command_with_connected by assumption.
  unfold exchange.
  assert (A' : answered command params (set_lock true s) (JObj d)) by exact A.
  destruct (answered_response command params track (env_time w) _ _ A')
    as (sk2 & E).
  rewrite E. clear E. cbv zeta. rewrite error_message_of_text. split.
  - intros E1. rewrite E1.
    destruct (dict_contains ERROR d) eqn:E3;
      [|rewrite (dict_set_fresh _ _ _ E3)];
      (eexists; split; [reflexivity|]; destruct track; simpl; assumption).
  - intros E1 E2. rewrite E1, E2.
    eexists. split; [reflexivity|]. destruct track; simpl; assumption.
Qed.

(** X8: A reply whose status is ["error"] comes back with an [error] field: a
    reply that has the field is returned unchanged, and one that lacks it is
    returned with the field added after its own members, holding the
    reply's [message] if it has one and the text "Unknown Unreal error"
    otherwise.  The session stays connected. *)
Theorem send_command_annotates_error_status :
  forall command params track w s hs l d,
    lock s = false ->
    connected s = true ->
    peer_answers command params s hs l ->
    Forall heartbeat_line hs ->
    reply_line l (JObj d) ->
    eq_str (dict_get STATUS d) ERROR = true ->
    exists s',
      send_command command params track w s
      = Returns (JObj (if dict_contains ERROR d then d
                       else d ++ [(ERROR,
                                   if dict_contains (txt "message") d
                                   then dict_get (txt "message") d
                                   else JStr (txt "Unknown Unreal error"))])) s'
      /\ connected s' = true.
Proof.
  intros command params track w s hs l d L C P H R E.
  assert (A : answered command params s (JObj d))
    by (eapply peer_answers_answered; eassumption).
  destruct (error_replies_answered command params track w s d L C A)
    as [K _].
  destruct (K E) as (s' & K1 & K2). exists s'. split; [|exact K2].
  rewrite K1. destruct (dict_contains ERROR d) eqn:E3; [reflexivity|].
  unfold error_text, dict_get.
  rewrite (dict_get_default_absent ERROR JNull d E3). reflexivity.
Qed.

(** A reply with status ["error"] and nothing else. *)
Definition bare_error : json := JObj [(txt "status", JStr (txt "error"))].

Lemma send_command_annotates_error_status_witness :
  exists s',
    send_command (txt "delete_actor") name_params true env0
                 (answering bare_error)
    = Returns (JObj [(txt "status", JStr (txt "error"));
                     (txt "error", JStr (txt "Unknown Unreal error"))]) s'
    /\ connected s' = true.
Proof.
  apply (send_command_annotates_error_status (txt "delete_actor") name_params
           true env0 (answering bare_error) [heartbeat_text]
           (json_dumps bare_error) [(txt "status", JStr (txt "error"))]).
  - reflexivity.
  - reflexivity.
  - apply answering_peer_answers. vm_compute. reflexivity.
  - constructor; [apply heartbeat_text_line|constructor].
  - split; [apply printable_no_newline; vm_compute; reflexivity|].
    split; vm_compute; reflexivity.
  - reflexivity.
Defined.

(** X9: A reply whose [success] is [False] (and whose status is not ["error"])
    is replaced by the canonical error response, whatever else it holds.
    The error text is the reply's [error] field if that is truthy, else its
    [message] field if it has one (whatever its value), else the text
    "Unknown Unreal error".  The session stays connected. *)
Theorem send_command_failure_text :
  forall command params track w s hs l d,
    lock s = false ->
    connected s = true ->
    peer_answers command params s hs l ->
    Forall heartbeat_line hs ->
    reply_line l (JObj d) ->
    eq_str (dict_get STATUS d) ERROR = false ->
    is_False (dict_get (txt "success") d) = true ->
    exists s',
      send_command command params track w s
      = Returns (JObj [(STATUS, JStr ERROR);
                       (ERROR,
                        if truthy (dict_get ERROR d) then dict_get ERROR d
                        else if dict_contains (txt "message") d
                             then dict_get (txt "message") d
                             else JStr (txt "Unknown Unreal error"))]) s'
      /\ connected s' = true.
Proof.
  intros command params track w s hs l d L C P H R E1 E2.
  assert (A : answered command params s (JObj d))
    by (eapply peer_answers_answered; eassumption).
  destruct (error_replies_answered command params track w s d L C A)
    as [_ K].
  exact (K E1 E2).
Qed.

Lemma send_command_failure_text_witness :
  exists s',
    send_command (txt "delete_actor") name_params true env0
                 (answering bare_failure)
    = Returns (JObj [(STATUS, JStr ERROR);
                     (ERROR, JStr (txt "Unknown Unreal error"))]) s'
    /\ connected s' = true.
Proof.
  apply (send_command_failure_text (txt "delete_actor") name_params
           true env0 (answering bare_failure) [heartbeat_text]
           (json_dumps bare_failure) [(txt "success", JBool false)]).
  - reflexivity.
  - reflexivity.
  - apply answering_peer_answers. vm_compute. reflexivity.
  - constructor; [apply heartbeat_text_line|constructor].
  - split; [apply printable_no_newline; vm_compute; reflexivity|].
    split; vm_compute; reflexivity.
  - reflexivity.
  - reflexivity.
Defined.

(** ** After a failed exchange *)

Lemma fault_disconnects command params track w s sk e :
  lock s = false ->
  connected s = true ->
  socket s = Some sk ->
  transport_fault command params sk e ->
  exists s',
    send_command command params track w s
    = Returns (error_response (JStr (exn_str e))) s'
    /\ connected s' = false /\ socket s' = None /\ lock s' = false
    /\ heartbeat_fields s' = heartbeat_fields s.
Proof.
  intros L C S F.
  destruct (send_command_connected_returns command params track w s L C)
    as (r & s' & E & _ & L' & I & _).
  pose proof E as E0.
  apply send_command_exchange in E0. destruct E0 as (_ & _ & s1 & X & ->).
  pose proof (exchange_frame command params track w (set_lock true s)) as K.
  rewrite X in K. destruct K as [K _].
  unfold exchange in X.
  destruct (transport_fault_raises command params track (env_time w)
              (set_lock true s) sk e S F) as (s2 & R).
  rewrite R in X.
  destruct (on_exception_spec command track (env_time_exc w) e s2)
    as (s3 & X3 & C3 & S3 & _).
  rewrite X3 in X. injection X as <- <-.
  exists (set_lock false s3). repeat split; assumption.
Qed.

(** X10: The session does not reconnect by itself.  After an exception of the
    write or of the read, [send_command] has returned an error response and
    left the session disconnected; from then on no [send_command] call on
    the session returns, whatever the command and whatever a connect
    attempt would meet, and no turn of the heartbeat loop does: each holds
    the lock when it calls [connect], which waits for that lock. *)
Theorem send_command_after_fault_never_returns :
  forall command params track w s sk e,
    lock s = false ->
    connected s = true ->
    socket s = Some sk ->
    transport_fault command params sk e ->
    exists r s',
      send_command command params track w s = Returns r s'
      /\ (forall command' params' track' w',
             send_command command' params' track' w' s' = Blocked)
      /\ (forall w' now, heartbeat_iteration w' now s' = Blocked).
Proof.
  intros command params track w s sk e L C S F.
  destruct (fault_disconnects command params track w s sk e L C S F)
    as (s' & E & C' & _).
  exists (error_response (JStr (exn_str e))), s'.
  split; [exact E|]. split.
  - intros. now apply send_command_disconnected_blocks.
  - intros. unfold heartbeat_iteration.
    now rewrite send_command_disconnected_blocks.
Qed.

Lemma send_command_after_fault_never_returns_witness :
  exists r s',
    send_command (txt "spawn_actor") (JObj []) true env0 (session_on broken_pipe)
    = Returns r s'
    /\ (forall command' params' track' w',
           send_command command' params' track' w' s' = Blocked)
    /\ (forall w' now, heartbeat_iteration w' now s' = Blocked).
Proof.
  apply (send_command_after_fault_never_returns (txt "spawn_actor") (JObj [])
           true env0 (session_on broken_pipe) broken_pipe
           (Raise COSError (txt "[Errno 32] Broken pipe")));
    try reflexivity.
  eapply write_fault; reflexivity.
Defined.

(** X11: What brings the session back is a call of [connect] from outside
    [send_command]: after a failed exchange, a [connect] whose attempt goes
    through returns [True] with the new socket in place, and the next
    [send_command] returns. *)
Theorem connect_restores_a_failed_session :
  forall command params track w s sk e sk' command' params' track' w',
    lock s = false ->
    connected s = true ->
    socket s = Some sk ->
    transport_fault command params sk e ->
    exists r s1 s2 r' s3,
      send_command command params track w s = Returns r s1
      /\ connect (Connects sk' None) s1 = Returns true s2
      /\ socket s2 = Some sk' /\ connected s2 = true
      /\ diagnostics s2 = diagnostics s1
      /\ send_command command' params' track' w' s2 = Returns r' s3.
Proof.
  intros command params track w s sk e sk' command' params' track' w' L C S F.
  destruct (fault_disconnects command params track w s sk e L C S F)
    as (s1 & E1 & C1 & _ & L1 & _).
  destruct (connect_body_never_blocks (Connects sk' None) (set_lock true s1))
    as (b & s2 & B).
  assert (E2 : connect (Connects sk' None) s1 = Returns b (set_lock false s2))
    by (unfold connect, with_lock; now rewrite L1, B).
  assert (b = true /\ socket s2 = Some sk' /\ connected s2 = true
          /\ diagnostics s2 = diagnostics s1) as (-> & S2 & C2 & D2).
  { revert B. unfold connect_body. cbn [connected socket set_lock].
    rewrite C1. cbn [andb]. unfold _start_heartbeat.
    cbn [heartbeat_interval heartbeat_thread set_connected set_socket set_lock].
    destruct (heartbeat_interval s1 <=? 0)%Z;
      [|destruct (heartbeat_thread s1) as [[[|]]|]];
      intros [= <- <-]; cbn; auto. }
  destruct (send_command_connected_returns command' params' track' w'
              (set_lock false s2) eq_refl C2) as (r' & s3 & E3 & _).
  exists (error_response (JStr (exn_str e))), s1, (set_lock false s2), r', s3.
  repeat split; assumption.
Qed.

Lemma connect_restores_a_failed_session_witness :
  exists r s1 s2 r' s3,
    send_command (txt "spawn_actor") (JObj []) true env0 (session_on broken_pipe)
    = Returns r s1
    /\ connect (Connects (peer_sends [json_dumps success_reply ++ [NEWLINE]])
                         None) s1
       = Returns true s2
    /\ socket s2 = Some (peer_sends [json_dumps success_reply ++ [NEWLINE]])
    /\ connected s2 = true
    /\ diagnostics s2 = diagnostics s1
    /\ send_command (txt "delete_actor") name_params true env0 s2
       = Returns r' s3.
Proof.
  apply (connect_restores_a_failed_session (txt "spawn_actor") (JObj [])
           true env0 (session_on broken_pipe) broken_pipe
           (Raise COSError (txt "[Errno 32] Broken pipe")));
    try reflexivity.
  eapply write_fault; reflexivity.
Defined.

(** ** What is written *)

(** X12: On a connected session whose write goes through and whose peer answers
    with a mapping, [send_command] has written the encoded command, and
    nothing else, after what the socket had carried before. *)
Theorem send_command_writes_the_command :
  forall command params track w s sk data hs l extra d,
    lock s = false ->
    connected s = true ->
    socket s = Some sk ->
    encode command params = Some data ->
    hd None (sock_send sk) = None ->
    arrives (sock_recv sk) (framed hs l ++ extra) ->
    Forall heartbeat_line hs ->
    reply_line l (JObj d) ->
    exists r s' sk',
      send_command command params track w s = Returns r s'
      /\ socket s' = Some sk'
      /\ sock_sent sk' = sock_sent sk ++ data.
Proof.
  intros command params track w s sk data hs l extra d L C S E W A H R.
  unfold send_command. rewrite send_command_with_connected by assumption.
  unfold exchange, send_and_receive. cbn [socket set_lock]. rewrite S.
  unfold encode in E. rewrite E.
  assert (exists sk1, sendall data sk = (None, sk1)
                      /\ sock_recv sk1 = sock_recv sk
                      /\ sock_sent sk1 = sock_sent sk ++ data)
    as (sk1 & W1 & W2 & W3).
  { unfold sendall. destruct (sock_send sk) as [|[x|] rest]; cbn [hd] in W;
      try discriminate; eexists; repeat split; reflexivity. }
  rewrite W1. rewrite <- W2 in A.
  destruct (recv_loop_framed l (JObj d) extra R (sock_recv sk1) _ A [] hs
              (fun F => F) H eq_refl) as (rest & Q).
  unfold receive_full_response. rewrite Q.
  destruct (eq_str (dict_get STATUS d) ERROR);
    [|destruct (is_False (dict_get (txt "success") d))];
    (do 3 eexists; split; [reflexivity|]; split;
     [destruct track; reflexivity|exact W3]).
Qed.

Lemma send_command_writes_the_command_witness :
  exists r s' sk',
    send_command (txt "delete_actor") name_params true env0
                 (answering success_reply) = Returns r s'
    /\ socket s' = Some sk'
    /\ sock_sent sk'
       = [] ++ bytes_of (command_json (txt "delete_actor") name_params).
Proof.
  apply (send_command_writes_the_command (txt "delete_actor") name_params true
           env0 (answering success_reply)
           (peer_sends [heartbeat_text ++ [NEWLINE];
                        json_dumps success_reply ++ [NEWLINE]])
           (bytes_of (command_json (txt "delete_actor") name_params))
           [heartbeat_text] (json_dumps success_reply) []
           [(txt "status", JStr (txt "success"));
            (txt "actor", JStr (txt "Box1"))]).
  - reflexivity.
  - reflexivity.
  - reflexivity.
  - vm_compute. reflexivity.
  - reflexivity.
  - exact (arrives_ascii [heartbeat_text ++ [NEWLINE];
                          json_dumps success_reply ++ [NEWLINE]] [] eq_refl).
  - constructor; [apply heartbeat_text_line|constructor].
  - apply success_reply_line.
Defined.

(** ** The heartbeat loop *)

Lemma heartbeat_iteration_frame w now s :
  lock s = false ->
  match heartbeat_iteration w now s with
  | Returns _ s' =>
      diagnostics s' = diagnostics s /\ lock s' = false
      /\ heartbeat_stop s' = heartbeat_stop s
      /\ last_heartbeat s' = Some now
      /\ connected s = true
  | Raises _ _ => False
  | Blocked => connected s = false
  end.
Proof.
  intros L. unfold heartbeat_iteration.
  destruct (connected s) eqn:C;
    [|now rewrite send_command_disconnected_blocks].
  destruct (send_command_connected_returns (txt "ping") (JObj []) false w s L C)
    as (r & s' & E & _).
  rewrite E. pose proof E as E0.
  apply send_command_exchange in E0. destruct E0 as (_ & _ & s1 & X & ->).
  pose proof (exchange_frame (txt "ping") (JObj []) false w (set_lock true s))
    as K.
  pose proof (exchange_tracking (txt "ping") (JObj []) false w (set_lock true s))
    as T.
  rewrite X in K, T. destruct K as [K _].
  unfold heartbeat_fields in K. injection K as K1 K2 K3 K4.
  repeat split; try assumption; reflexivity.
Qed.

(** X13: The heartbeat loop never raises and never touches the diagnostic fields
    of the last command: when it ends, after any number of pings, answered
    or failed, they are as they were when it started. *)
Theorem heartbeat_loop_keeps_diagnostics :
  forall wakeups s,
    lock s = false ->
    match _loop wakeups s with
    | Returns _ s' =>
        diagnostics s' = diagnostics s /\ lock s' = false
        /\ heartbeat_stop s' = heartbeat_stop s
    | Raises _ _ => False
    | Blocked => True
    end.
Proof.
  induction wakeups as [|[w now] rest IH]; intros s L; cbn [_loop]; [auto|].
  destruct (heartbeat_stop s) eqn:H; [auto|].
  pose proof (heartbeat_iteration_frame w now s L) as F.
  destruct (heartbeat_iteration w now s) as [[] s1|e s1|];
    [|contradiction|exact I].
  destruct F as (F1 & F2 & F3 & _).
  specialize (IH s1 F2).
  destruct (_loop rest s1) as [[] s2|e s2|]; [|contradiction|exact I].
  destruct IH as (I1 & I2 & I3). rewrite I1, I3, F1, F3, H. auto.
Qed.

Lemma heartbeat_loop_keeps_diagnostics_witness :
  match _loop [(env0, 130%Z)] (answering success_reply) with
  | Returns _ s' =>
      diagnostics s' = diagnostics (answering success_reply) /\ lock s' = false
      /\ heartbeat_stop s' = heartbeat_stop (answering success_reply)
  | Raises _ _ => False
  | Blocked => True
  end.
Proof.
  apply (heartbeat_loop_keeps_diagnostics [(env0, 130%Z)]
           (answering success_reply)).
  reflexivity.
Defined.

(** X14: A ping that fails ends the heartbeat: the failed ping leaves the
    session disconnected, and at its next wake-up the loop, unless it has
    been told to stop, calls [send_command] again and never returns from
    it. *)
Theorem heartbeat_loop_blocks_after_failed_ping :
  forall w1 now1 w2 now2 rest s sk e,
    lock s = false ->
    connected s = true ->
    socket s = Some sk ->
    heartbeat_stop s = false ->
    transport_fault (txt "ping") (JObj []) sk e ->
    _loop ((w1, now1) :: (w2, now2) :: rest) s = Blocked.
Proof.
  intros w1 now1 w2 now2 rest s sk e L C S H F.
  destruct (fault_disconnects (txt "ping") (JObj []) false w1 s sk e L C S F)
    as (s1 & E & C1 & _ & _ & K).
  unfold heartbeat_fields in K. injection K as _ K2 _ _.
  cbn [_loop]. rewrite H. unfold heartbeat_iteration at 1. rewrite E.
  cbn [heartbeat_stop set_last_heartbeat]. rewrite K2, H.
  unfold heartbeat_iteration.
  rewrite send_command_disconnected_blocks; [reflexivity|exact C1].
Qed.

Lemma heartbeat_loop_blocks_after_failed_ping_witness :
  _loop [(env0, 130%Z); (env0, 155%Z)] (running broken_pipe) = Blocked.
Proof.
  apply (heartbeat_loop_blocks_after_failed_ping env0 130%Z env0 155%Z []
           (running broken_pipe) broken_pipe
           (Raise COSError (txt "[Errno 32] Broken pipe")));
    try reflexivity.
  eapply write_fault; reflexivity.
Defined.

(** * [status] and the process-wide connection *)

(** ** [status] (lines 264-275) *)

(** The mapping that [status] returns, one field for each of its keys. *)
Module Status.
Record t : Type := {
  connected : bool;
  heartbeat_interval : Z;
  last_heartbeat : option timestamp;
  heartbeat_running : bool;
  last_command : option text;
  last_command_time : option timestamp;
  last_command_error : json;
  last_command_result : json
}.
End Status.

(** [status] reads the fields as they are; it does not take the lock. *)
Definition status (s : session) : Status.t :=
  {| Status.connected := connected s;
     Status.heartbeat_interval := heartbeat_interval s;
     Status.last_heartbeat := last_heartbeat s;
     Status.heartbeat_running :=
       match heartbeat_thread s with
       | Some th => is_alive th
       | None => false
       end;
     Status.last_command := last_command s;
     Status.last_command_time := last_command_time s;
     Status.last_command_error := last_command_error s;
     Status.last_command_result := last_command_result s |}.

(** ** The global connection (lines 277-324) *)

(** The global [_unreal_connection]: [None], or the session object.  The
    object is shared: what a caller does to the session it got from
    [get_unreal_connection] is done to the session the global holds. *)
Abbreviation handle := (option session) (only parsing).

(** How a function of the module ends: it returns or raises, with the
    global as it leaves it; it leaves the process with [sys.exit]; or it
    never returns. *)
Inductive ended (A : Type) : Type :=
| Returned (a : A) (_unreal_connection : handle)
| Raised (e : exn) (_unreal_connection : handle)
| Exited (exit_code : Z) (_unreal_connection : handle)
| Hangs.
Arguments Returned {A} a _unreal_connection.
Arguments Raised {A} e _unreal_connection.
Arguments Exited {A} exit_code _unreal_connection.
Arguments Hangs {A}.

(** [get_unreal_connection]; [configured] is what line 46 makes of the
    environment, the interval or the [ValueError] of [float], and [a] is
    what the connect attempt meets. *)
Definition get_unreal_connection (configured : exn + Z) (a : connect_attempt)
           (_unreal_connection : handle) : ended (option session) :=
  match _unreal_connection with
  | None =>
      match configured with
      | inl _ =>
          (* UnrealConnection() raises: the global is not assigned *)
          Returned None None
      | inr interval =>
          match connect a (init interval) with
          | Returns true s => Returned (Some s) (Some s)
          | Returns false _ => Returned None None
          | Raises _ s => Returned None (Some s)
          | Blocked => Hangs
          end
      end
  | Some s => Returned (Some s) (Some s)
  end.

(** [shutdown_server] *)
Definition shutdown_server (exit_code : Z) (_unreal_connection : handle)
  : ended unit :=
  match _unreal_connection with
  | Some s =>
      match disconnect s with
      | Returns _ _ => Exited exit_code None
      | Raises _ _ => Exited exit_code None     (* except Exception: logged *)
      | Blocked => Hangs
      end
  | None => Exited exit_code None
  end.

(** [server_lifespan]; [serve] is what the server, running at the [yield],
    does to the global. *)
Definition server_lifespan (serve : handle -> handle)
           (_unreal_connection : handle) : ended unit :=
  let _unreal_connection : handle := None in
  let _unreal_connection := serve _unreal_connection in
  match _unreal_connection with
  | Some s =>
      match disconnect s with
      | Returns _ _ => Returned tt None
      | Raises e s' => Raised e (Some s')
      | Blocked => Hangs
      end
  | None => Returned tt None
  end.

(** ** Properties *)

(** X15: After a tracked command has failed in the write or in the read,
    [status] reports the session disconnected and names the failure: the
    command, the clock reading of the handler, no result, and the text of
    the exception.  It still reports the heartbeat as running if it was. *)
Theorem status_after_fault :
  forall command params w s sk e,
    lock s = false ->
    connected s = true ->
    socket s = Some sk ->
    transport_fault command params sk e ->
    exists r s',
      send_command command params true w s = Returns r s'
      /\ Status.connected (status s') = false
      /\ Status.last_command (status s') = Some command
      /\ Status.last_command_time (status s') = Some (env_time_exc w)
      /\ Status.last_command_result (status s') = JNull
      /\ Status.last_command_error (status s') = JStr (exn_str e)
      /\ Status.heartbeat_running (status s')
         = Status.heartbeat_running (status s)
      /\ Status.last_heartbeat (status s') = Status.last_heartbeat (status s).
Proof.
  intros command params w s sk e L C S F.
  unfold send_command. rewrite send_command_with_connected by assumption.
  unfold exchange.
  destruct (transport_fault_raises command params true (env_time w)
              (set_lock true s) sk e S F) as (s1 & E).
  pose proof (send_and_receive_frame command params true (env_time w)
                (set_lock true s)) as K.
  rewrite E in K. rewrite E.
  assert (H : heartbeat_thread s1 = heartbeat_thread s).
  { revert E. unfold send_and_receive. cbn [socket set_lock]. rewrite S.
    destruct F as [data e sk1 E1 E2|data e sk1 sk2 E1 E2 E3];
      rewrite E1, E2; [|rewrite E3]; intros [= <-]; reflexivity. }
  destruct K as (_ & _ & K3 & _).
  unfold on_exception. do 2 eexists. split; [reflexivity|].
  cbn. rewrite H. repeat split; auto.
Qed.

Lemma status_after_fault_witness :
  exists r s',
    send_command (txt "spawn_actor") (JObj []) true env0 (running broken_pipe)
    = Returns r s'
    /\ Status.connected (status s') = false
    /\ Status.last_command (status s') = Some (txt "spawn_actor")
    /\ Status.last_command_time (status s') = Some (env_time_exc env0)
    /\ Status.last_command_result (status s') = JNull
    /\ Status.last_command_error (status s')
       = JStr (txt "[Errno 32] Broken pipe")
    /\ Status.heartbeat_running (status s')
       = Status.heartbeat_running (status (running broken_pipe))
    /\ Status.last_heartbeat (status s')
       = Status.last_heartbeat (status (running broken_pipe)).
Proof.
  apply (status_after_fault (txt "spawn_actor") (JObj []) env0
           (running broken_pipe) broken_pipe
           (Raise COSError (txt "[Errno 32] Broken pipe")));
    try reflexivity.
  eapply write_fault; reflexivity.
Defined.

(** X16: [status] follows the life of a connection: on a new session it reports
    neither a connection nor a heartbeat; after a [connect] that goes
    through it reports the connection, and a running heartbeat exactly when
    the interval is positive; after [disconnect] it reports neither
    again. *)
Theorem status_follows_connect_and_disconnect :
  forall interval sk,
    exists s1 s2,
      Status.connected (status (init interval)) = false
      /\ Status.heartbeat_running (status (init interval)) = false
      /\ connect (Connects sk None) (init interval) = Returns true s1
      /\ Status.connected (status s1) = true
      /\ Status.heartbeat_running (status s1) = (0 <? interval)%Z
      /\ disconnect s1 = Returns tt s2
      /\ Status.connected (status s2) = false
      /\ Status.heartbeat_running (status s2) = false.
Proof.
  intros interval sk. unfold connect, disconnect, with_lock, connect_body.
  cbn [lock connected init andb set_lock]. unfold _start_heartbeat.
  cbn [heartbeat_interval heartbeat_thread set_connected set_socket set_lock
       init].
  rewrite Z.ltb_antisym.
  destruct (interval <=? 0)%Z; do 2 eexists;
    repeat match goal with |- _ /\ _ => split end; reflexivity.
Qed.

(** X17: On its first use [get_unreal_connection] returns, whatever the
    environment holds and whatever the connect attempt meets, and what it
    returns is what it leaves in the global: a connected session with its
    socket, or [None].  It is [None] exactly when the configured interval
    is no number or the connect attempt fails; nothing is kept then, and
    the next call starts again. *)
Theorem get_unreal_connection_first_use :
  forall configured a,
    exists r,
      get_unreal_connection configured a None = Returned r r
      /\ match r with
         | Some s =>
             connected s = true /\ is_some (socket s) = true /\ lock s = false
         | None => True
         end
      /\ (r = None <->
          match configured with
          | inl _ => True
          | inr interval => attempt_fails (init interval) a
          end).
Proof.
  intros [e|interval] a; cbn [get_unreal_connection].
  - exists None. repeat split; auto.
  - unfold connect, with_lock, connect_body, _start_heartbeat.
    cbn [lock connected init andb set_lock heartbeat_interval heartbeat_thread
         set_connected set_socket].
    destruct a as [e|sk e|sk [e|]].
    + exists None. repeat split; auto. intros _. constructor.
    + exists None. repeat split; auto. intros _. constructor.
    + destruct (Z.leb_spec interval 0) as [I|I].
      * eexists (Some _). repeat split; try discriminate.
        intros F. inversion F; subst. cbn in *. lia.
      * exists None. repeat split; auto.
        intros _. constructor; [exact I|]. intros th H. discriminate H.
    + destruct (interval <=? 0)%Z; eexists (Some _);
        repeat split; try discriminate; intros F; inversion F.
Qed.

(** X18: [get_unreal_connection] never replaces or reconnects the session it
    holds: it returns it as it is, connected or not, and makes no connect
    attempt.  So after a command has failed in the write or in the read, the
    global keeps handing out the same, disconnected session, on which no
    [send_command] returns. *)
Theorem get_unreal_connection_keeps_a_failed_session :
  forall command params track w s sk e,
    lock s = false ->
    connected s = true ->
    socket s = Some sk ->
    transport_fault command params sk e ->
    exists r s',
      send_command command params track w s = Returns r s'
      /\ forall configured a,
           get_unreal_connection configured a (Some s')
           = Returned (Some s') (Some s')
           /\ forall command' params' track' w',
                send_command command' params' track' w' s' = Blocked.
Proof.
  intros command params track w s sk e L C S F.
  destruct (fault_disconnects command params track w s sk e L C S F)
    as (s' & E & C' & _).
  exists (error_response (JStr (exn_str e))), s'.
  split; [exact E|]. intros configured a. split; [reflexivity|].
  intros. now apply send_command_disconnected_blocks.
Qed.

Lemma get_unreal_connection_keeps_a_failed_session_witness :
  exists r s',
    send_command (txt "spawn_actor") (JObj []) true env0 (session_on broken_pipe)
    = Returns r s'
    /\ forall configured a,
         get_unreal_connection configured a (Some s')
         = Returned (Some s') (Some s')
         /\ forall command' params' track' w',
              send_command command' params' track' w' s' = Blocked.
Proof.
  apply (get_unreal_connection_keeps_a_failed_session (txt "spawn_actor")
           (JObj []) true env0 (session_on broken_pipe) broken_pipe
           (Raise COSError (txt "[Errno 32] Broken pipe")));
    try reflexivity.
  eapply write_fault; reflexivity.
Defined.


(** A server that asks for the connection once, and gets one. *)
Definition serve_once (sk : sock) (g : option session) : option session :=
  match get_unreal_connection (inr 25%Z) (Connects sk None) g with
  | Returned _ g' => g'
  | _ => g
  end.


(** * Further properties of the receive loop *)

(** ** Lines the loop passes over *)

(** A line the inner loop passes over: it is blank (line 118), or it is a
    heartbeat message (line 130). *)
Definition ignored_line (h : text) : Prop :=
  ~ In NEWLINE h
  /\ (strip h = []
      \/ exists v, json_loads (strip h) = Some v /\ is_heartbeat v = true).

(** The lines, each ended by a newline. *)
Definition lines (gs : list text) : text :=
  List.flat_map (fun h => h ++ [NEWLINE]) gs.

(** The chunks, none empty, are well-formed UTF-8 for the texts. *)
Definition decodes (chunks : list bytes) (texts : list text) : Prop :=
  Forall2 (fun chunk t => chunk <> [] /\ utf8_decode chunk = Some t)
          chunks texts.

Lemma heartbeat_line_ignored h : heartbeat_line h -> ignored_line h.
Proof. intros (N & H). split; [exact N|right; exact H]. Qed.

Lemma first_line a b h rest :
  ~ In NEWLINE a -> ~ In NEWLINE h ->
  a ++ NEWLINE :: b = h ++ NEWLINE :: rest ->
  a = h /\ b = rest.
Proof.
  revert h. induction a as [|c a IH]; intros [|c' h']; cbn [app];
    intros Na Nh E.
  - injection E as E. auto.
  - injection E as E1 E2. subst c'. destruct Nh. now left.
  - injection E as E1 E2. subst c. destruct Na. now left.
  - injection E as E1 E2. subst c'.
    destruct (IH h' (fun H => Na (or_intror H)) (fun H => Nh (or_intror H)) E2)
      as [-> ->]. auto.
Qed.

Lemma process_buffer_ignored_step fuel h rest :
  ignored_line h ->
  process_buffer (S fuel) (h ++ NEWLINE :: rest) = process_buffer fuel rest.
Proof.
  intros (N & H). cbn [process_buffer]. rewrite (split_newline_app h rest N).
  destruct H as [H|(v & H1 & H2)].
  - rewrite H. reflexivity.
  - rewrite H1, H2. destruct (negb (text_truthy (strip h))); reflexivity.
Qed.

(** The inner loop passes over complete ignored lines, whatever follows
    them. *)
Lemma process_buffer_lines gs :
  Forall ignored_line gs ->
  forall rest fuel,
    (List.length (lines gs ++ rest) <= fuel)%nat ->
    process_buffer fuel (lines gs ++ rest)
    = process_buffer (List.length rest) rest.
Proof.
  induction 1 as [|h gs Hh HF IH]; intros rest fuel F.
  - now apply process_buffer_fuel.
  - unfold lines in *. cbn [flat_map] in *. rewrite <- !app_assoc in *.
    cbn [app] in *. rewrite length_app in F. cbn [List.length] in F.
    destruct fuel as [|fuel]; [lia|].
    rewrite process_buffer_ignored_step by assumption.
    apply IH. lia.
Qed.

(** The inner loop on a buffer that is a prefix of ignored lines followed
    by a text [p] without newline: it asks for more, with the buffer cut
    down to the line in progress. *)
Lemma process_buffer_ignored gs :
  Forall ignored_line gs ->
  forall fuel buffer coming p,
    ~ In NEWLINE p ->
    buffer ++ coming = lines gs ++ p ->
    (List.length buffer <= fuel)%nat ->
    exists buffer' gs',
      process_buffer fuel buffer = NeedMore buffer'
      /\ ~ In NEWLINE buffer'
      /\ Forall ignored_line gs'
      /\ buffer' ++ coming = lines gs' ++ p.
Proof.
  induction 1 as [|h gs Hh HF IH]; intros fuel buffer coming p Np E F.
  - exists buffer, []. cbn [lines flat_map app] in E.
    assert (Nb : ~ In NEWLINE buffer).
    { intros I. apply Np. rewrite <- E. apply in_or_app. now left. }
    repeat split; auto. now apply process_buffer_no_newline.
  - destruct (split_newline buffer) as [[a b]|] eqn:S.
    + apply split_newline_some in S. destruct S as [-> Na].
      unfold lines in E. cbn [flat_map] in E. rewrite <- !app_assoc in E.
      cbn [app] in E.
      destruct (first_line a (b ++ coming) h _ Na (proj1 Hh) E) as [-> E'].
      rewrite length_app in F. cbn [List.length] in F.
      destruct fuel as [|fuel]; [lia|].
      rewrite process_buffer_ignored_step by assumption.
      apply IH; [assumption|exact E'|lia].
    + exists buffer, (h :: gs). repeat split; auto.
      * apply process_buffer_no_newline. now apply split_newline_none.
      * now apply split_newline_none.
Qed.

(** Ignored lines and then a text [p] without newline, arriving in chunks
    cut anywhere: the receive loop goes on with [p] in its buffer. *)
Lemma recv_loop_ignored chunks texts :
  decodes chunks texts ->
  forall buffer gs p events,
    ~ In NEWLINE buffer ->
    ~ In NEWLINE p ->
    Forall ignored_line gs ->
    buffer ++ List.concat texts = lines gs ++ p ->
    recv_loop buffer (List.map Data chunks ++ events) = recv_loop p events.
Proof.
  induction 1 as [|chunk t chunks texts (Hc & Hd) HF IH];
    intros buffer gs p events Nb Np Hg E.
  - cbn [List.concat] in E. rewrite app_nil_r in E. cbn [map app].
    destruct gs as [|g gs].
    + cbn in E. now subst.
    + destruct Nb. rewrite E. unfold lines. cbn [flat_map].
      rewrite <- !app_assoc. apply in_or_app. right. now left.
  - cbn [List.concat] in E. rewrite app_assoc in E.
    destruct chunk as [|b0 chunk]; [congruence|].
    cbn [map app recv_loop]. rewrite Hd.
    destruct (process_buffer_ignored gs Hg (List.length (buffer ++ t))
                (buffer ++ t) (List.concat texts) p Np E (le_n _))
      as (buffer' & gs' & P & Nb' & Hg' & E').
    rewrite P. now apply (IH buffer' gs').
Qed.

(** ** Text that no value can start with *)

Lemma lstrip_blank t : lstrip t = [] -> forallb py_isspace t = true.
Proof.
  induction t as [|c t IH]; cbn [lstrip forallb]; [reflexivity|].
  destruct (py_isspace c); [exact IH|discriminate].
Qed.

Lemma lstrip_head t c r : lstrip t = c :: r -> py_isspace c = false.
Proof.
  induction t as [|c' t IH]; cbn [lstrip]; [discriminate|].
  destruct (py_isspace c') eqn:E; [exact IH|].
  intros [= <- <-]. exact E.
Qed.

Lemma strip_blank t : strip t = [] -> forallb py_isspace t = true.
Proof.
  unfold strip, rstrip. intros H.
  apply (f_equal (@List.rev N)) in H. rewrite rev_involutive in H.
  cbn [List.rev] in H. apply lstrip_blank in H.
  destruct (lstrip t) as [|c r] eqn:E; [now apply lstrip_blank|].
  apply lstrip_head in E. rewrite forallb_forall in H.
  rewrite (H c) in E; [discriminate|].
  apply in_rev. rewrite rev_involutive. now left.
Qed.

Lemma skip_ws_stops s :
  forallb py_isspace s = true ->
  skip_ws s = []
  \/ exists c r, skip_ws s = c :: r /\ py_isspace c = true
                 /\ is_json_ws c = false.
Proof.
  induction s as [|c s IH]; cbn [skip_ws forallb]; [auto|].
  intros H. apply andb_true_iff in H. destruct H as [H1 H2].
  destruct (is_json_ws c) eqn:W; [auto|]. right. eauto.
Qed.

(** [json.loads] rejects a text of white space only. *)
Lemma json_loads_blank t : forallb py_isspace t = true -> json_loads t = None.
Proof.
  intros B. unfold json_loads.
  assert (P : strip_prefix [0xFEFF] t = None).
  { destruct t as [|c t]; [reflexivity|]. cbn [forallb] in B.
    apply andb_true_iff in B. destruct B as [B _].
    apply strip_prefix_head. intros <-. vm_compute in B. discriminate. }
  rewrite P. cbv zeta.
  destruct (skip_ws_stops t B) as [->|(c & r & -> & S & W)]; [reflexivity|].
  rewrite Nat.add_1_r.
  assert (R : 8 < c < 34 \/ 127 < c).
  { revert S. unfold py_isspace, in_range. tests; intros; try discriminate;
      lia. }
  rewrite parse_value_atom by lia.
  replace (parse_atom (c :: r)) with (@None (json * text)); [reflexivity|].
  symmetry. unfold parse_atom.
  change (txt "null") with (110 :: txt "ull").
  change (txt "true") with (116 :: txt "rue").
  change (txt "false") with (102 :: txt "alse").
  change (txt "NaN") with (78 :: txt "aN").
  change (txt "Infinity") with (73 :: txt "nfinity").
  change (txt "-Infinity") with (45 :: 73 :: txt "nfinity").
  rewrite !strip_prefix_head by lia.
  unfold match_number, lex_sign, lex_integer, in_range. tests; reflexivity.
Qed.

Lemma last_attempt_loads buffer otherwise :
  last_attempt buffer otherwise
  = match json_loads buffer with
    | Some message => inl message
    | None => inr otherwise
    end.
Proof.
  unfold last_attempt. destruct (text_truthy (strip buffer)) eqn:T;
    [reflexivity|].
  apply text_truthy_false, strip_blank, json_loads_blank in T.
  now rewrite T.
Qed.

(** ** The end of the stream *)

(** X20: When the stream stops (the peer closes, or a [recv] times out) after
    any blank lines and heartbeats and a text [p] that no newline ends, the
    result is decided by [p] alone: if [p] is a JSON text its value is
    returned, be it a reply or a heartbeat; if not ([p] may be empty) the
    call raises "Timeout receiving Unreal response" on a time-out and
    "Connection closed before receiving a valid response" on a close.  The
    chunks may be cut anywhere. *)
Theorem receive_at_end_of_stream :
  forall chunks texts gs p rest,
    decodes chunks texts ->
    Forall ignored_line gs ->
    ~ In NEWLINE p ->
    List.concat texts = lines gs ++ p ->
    recv_loop [] (List.map Data chunks ++ Timeout :: rest)
    = (match json_loads p with
       | Some message => inl message
       | None => inr receive_timeout
       end, rest)
    /\ recv_loop [] (List.map Data chunks ++ Data [] :: rest)
       = (match json_loads p with
          | Some message => inl message
          | None => inr connection_closed
          end, rest)
    /\ recv_loop [] (List.map Data chunks)
       = (match json_loads p with
          | Some message => inl message
          | None => inr connection_closed
          end, []).
Proof.
  intros chunks texts gs p rest D G N E.
  pose proof (recv_loop_ignored chunks texts D [] gs p) as R.
  cbn [app] in R. split; [|split].
  - rewrite R by auto. cbn [recv_loop]. now rewrite last_attempt_loads.
  - rewrite R by auto. cbn [recv_loop]. now rewrite last_attempt_loads.
  - rewrite <- (app_nil_r (List.map Data chunks)).
    rewrite R by auto. cbn [recv_loop]. now rewrite last_attempt_loads.
Qed.

Lemma receive_at_end_of_stream_witness :
  recv_loop [] (List.map Data [bytes_of (heartbeat_text ++ [NEWLINE; 32]);
                               bytes_of (NEWLINE :: json_dumps success_reply)]
                ++ Timeout :: [])
  = (match json_loads (json_dumps success_reply) with
     | Some message => inl message
     | None => inr receive_timeout
     end, [])
  /\ recv_loop [] (List.map Data [bytes_of (heartbeat_text ++ [NEWLINE; 32]);
                                  bytes_of (NEWLINE :: json_dumps success_reply)]
                   ++ Data [] :: [])
     = (match json_loads (json_dumps success_reply) with
        | Some message => inl message
        | None => inr connection_closed
        end, [])
  /\ recv_loop [] (List.map Data [bytes_of (heartbeat_text ++ [NEWLINE; 32]);
                                  bytes_of (NEWLINE :: json_dumps success_reply)])
     = (match json_loads (json_dumps success_reply) with
        | Some message => inl message
        | None => inr connection_closed
        end, []).
Proof.
  apply (receive_at_end_of_stream
           [bytes_of (heartbeat_text ++ [NEWLINE; 32]);
            bytes_of (NEWLINE :: json_dumps success_reply)]
           [heartbeat_text ++ [NEWLINE; 32];
            NEWLINE :: json_dumps success_reply]
           [heartbeat_text; [32]] (json_dumps success_reply) []).
  - constructor; [split; [discriminate|vm_compute; reflexivity]|].
    constructor; [split; [discriminate|vm_compute; reflexivity]|].
    constructor.
  - constructor; [apply heartbeat_line_ignored, heartbeat_text_line|].
    constructor; [|constructor].
    split; [|left; reflexivity].
    intros [H|[]]. discriminate H.
  - apply printable_no_newline. vm_compute. reflexivity.
  - vm_compute. reflexivity.
Defined.

(** ** What follows the reply *)

(** X21: The buffer is local to one call.  When the chunk that completes the
    reply line holds more text after the line's newline, that text is read
    from the socket and dropped: the call returns the reply, and the next
    call starts from the [recv] calls that follow, with an empty buffer.  A
    second reply that arrived in the same chunk is lost. *)
Theorem receive_discards_what_follows :
  forall chunk gs l message extra sk rest,
    utf8_decode chunk = Some (lines gs ++ l ++ NEWLINE :: extra) ->
    Forall ignored_line gs ->
    reply_line l message ->
    sock_recv sk = Data chunk :: rest ->
    receive_full_response sk = (inl message, set_sock_recv rest sk)
    /\ (forall rest',
          rest = Timeout :: rest' ->
          fst (receive_full_response (set_sock_recv rest sk))
          = inr receive_timeout).
Proof.
  intros chunk gs l message extra sk rest D G (Rn & Rl & Rh) K. split.
  - unfold receive_full_response. rewrite K.
    destruct chunk as [|b0 chunk].
    { cbn [utf8_decode] in D. injection D as D. symmetry in D.
      apply app_eq_nil in D. destruct D as [_ D]. destruct l; discriminate. }
    cbn [recv_loop]. rewrite D. cbn [app].
    rewrite process_buffer_lines by (assumption || apply le_n).
    rewrite length_app. cbn [List.length]. rewrite Nat.add_succ_r.
    cbn [process_buffer]. rewrite (split_newline_app l extra Rn), Rl, Rh.
    destruct (text_truthy (strip l)) eqn:T; [reflexivity|].
    apply text_truthy_false in T. rewrite T, json_loads_nil in Rl.
    discriminate.
  - intros rest' ->. reflexivity.
Qed.

Lemma receive_discards_what_follows_witness :
  receive_full_response
    (peer_sends [json_dumps success_reply ++ NEWLINE
                 :: json_dumps array_reply ++ [NEWLINE]])
  = (inl success_reply,
     set_sock_recv []
       (peer_sends [json_dumps success_reply ++ NEWLINE
                    :: json_dumps array_reply ++ [NEWLINE]]))
  /\ (forall rest',
        [] = Timeout :: rest' ->
        fst (receive_full_response
               (set_sock_recv []
                  (peer_sends [json_dumps success_reply ++ NEWLINE
                               :: json_dumps array_reply ++ [NEWLINE]])))
        = inr receive_timeout).
Proof.
  apply (receive_discards_what_follows
           (bytes_of (json_dumps success_reply ++ NEWLINE
                      :: json_dumps array_reply ++ [NEWLINE]))
           [] (json_dumps success_reply) success_reply
           (json_dumps array_reply ++ [NEWLINE])).
  - vm_compute. reflexivity.
  - constructor.
  - apply success_reply_line.
  - reflexivity.
Defined.

(** ** A line that does not parse *)

Lemma lstrip_incl t c : In c (lstrip t) -> In c t.
Proof.
  induction t as [|c' t IH]; cbn [lstrip]; [tauto|].
  destruct (py_isspace c'); [|tauto]. intros H. right. now apply IH.
Qed.

Lemma strip_incl t c : In c (strip t) -> In c t.
Proof.
  unfold strip, rstrip. intros H. apply in_rev in H.
  apply lstrip_incl in H. apply in_rev in H. now apply lstrip_incl.
Qed.

Lemma lstrip_fixed t :
  match t with c :: _ => py_isspace c = false | [] => True end ->
  lstrip t = t.
Proof. destruct t as [|c t]; cbn [lstrip]; [reflexivity|]. now intros ->. Qed.

Lemma lstrip_lstrip t : lstrip (lstrip t) = lstrip t.
Proof.
  apply lstrip_fixed. destruct (lstrip t) as [|c r] eqn:E; [exact I|].
  now apply lstrip_head in E.
Qed.

Lemma lstrip_keeps_last a c :
  py_isspace c = false -> exists w, lstrip (a ++ [c]) = w ++ [c].
Proof.
  intros C. induction a as [|x a IH]; cbn [app lstrip].
  - rewrite C. now exists [].
  - destruct (py_isspace x); [exact IH|]. now exists (x :: a).
Qed.

Lemma strip_strip t : strip (strip t) = strip t.
Proof.
  unfold strip.
  assert (L : lstrip (rstrip (lstrip t)) = rstrip (lstrip t)).
  { destruct (lstrip t) as [|c r] eqn:E; [reflexivity|].
    apply lstrip_head in E. unfold rstrip. cbn [List.rev].
    destruct (lstrip_keeps_last (List.rev r) c E) as (w & ->).
    rewrite rev_app_distr. cbn [List.rev app]. apply lstrip_fixed. exact E. }
  rewrite L. unfold rstrip. now rewrite rev_involutive, lstrip_lstrip.
Qed.

(** The line that does not parse, stripped, in front of what followed it:
    the buffer as line 127 leaves it. *)
Definition put_back (raw remains : text) : text :=
  strip raw ++ NEWLINE :: remains.

Lemma process_buffer_put_back raw remains more fuel :
  ~ In NEWLINE raw ->
  strip raw <> [] ->
  json_loads (strip raw) = None ->
  process_buffer (S fuel) (put_back raw remains ++ more)
  = NeedMore (put_back raw (remains ++ more))
    \/ remains ++ more = [].
Proof.
  intros N S L. unfold put_back. rewrite <- app_assoc. cbn [app].
  cbn [process_buffer].
  rewrite split_newline_app by (intros I; apply N; now apply strip_incl).
  rewrite strip_strip. destruct (strip raw) as [|c r] eqn:E; [congruence|].
  cbn [text_truthy negb]. rewrite L.
  destruct (remains ++ more) as [|x y]; [now right|now left].
Qed.

(** X22: A complete line that is neither blank nor JSON stops the loop for
    good.  It is put back in front of the buffer, where every later pass
    finds it again: whatever arrives after it, complete replies included,
    the loop returns nothing until the stream stops, and then the result
    is the last attempt on everything received, the line included. *)
Theorem unparsable_line_blocks_the_stream :
  forall chunk raw remains chunks texts rest,
    utf8_decode chunk = Some (raw ++ NEWLINE :: remains) ->
    ~ In NEWLINE raw ->
    strip raw <> [] ->
    json_loads (strip raw) = None ->
    remains <> [] ->
    decodes chunks texts ->
    recv_loop [] (Data chunk :: List.map Data chunks ++ Timeout :: rest)
    = (last_attempt (strip raw ++ NEWLINE :: remains ++ List.concat texts)
                    receive_timeout, rest)
    /\ recv_loop [] (Data chunk :: List.map Data chunks ++ Data [] :: rest)
       = (last_attempt (strip raw ++ NEWLINE :: remains ++ List.concat texts)
                       connection_closed, rest).
Proof.
  intros chunk raw remains chunks texts rest D N S L R Ds.
  assert (G : forall events remains,
             remains <> [] ->
             recv_loop (put_back raw remains) (List.map Data chunks ++ events)
             = recv_loop (put_back raw (remains ++ List.concat texts)) events).
  { clear D R. induction Ds as [|c t chunks texts (Hc & Hd) HF IH];
      intros events after R.
    - cbn [List.concat map app]. now rewrite app_nil_r.
    - destruct c as [|b0 c]; [congruence|].
      cbn [map app recv_loop]. rewrite Hd.
      assert (F : exists fuel,
                 List.length (put_back raw after ++ t) = Datatypes.S fuel).
      { unfold put_back. rewrite !length_app. cbn [List.length].
        rewrite Nat.add_succ_r. cbn [Nat.add]. eauto. }
      destruct F as (fuel & ->).
      destruct (process_buffer_put_back raw after t fuel N S L) as [P|P].
      + rewrite P. cbn [List.concat]. rewrite app_assoc. apply IH.
        destruct after; [congruence|discriminate].
      + destruct after; [congruence|discriminate]. }
  assert (F : recv_loop [] (Data chunk :: List.map Data chunks ++ Timeout :: rest)
              = recv_loop (put_back raw remains)
                          (List.map Data chunks ++ Timeout :: rest)
              /\ recv_loop [] (Data chunk :: List.map Data chunks
                               ++ Data [] :: rest)
                 = recv_loop (put_back raw remains)
                             (List.map Data chunks ++ Data [] :: rest)).
  { destruct chunk as [|b0 chunk].
    { cbn [utf8_decode] in D. injection D as D. destruct raw; discriminate. }
    cbn [recv_loop]. rewrite D. cbn [app].
    rewrite length_app. cbn [List.length]. rewrite Nat.add_succ_r.
    cbn [process_buffer]. rewrite (split_newline_app raw remains N).
    destruct (strip raw) as [|c r] eqn:E; [congruence|].
    cbn [text_truthy negb]. rewrite L.
    destruct remains as [|x y]; [congruence|].
    cbn [text_truthy]. unfold put_back. rewrite E. auto. }
  destruct F as [F1 F2]. rewrite F1, F2, !G by assumption.
  split; reflexivity.
Qed.

(** A line that is no JSON, and a complete reply after it. *)
Definition noise : text := txt "LogTemp: Display: ready".

Lemma unparsable_line_blocks_the_stream_witness :
  recv_loop [] (Data (bytes_of (noise ++ NEWLINE :: json_dumps success_reply))
                :: List.map Data [bytes_of [NEWLINE]] ++ Timeout :: [])
  = (last_attempt (strip noise ++ NEWLINE :: json_dumps success_reply
                   ++ List.concat [[NEWLINE]])
                  receive_timeout, [])
  /\ recv_loop [] (Data (bytes_of (noise ++ NEWLINE :: json_dumps success_reply))
                   :: List.map Data [bytes_of [NEWLINE]] ++ Data [] :: [])
     = (last_attempt (strip noise ++ NEWLINE :: json_dumps success_reply
                      ++ List.concat [[NEWLINE]])
                     connection_closed, []).
Proof.
  apply (unparsable_line_blocks_the_stream
           (bytes_of (noise ++ NEWLINE :: json_dumps success_reply))
           noise (json_dumps success_reply) [bytes_of [NEWLINE]] [[NEWLINE]] []).
  - vm_compute. reflexivity.
  - apply printable_no_newline. vm_compute. reflexivity.
  - vm_compute. discriminate.
  - vm_compute. reflexivity.
  - vm_compute. discriminate.
  - constructor; [split; [discriminate|reflexivity]|constructor].
Defined.

(** ** No reply *)

(** X23: When only blank lines and heartbeats arrive before the [recv] times out
    or the peer closes, [send_command] returns the canonical error response
    with the text of the time-out or of the close, and leaves the session
    disconnected, without its socket. *)
Theorem send_command_without_reply :
  forall command params track w s sk chunks texts gs stop rest,
    lock s = false ->
    connected s = true ->
    socket s = Some sk ->
    encode command params <> None ->
    hd None (sock_send sk) = None ->
    sock_recv sk = List.map Data chunks ++ stop :: rest ->
    decodes chunks texts ->
    Forall ignored_line gs ->
    List.concat texts = lines gs ->
    stop = Timeout \/ stop = Data [] ->
    exists s',
      send_command command params track w s
      = Returns (error_response
                   (JStr (if match stop with Timeout => true | _ => false end
                          then txt "Timeout receiving Unreal response"
                          else txt "Connection closed before receiving a valid response")))
                s'
      /\ connected s' = false /\ socket s' = None.
Proof.
  intros command params track w s sk chunks texts gs stop rest
         L C S E W K D G T St.
  unfold encode in E.
  destruct (utf8_encode (command_json command params)) as [data|] eqn:U;
    [|congruence].
  destruct (sendall_writes data sk W) as (sk1 & W1 & W2).
  pose proof (recv_loop_ignored chunks texts D [] gs [] (stop :: rest)
                (fun F => F) (fun F => F) G) as R.
  cbn [app] in R. rewrite app_nil_r in R. specialize (R T).
  assert (F : transport_fault command params sk
                (if match stop with Timeout => true | _ => false end
                 then receive_timeout else connection_closed)).
  { eapply read_fault; [exact U|exact W1|].
    unfold receive_full_response. rewrite W2, K, R.
    destruct St as [-> | ->]; reflexivity. }
  destruct (fault_disconnects command params track w s sk _ L C S F)
    as (s' & X & C' & S' & _).
  exists s'. split; [|auto]. rewrite X.
  destruct St as [-> | ->]; reflexivity.
Qed.

Lemma send_command_without_reply_witness :
  exists s',
    send_command (txt "delete_actor") name_params true env0
                 (session_on
                    {| sock_send := [];
                       sock_recv := List.map Data
                                      [bytes_of (heartbeat_text ++ [NEWLINE])]
                                    ++ Timeout :: [];
                       sock_sent := [] |})
    = Returns (error_response
                 (JStr (if true
                        then txt "Timeout receiving Unreal response"
                        else txt "Connection closed before receiving a valid response")))
              s'
    /\ connected s' = false /\ socket s' = None.
Proof.
  apply (send_command_without_reply (txt "delete_actor") name_params true env0
           _ {| sock_send := [];
                sock_recv := List.map Data
                               [bytes_of (heartbeat_text ++ [NEWLINE])]
                             ++ Timeout :: [];
                sock_sent := [] |}
           [bytes_of (heartbeat_text ++ [NEWLINE])]
           [heartbeat_text ++ [NEWLINE]] [heartbeat_text] Timeout []).
  - reflexivity.
  - reflexivity.
  - reflexivity.
  - vm_compute. discriminate.
  - reflexivity.
  - reflexivity.
  - constructor; [split; [discriminate|vm_compute; reflexivity]|constructor].
  - constructor; [apply heartbeat_line_ignored, heartbeat_text_line|].
    constructor.
  - vm_compute. reflexivity.
  - left. reflexivity.
Defined.

(** ** Commands are told apart *)

Lemma bytes_of_ascii_inj t t' :
  forallb ascii t = true -> forallb ascii t' = true ->
  bytes_of t = bytes_of t' -> t = t'.
Proof.
  intros A A' E. apply utf8_decode_ascii in A, A'.
  rewrite E in A. congruence.
Qed.



(** ** Replies read back *)

(** The JSON text of a mapping is a line the loop returns, unless it is a
    heartbeat. *)
Lemma mapping_reply_line d :
  json_serializable (JObj d) = true ->
  is_heartbeat (JObj d) = false ->
  reply_line (json_dumps (JObj d)) (JObj d).
Proof.
  intros Ser H.
  split; [apply printable_no_newline, json_dumps_printable, Ser|].
  split; [|exact H].
  replace (strip (json_dumps (JObj d))) with (json_dumps (JObj d));
    [apply json_loads_dumps, Ser|].
  symmetry. cbn [json_dumps]. apply strip_bracketed; reflexivity.
Qed.



(** ** Sequences of operations *)

(** The operations, one after the other, as long as they return. *)
Fixpoint run_all (ops : list operation) (s : session) : outcome unit :=
  match ops with
  | [] => Returns tt s
  | op :: rest =>
      match run op s with
      | Returns _ s' => run_all rest s'
      | Raises e s' => Raises e s'
      | Blocked => Blocked
      end
  end.

Lemma run_step op s :
  session_invariant s ->
  lock s = false ->
  match run op s with
  | Returns _ s' => session_invariant s' /\ lock s' = false
  | Raises _ _ => False
  | Blocked => sends op = true
  end.
Proof.
  intros I L. destruct op as [a| |command params track w|w now]; cbn [run].
  - destruct (connect_returns a s L) as (b & s' & E & E1 & E2 & E3).
    rewrite E. cbn [forget]. unfold session_invariant. now rewrite E1, E2.
  - destruct (disconnect_returns s L) as (s' & E & E1 & E2 & E3).
    rewrite E. unfold session_invariant. now rewrite E1, E2.
  - destruct (connected s) eqn:C.
    + destruct (send_command_connected_returns command params track w s L C)
        as (r & s' & E & _ & E1 & E2 & _).
      rewrite E. cbn [forget]. auto.
    + now rewrite send_command_disconnected_blocks.
  - unfold heartbeat_iteration. destruct (connected s) eqn:C.
    + destruct (send_command_connected_returns (txt "ping") (JObj []) false
                  w s L C) as (r & s' & E & _ & E1 & E2 & _).
      rewrite E. split; [exact E2|exact E1].
    + now rewrite send_command_disconnected_blocks.
Qed.

(** X26: Whatever is done with a session from its creation on, by calls of
    [connect], [disconnect] and [send_command] and by turns of the
    heartbeat loop, in any number and order and whatever they meet: no call
    raises, and after every call that returns the socket is there exactly
    when the session is connected, and the lock is free.  A sequence that
    does not end is one that sends a command. *)
Theorem sessions_stay_consistent :
  forall interval ops,
    match run_all ops (init interval) with
    | Returns _ s' => session_invariant s' /\ lock s' = false
    | Raises _ _ => False
    | Blocked => existsb sends ops = true
    end.
Proof.
  intros interval ops.
  assert (G : forall s,
             session_invariant s -> lock s = false ->
             match run_all ops s with
             | Returns _ s' => session_invariant s' /\ lock s' = false
             | Raises _ _ => False
             | Blocked => existsb sends ops = true
             end);
    [|apply G; reflexivity].
  induction ops as [|op ops IH]; intros s I L; cbn [run_all existsb]; [auto|].
  pose proof (run_step op s I L) as R.
  destruct (run op s) as [[] s1|e s1|]; [|contradiction|now rewrite R].
  destruct R as [I1 L1]. specialize (IH s1 I1 L1).
  destruct (run_all ops s1) as [[] s2|e s2|]; try assumption.
  rewrite IH. apply orb_true_r.
Qed.

(** ** The heartbeat while the peer answers *)

(** The bytes of a ping. *)
Definition ping_frame : bytes :=
  bytes_of (command_json (txt "ping") (JObj [])).

(** A chunk that holds one line, the JSON text of a mapping that is no
    heartbeat. *)
Definition answer_chunk (chunk : bytes) : Prop :=
  exists l d,
    utf8_decode chunk = Some (l ++ [NEWLINE]) /\ reply_line l (JObj d).

Lemma ping_answered w now s sk chunk rest :
  lock s = false ->
  connected s = true ->
  socket s = Some sk ->
  sock_send sk = [] ->
  sock_recv sk = Data chunk :: rest ->
  answer_chunk chunk ->
  exists s1,
    heartbeat_iteration w now s = Returns tt s1
    /\ lock s1 = false /\ connected s1 = true
    /\ socket s1 = Some {| sock_send := []; sock_recv := rest;
                           sock_sent := sock_sent sk ++ ping_frame |}
    /\ heartbeat_stop s1 = heartbeat_stop s
    /\ last_heartbeat s1 = Some now
    /\ diagnostics s1 = diagnostics s.
Proof.
  intros L C S W K (l & d & D & Rn & Rl & Rh).
  unfold heartbeat_iteration, send_command.
  rewrite send_command_with_connected by assumption.
  unfold exchange, send_and_receive. cbn [socket set_lock]. rewrite S.
  replace (utf8_encode (command_json (txt "ping") (JObj [])))
    with (Some ping_frame) by (vm_compute; reflexivity).
  unfold sendall. rewrite W. unfold receive_full_response.
  cbn [sock_recv]. rewrite K.
  destruct chunk as [|b0 chunk].
  { cbn [utf8_decode] in D. injection D as D. destruct l; discriminate. }
  cbn [recv_loop]. rewrite D. cbn [app].
  rewrite length_app. cbn [List.length]. rewrite Nat.add_succ_r.
  cbn [process_buffer]. rewrite (split_newline_app l [] Rn), Rl.
  destruct (text_truthy (strip l)) eqn:T;
    [|apply text_truthy_false in T; rewrite T, json_loads_nil in Rl;
      discriminate].
  cbn [negb]. rewrite Rh. unfold set_sock_recv. cbn [sock_send sock_sent].
  destruct (eq_str (dict_get STATUS d) ERROR);
    [|destruct (is_False (dict_get (txt "success") d))];
    (eexists; split; [reflexivity|]; cbn; rewrite ?C; auto 10).
Qed.

Lemma last_cons {A : Type} (a d : A) l : last (a :: l) d = last l a.
Proof.
  revert a d. induction l as [|b l IH]; intros a d; [reflexivity|].
  change (last (a :: b :: l) d) with (last (b :: l) d).
  now rewrite (IH b d), (IH b a).
Qed.

(** X27: While the peer answers every ping with a mapping, the heartbeat loop
    runs on: it returns when its wake-ups are over, having written one ping
    for each and read one answer for each, with the session still
    connected, the time of the last wake-up as the last heartbeat, and the
    diagnostic fields of the last command untouched. *)
Theorem heartbeat_loop_while_peer_answers :
  forall wakeups chunks s sk rest,
    List.length wakeups = List.length chunks ->
    Forall answer_chunk chunks ->
    lock s = false ->
    connected s = true ->
    heartbeat_stop s = false ->
    socket s = Some sk ->
    sock_send sk = [] ->
    sock_recv sk = List.map Data chunks ++ rest ->
    exists s',
      _loop wakeups s = Returns tt s'
      /\ connected s' = true
      /\ socket s'
         = Some {| sock_send := []; sock_recv := rest;
                   sock_sent := sock_sent sk
                                ++ List.concat
                                     (List.map (fun _ => ping_frame) wakeups) |}
      /\ last_heartbeat s'
         = last (List.map (fun x => Some (snd x)) wakeups) (last_heartbeat s)
      /\ diagnostics s' = diagnostics s.
Proof.
  induction wakeups as [|[w now] wakeups IH];
    intros [|chunk chunks] s sk rest N A L C H S W K; try discriminate.
  - exists s. cbn [_loop map List.concat last app] in *.
    rewrite app_nil_r. repeat split; auto.
    rewrite S. destruct sk. cbn in *. now subst.
  - cbn [map app] in K. inversion A as [|? ? A1 A2]; subst.
    destruct (ping_answered w now s sk chunk _ L C S W K A1)
      as (s1 & E & L1 & C1 & S1 & H1 & T1 & D1).
    cbn [_loop]. rewrite H, E.
    destruct (IH chunks s1 _ rest (eq_add_S _ _ N) A2 L1 C1
                 (eq_trans H1 H) S1 eq_refl eq_refl)
      as (s' & E' & C' & S' & T' & D').
    exists s'. split; [exact E'|]. split; [exact C'|].
    cbn [sock_sent] in S'. cbn [map List.concat].
    rewrite app_assoc. split; [exact S'|].
    cbn [snd]. rewrite last_cons, <- T1. split; [exact T'|].
    now rewrite D', D1.
Qed.

(** A mapping that answers a ping. *)
Definition pong : json := JObj [(txt "message", JStr (txt "pong"))].

Lemma heartbeat_loop_while_peer_answers_witness :
  exists s',
    _loop [(env0, 130%Z); (env0, 155%Z)]
          (running (peer_sends [json_dumps pong ++ [NEWLINE];
                                json_dumps pong ++ [NEWLINE]]))
    = Returns tt s'
    /\ connected s' = true
    /\ socket s'
       = Some {| sock_send := []; sock_recv := [];
                 sock_sent := [] ++ List.concat
                                      (List.map (fun _ => ping_frame)
                                                [(env0, 130%Z); (env0, 155%Z)]) |}
    /\ last_heartbeat s'
       = last (List.map (fun x => Some (snd x)) [(env0, 130%Z); (env0, 155%Z)])
              (last_heartbeat
                 (running (peer_sends [json_dumps pong ++ [NEWLINE];
                                       json_dumps pong ++ [NEWLINE]])))
    /\ diagnostics s'
       = diagnostics (running (peer_sends [json_dumps pong ++ [NEWLINE];
                                           json_dumps pong ++ [NEWLINE]])).
Proof.
  assert (P : answer_chunk (bytes_of (json_dumps pong ++ [NEWLINE]))).
  { exists (json_dumps pong), [(txt "message", JStr (txt "pong"))].
    split; [vm_compute; reflexivity|].
    split; [apply printable_no_newline; vm_compute; reflexivity|].
    split; vm_compute; reflexivity. }
  apply (heartbeat_loop_while_peer_answers
           [(env0, 130%Z); (env0, 155%Z)]
           [bytes_of (json_dumps pong ++ [NEWLINE]);
            bytes_of (json_dumps pong ++ [NEWLINE])]
           (running (peer_sends [json_dumps pong ++ [NEWLINE];
                                 json_dumps pong ++ [NEWLINE]]))
           (peer_sends [json_dumps pong ++ [NEWLINE];
                        json_dumps pong ++ [NEWLINE]]) []);
    try reflexivity.
  constructor; [exact P|]. constructor; [exact P|constructor].
Defined.

(** ** A new connection for an old session *)


